(** * homebridge-nextdns: a shallow embedding of the platform and its switches

    The plugin is a polling bridge between the Homebridge host and the NextDNS
    denylist API.  The embedding follows the TypeScript sources:

    - platform.ts: [getUUID], [getNextDNSProfileData], the [NextDNSPlatform]
      class (constructor, [configureAccessory], [discoverDevices],
      [bootstrapAsyncUpdates] with its [syncConfig] closure, [blockDomain],
      [unblockDomain]);
    - blockedDomainAccessory.ts: the [BlockedDomainAccessory] class
      (constructor, [setOn], [getOn]);
    - the earlier revision of platform.ts, in [Module Legacy], for the
      functions that differ.

    Asynchronous functions are trees of effects ([Async]): reads and writes of
    the platform's store, [await fetch(..)] suspension points, calls that are
    not awaited ([Spawn]) and exceptions.  A small event loop ([exec],
    [deliver], [fire]) runs them the way the JavaScript runtime does: a task
    runs until it suspends on the network, and resumes when the outcome of the
    request is delivered.  Synchronous stretches of code are functions on the
    store.

    Accessory objects are shared and mutated in place: they live in a store
    of objects and the maps hold references.  The host API is what the plugin
    uses of it: UUID generation, the accessory cache, the [On] characteristic
    of the switch service, timers and the [didFinishLaunching] event. *)

From stdpp Require Import base option list strings.
From Stdlib Require Import Ascii ZArith.

Local Open Scope string_scope.
Local Open Scope list_scope.

(** ** JavaScript values and containers *)

(** The values a persisted [context] member may hold ([context] is typed [any]). *)
Inductive JSValue : Type :=
| JSUndefined
| JSNull
| JSBool (b : bool)
| JSNumber (n : Z)
| JSString (s : string)
| JSObject.

(** [v === true] *)
Definition strict_eq_true (v : JSValue) : bool :=
  match v with
  | JSBool true => true
  | _ => false
  end.

(** A value that is [null], [undefined] or present: what [x?.member]
    distinguishes. *)
Inductive Nullish (A : Type) : Type :=
| Null
| Undefined
| Val (a : A).
Arguments Null {A}.
Arguments Undefined {A}.
Arguments Val {A} a.

(** [`${x}`] for a configuration member that may be missing. *)
Definition show (x : option string) : string := default "undefined" x.

(** [!x] for a configuration member: missing and the empty string are falsy. *)
Definition falsy (x : option string) : bool :=
  match x with
  | None => true
  | Some s => bool_decide (s = "")
  end.

(** A JavaScript [Map<string, V>]: insertion-ordered, one binding per key. *)
Module JsMap.

Definition t (V : Type) : Type := list (string * V).

Definition empty {V} : t V := [].

Fixpoint get {V} (k : string) (m : t V) : option V :=
  match m with
  | [] => None
  | (k', v) :: m' => if decide (k = k') then Some v else get k m'
  end.

Fixpoint set {V} (k : string) (v : V) (m : t V) : t V :=
  match m with
  | [] => [(k, v)]
  | (k', v') :: m' =>
      if decide (k = k') then (k, v) :: m' else (k', v') :: set k v m'
  end.

End JsMap.

(** A plain object literal [{}] used as a [Record<string, boolean>]: its own
    members, in the order they were added; every other member is looked up
    on [Object.prototype]. *)
Module JsRecord.

(** The members every object inherits from [Object.prototype]; each of them is
    a function (or, for [__proto__], the prototype object): all truthy. *)
Definition inherited : list string :=
  [ "constructor"; "__defineGetter__"; "__defineSetter__"; "hasOwnProperty";
    "__lookupGetter__"; "__lookupSetter__"; "isPrototypeOf";
    "propertyIsEnumerable"; "toString"; "valueOf"; "__proto__";
    "toLocaleString" ].

(** [acc[k] = v] with a boolean [v].  [__proto__] is an accessor whose setter
    ignores values that are neither objects nor null. *)
Definition assign (k : string) (v : bool) (acc : JsMap.t bool) : JsMap.t bool :=
  if decide (k = "__proto__") then acc else JsMap.set k v acc.

(** [!!acc[k]] *)
Definition truthy_member (k : string) (acc : JsMap.t bool) : bool :=
  if decide (k = "__proto__") then true
  else match JsMap.get k acc with
       | Some b => b
       | None => bool_decide (k ∈ inherited)
       end.

End JsRecord.

(** ** Remote data *)

(** One element of the remote denylist: [{ id: string; active: boolean }]. *)
Module DenylistEntry.
Record t : Type := mk { id : string; active : bool }.
End DenylistEntry.

(** The [data] member of the profile response; [denylist] may be absent. *)
Record ProfileData : Type := { denylist : option (list DenylistEntry.t) }.

(** What [json.data] can observe of a parsed body: the literal [null] (reading
    a member raises a TypeError), or a value whose [data] member is absent
    ([Undefined]), [null] or an object. *)
Inductive Json : Type :=
| JsonNull
| JsonValue (data : Nullish ProfileData).

(** What [response.json()] finds: text that does not parse, or a value. *)
Inductive Body : Type :=
| Malformed
| Parsed (j : Json).

Record Response : Type := { ok : bool; statusText : string; payload : Body }.

Inductive Method : Type := GET | PATCH | POST.

(** The JSON bodies the plugin sends: [{active}] and [{id, active}]. *)
Inductive Payload : Type :=
| SetActive (active : bool)
| CreateEntry (id : string) (active : bool).

Record Request : Type :=
  { url : string;
    method : Method;
    headers : list (string * string);
    body : option Payload }.

Inductive Exn : Type :=
| NetworkError
| SyntaxError
| TypeError.

(** How an [await fetch(..)] settles: the promise rejects, or a response
    arrives (whatever its status). *)
Inductive FetchOutcome : Type :=
| Rejects (e : Exn)
| Responds (r : Response).

(** ** Host objects *)

(** The persisted [accessory.context] blob: [{domain, displayName, isOn}];
    a member that was never assigned is [None] / [JSUndefined]. *)
Module Context.
Record t : Type := mk
  { domain : option string;
    displayName : option string;
    isOn : JSValue }.
Definition empty : t := mk None None JSUndefined.
End Context.

(** The accessory's [Service.AccessoryInformation]. *)
Record AccessoryInformation : Type :=
  { Manufacturer : string; Model : string; SerialNumber : string }.

(** The accessory's [Service.Switch]: the value of its [On] characteristic
    as the host holds it, and its [Name]. *)
Record Switch : Type := { On : bool; Name : string }.

Module PlatformAccessory.
Record t : Type := mk
  { displayName : string;
    UUID : string;
    context : Context.t;
    information : AccessoryInformation;
    switch : option Switch }.
End PlatformAccessory.

(** [new api.platformAccessory(displayName, uuid)]: an empty context, the
    information service the host creates, no switch service yet. *)
Definition platformAccessory (displayName uuid : string) : PlatformAccessory.t :=
  PlatformAccessory.mk displayName uuid Context.empty
    {| Manufacturer := "Default-Manufacturer";
       Model := "Default-Model";
       SerialNumber := "Default-SerialNumber" |}
    None.

(** Accessory objects are shared between the platform's map, the switch
    handlers and the host: they live in a store of objects and are referred
    to by their index. *)
Abbreviation ref := nat (only parsing).

Module BlockedDomainAccessory.
Record t : Type := mk
  { accessory : ref;   (* this.accessory; this.service is its Switch service *)
    isOn : bool }.
End BlockedDomainAccessory.

Record PlatformConfig : Type :=
  { name : option string;
    apiKey : option string;
    profileId : option string;
    blockedDomains : option (list string) }.

(** A log entry keeps the level and the fixed text of the message; the
    values interpolated into it are left out. *)
Inductive Level : Type := Debug | Warn | Error.

(** Calls into the host API, in the order they are made. *)
Inductive HostCall : Type :=
| RegisterPlatformAccessories (accs : list ref)
| UnregisterPlatformAccessories (accs : list ref)
| UpdatePlatformAccessories (accs : list ref).

(** The callbacks the platform hands to the host. *)
Inductive Listener : Type := DidFinishLaunching.
Inductive Callback : Type := SyncConfig.
Record Timer : Type := { callback : Callback; delay : Z }.

(** The platform instance together with what the host holds for it. *)
Record Store : Type :=
  { config : PlatformConfig;
    objects : list PlatformAccessory.t;
    accessories : JsMap.t ref;
    BlockedDomainAccessories : JsMap.t BlockedDomainAccessory.t;
    discoveredCacheUUIDs : list string;
    log : list (Level * string);
    host : list HostCall;
    listeners : list Listener;
    timers : list Timer }.

Definition set_objects (f : list PlatformAccessory.t → list PlatformAccessory.t) (s : Store) : Store :=
  {| config := config s; objects := f (objects s); accessories := accessories s;
     BlockedDomainAccessories := BlockedDomainAccessories s;
     discoveredCacheUUIDs := discoveredCacheUUIDs s; log := log s; host := host s;
     listeners := listeners s; timers := timers s |}.

Definition set_accessories (f : JsMap.t ref → JsMap.t ref) (s : Store) : Store :=
  {| config := config s; objects := objects s; accessories := f (accessories s);
     BlockedDomainAccessories := BlockedDomainAccessories s;
     discoveredCacheUUIDs := discoveredCacheUUIDs s; log := log s; host := host s;
     listeners := listeners s; timers := timers s |}.

Definition set_BlockedDomainAccessories
    (f : JsMap.t BlockedDomainAccessory.t → JsMap.t BlockedDomainAccessory.t) (s : Store) : Store :=
  {| config := config s; objects := objects s; accessories := accessories s;
     BlockedDomainAccessories := f (BlockedDomainAccessories s);
     discoveredCacheUUIDs := discoveredCacheUUIDs s; log := log s; host := host s;
     listeners := listeners s; timers := timers s |}.

Definition set_discoveredCacheUUIDs (f : list string → list string) (s : Store) : Store :=
  {| config := config s; objects := objects s; accessories := accessories s;
     BlockedDomainAccessories := BlockedDomainAccessories s;
     discoveredCacheUUIDs := f (discoveredCacheUUIDs s); log := log s; host := host s;
     listeners := listeners s; timers := timers s |}.

Definition set_log (f : list (Level * string) → list (Level * string)) (s : Store) : Store :=
  {| config := config s; objects := objects s; accessories := accessories s;
     BlockedDomainAccessories := BlockedDomainAccessories s;
     discoveredCacheUUIDs := discoveredCacheUUIDs s; log := f (log s); host := host s;
     listeners := listeners s; timers := timers s |}.

Definition set_host (f : list HostCall → list HostCall) (s : Store) : Store :=
  {| config := config s; objects := objects s; accessories := accessories s;
     BlockedDomainAccessories := BlockedDomainAccessories s;
     discoveredCacheUUIDs := discoveredCacheUUIDs s; log := log s; host := f (host s);
     listeners := listeners s; timers := timers s |}.

Definition set_listeners (f : list Listener → list Listener) (s : Store) : Store :=
  {| config := config s; objects := objects s; accessories := accessories s;
     BlockedDomainAccessories := BlockedDomainAccessories s;
     discoveredCacheUUIDs := discoveredCacheUUIDs s; log := log s; host := host s;
     listeners := f (listeners s); timers := timers s |}.

Definition set_timers (f : list Timer → list Timer) (s : Store) : Store :=
  {| config := config s; objects := objects s; accessories := accessories s;
     BlockedDomainAccessories := BlockedDomainAccessories s;
     discoveredCacheUUIDs := discoveredCacheUUIDs s; log := log s; host := host s;
     listeners := listeners s; timers := f (timers s) |}.

(** ** Asynchronous computations *)

(** A function body as a tree of effects.  [Fetch req k] is [await fetch(req)]:
    the request is issued and the body is suspended until the outcome arrives.
    [Spawn t k] calls the async function [t] without awaiting it: [t] runs up
    to its first suspension, then the caller goes on with [k]; what [t] does
    later, and whether it fails, never reaches the caller. *)
Inductive Async (A : Type) : Type :=
| Ret (a : A)
| Throw (e : Exn)
| Get (k : Store → Async A)
| Put (s : Store) (k : Async A)
| Fetch (req : Request) (k : FetchOutcome → Async A)
| Spawn (t : Async unit) (k : Async A).
Arguments Ret {A} a.
Arguments Throw {A} e.
Arguments Get {A} k.
Arguments Put {A} s k.
Arguments Fetch {A} req k.
Arguments Spawn {A} t k.

Fixpoint bind {A B : Type} (t : Async A) (f : A → Async B) : Async B :=
  match t with
  | Ret a => f a
  | Throw e => Throw e
  | Get k => Get (λ s, bind (k s) f)
  | Put s k => Put s (bind k f)
  | Fetch req k => Fetch req (λ o, bind (k o) f)
  | Spawn t' k => Spawn t' (bind k f)
  end.

#[global] Instance Async_ret : MRet Async := @Ret.
#[global] Instance Async_bind : MBind Async := λ A B f t, bind t f.

(** [try { t } catch (e) { h e }].  A rejection of a call that was not
    awaited ([Spawn]) is not an exception of the caller: the handler does
    not see it. *)
Fixpoint try_catch {A : Type} (t : Async A) (h : Exn → Async A) : Async A :=
  match t with
  | Ret a => Ret a
  | Throw e => h e
  | Get k => Get (λ s, try_catch (k s) h)
  | Put s k => Put s (try_catch k h)
  | Fetch req k => Fetch req (λ o, try_catch (k o) h)
  | Spawn t' k => Spawn t' (try_catch k h)
  end.

Definition gets {A : Type} (f : Store → A) : Async A := Get (λ s, Ret (f s)).
Definition modify (f : Store → Store) : Async unit := Get (λ s, Put (f s) (Ret tt)).

(** [await fetch(req)]: a rejected promise is thrown at the [await]. *)
Definition fetch (req : Request) : Async Response :=
  Fetch req (λ o, match o with
                  | Rejects e => Throw e
                  | Responds r => Ret r
                  end).

(** [array.forEach(async (x) => ...)]: each call of the callback is a call
    that nobody awaits. *)
Fixpoint forEach {A : Type} (l : list A) (f : A → Async unit) : Async unit :=
  match l with
  | [] => Ret tt
  | x :: l' => Spawn (f x) (forEach l' f)
  end.

Definition log_ (lvl : Level) (msg : string) : Async unit :=
  modify (set_log (λ l, l ++ [(lvl, msg)])).

(** ** The event loop *)

(** How far a call got: its promise is fulfilled, rejected, or still pending
    on a request. *)
Inductive Status (A : Type) : Type :=
| Fulfilled (a : A)
| Rejected (e : Exn)
| Pending (k : FetchOutcome → Async A).
Arguments Fulfilled {A} a.
Arguments Rejected {A} e.
Arguments Pending {A} k.

(** The process: the store, every request issued so far, the tasks suspended
    on a request whose outcome is still to come, and the promise rejections
    that nobody handled. *)
Record World : Type :=
  { store : Store;
    requests : list Request;
    inflight : list (FetchOutcome → Async unit);
    unhandled : list Exn }.

Definition set_store (s : Store) (w : World) : World :=
  {| store := s; requests := requests w; inflight := inflight w; unhandled := unhandled w |}.

Definition send (req : Request) (w : World) : World :=
  {| store := store w; requests := requests w ++ [req]; inflight := inflight w;
     unhandled := unhandled w |}.

(** What becomes of a call nobody awaits. *)
Definition detach (r : Status unit * World) : World :=
  match r with
  | (Fulfilled _, w) => w
  | (Rejected e, w) =>
      {| store := store w; requests := requests w; inflight := inflight w;
         unhandled := unhandled w ++ [e] |}
  | (Pending k, w) =>
      {| store := store w; requests := requests w; inflight := inflight w ++ [k];
         unhandled := unhandled w |}
  end.

(** Run a call until it settles or suspends. *)
Fixpoint exec {A : Type} (t : Async A) (w : World) : Status A * World :=
  match t with
  | Ret a => (Fulfilled a, w)
  | Throw e => (Rejected e, w)
  | Get k => exec (k (store w)) w
  | Put s k => exec k (set_store s w)
  | Fetch req k => (Pending k, send req w)
  | Spawn t' k => exec k (detach (exec t' w))
  end.

(** A suspended call resumes with the outcome of its request. *)
Definition resume {A : Type} (r : Status A * World) (o : FetchOutcome) : Status A * World :=
  match r with
  | (Pending k, w) => exec (k o) w
  | _ => r
  end.

(** The outcome of the [i]-th request in flight arrives: the task waiting for
    it resumes. *)
Definition deliver (i : nat) (o : FetchOutcome) (w : World) : World :=
  match inflight w !! i with
  | None => w
  | Some k =>
      detach (exec (k o)
        {| store := store w; requests := requests w;
           inflight := delete i (inflight w); unhandled := unhandled w |})
  end.

(** ** Operations on the store *)

Definition add_log (lvl : Level) (msg : string) : Store → Store :=
  set_log (λ l, l ++ [(lvl, msg)]).

Definition host_call (c : HostCall) : Store → Store :=
  set_host (λ l, l ++ [c]).

(** Mutation of the accessory object behind a reference. *)
Definition update_object (r : ref) (f : PlatformAccessory.t → PlatformAccessory.t) : Store → Store :=
  set_objects (alter f r).

(** [accessory.getService(Service.Switch)] *)
Definition getService_Switch (r : ref) (s : Store) : option Switch :=
  objects s !! r ≫= PlatformAccessory.switch.

Definition set_On (v : bool) (a : PlatformAccessory.t) : PlatformAccessory.t :=
  PlatformAccessory.mk (PlatformAccessory.displayName a) (PlatformAccessory.UUID a)
    (PlatformAccessory.context a) (PlatformAccessory.information a)
    ((λ sw, {| On := v; Name := Name sw |}) <$> PlatformAccessory.switch a).

(** [accessory.getService(Service.Switch)?.updateCharacteristic(Characteristic.On, v)] *)
Definition updateCharacteristic_On (r : ref) (v : bool) : Store → Store :=
  update_object r (set_On v).

Definition set_context (f : Context.t → Context.t) (a : PlatformAccessory.t) : PlatformAccessory.t :=
  PlatformAccessory.mk (PlatformAccessory.displayName a) (PlatformAccessory.UUID a)
    (f (PlatformAccessory.context a)) (PlatformAccessory.information a)
    (PlatformAccessory.switch a).

Definition set_isOn (v : JSValue) (c : Context.t) : Context.t :=
  Context.mk (Context.domain c) (Context.displayName c) v.

(** [this.isOn = value], [this] being the switch registered under a UUID. *)
Definition assign_isOn (this : string) (value : bool) (s : Store) : Store :=
  match JsMap.get this (BlockedDomainAccessories s) with
  | Some self =>
      set_BlockedDomainAccessories
        (JsMap.set this
           (BlockedDomainAccessory.mk (BlockedDomainAccessory.accessory self) value)) s
  | None => s
  end.

(** [str.split('.')[0]] *)
Fixpoint first_label (str : string) : string :=
  match str with
  | EmptyString => EmptyString
  | String c rest => if Ascii.eqb c "."%char then EmptyString else String c (first_label rest)
  end.

(** ** blockedDomainAccessory.ts *)

(** [new BlockedDomainAccessory(platform, accessory)]: brands the information
    service, finds or adds the switch service, reads the initial state from
    the context, names the switch.  The [onSet]/[onGet] handlers it installs
    are [setOn] and [getOn] below. *)
Definition BlockedDomainAccessory_constructor (accessory : ref) (s : Store)
    : BlockedDomainAccessory.t * Store :=
  let s := add_log Debug "BlockedDomainAccessory" s in
  let s :=
    update_object accessory (λ a,
      PlatformAccessory.mk (PlatformAccessory.displayName a) (PlatformAccessory.UUID a)
        (PlatformAccessory.context a)
        {| Manufacturer := "NextDNS"; Model := "NextDNS"; SerialNumber := "NextDNS" |}
        (PlatformAccessory.switch a)) s in
  let s :=
    update_object accessory (λ a,
      PlatformAccessory.mk (PlatformAccessory.displayName a) (PlatformAccessory.UUID a)
        (PlatformAccessory.context a) (PlatformAccessory.information a)
        (Some (default {| On := false; Name := "" |} (PlatformAccessory.switch a)))) s in
  let isOn :=
    match objects s !! accessory with
    | Some a => strict_eq_true (Context.isOn (PlatformAccessory.context a))
    | None => false
    end in
  let s :=
    update_object accessory (λ a,
      PlatformAccessory.mk (PlatformAccessory.displayName a) (PlatformAccessory.UUID a)
        (PlatformAccessory.context a) (PlatformAccessory.information a)
        ((λ sw, {| On := On sw;
                   Name := show (Context.displayName (PlatformAccessory.context a)) |})
           <$> PlatformAccessory.switch a)) s in
  (BlockedDomainAccessory.mk accessory isOn, s).

(** ** platform.ts *)

Section Platform.

(** [api.hap.uuid.generate] *)
Variable generate : string → string.

(** [toTitleCase]: the display name it builds is stored and never read back
    by the plugin; its regular expression and case mapping are the runtime's. *)
Variable toTitleCase : string → string.

Definition getUUID (domain : string) : string :=
  generate ("next-dns-blocked-domain:" +:+ domain).

Definition profile_request (apiKey profileId : option string) : Request :=
  {| url := "https://api.nextdns.io/profiles/" +:+ show profileId;
     method := GET;
     headers := [("x-api-key", show apiKey)];
     body := None |}.

(** [await response.json()]; the body comes with the response. *)
Definition response_json (response : Response) : Async Json :=
  match payload response with
  | Malformed => Throw SyntaxError
  | Parsed j => Ret j
  end.

(** [json.data] *)
Definition member_data (json : Json) : Async (Nullish ProfileData) :=
  match json with
  | JsonNull => Throw TypeError
  | JsonValue data => Ret data
  end.

Definition getNextDNSProfileData (apiKey profileId : option string)
    : Async (Nullish ProfileData) :=
  try_catch
    (response ← fetch (profile_request apiKey profileId);
     if negb (ok response) then
       log_ Warn "Failed to fetch profile:";;
       mret Null
     else
       json ← response_json response;
       member_data json)
    (λ _,
       log_ Warn "Failed to fetch profile. Ensure the API key and profile ID are correct and the network is reachable.";;
       mret Null).

(** The field initialisers of [NextDNSPlatform]. *)
Definition new_platform (config : PlatformConfig) : Store :=
  {| config := config; objects := []; accessories := JsMap.empty;
     BlockedDomainAccessories := JsMap.empty; discoveredCacheUUIDs := [];
     log := []; host := []; listeners := []; timers := [] |}.

Definition NextDNSPlatform_constructor : Async unit :=
  log_ Debug "config";;
  cfg ← gets config;
  if falsy (apiKey cfg) || falsy (profileId cfg) then
    log_ Warn (show (name cfg) +:+ " is not configured correctly. apiKey and profileId are required.")
  else
    log_ Debug "Finished initializing platform:";;
    modify (set_listeners (λ l, l ++ [DidFinishLaunching])).

Definition configureAccessory (accessory : ref) (s : Store) : Store :=
  let s := add_log Debug "Loading accessory from cache:" s in
  match objects s !! accessory with
  | Some a => set_accessories (JsMap.set (PlatformAccessory.UUID a) accessory) s
  | None => s
  end.

Definition patch_request (config : PlatformConfig) (domain : string) (active : bool) : Request :=
  {| url := "https://api.nextdns.io/profiles/" +:+ show (profileId config)
              +:+ "/denylist/" +:+ domain;
     method := PATCH;
     headers := [("Content-Type", "application/json"); ("x-api-key", show (apiKey config))];
     body := Some (SetActive active) |}.

Definition post_request (config : PlatformConfig) (domain : string) : Request :=
  {| url := "https://api.nextdns.io/profiles/" +:+ show (profileId config) +:+ "/denylist";
     method := POST;
     headers := [("Content-Type", "application/json"); ("x-api-key", show (apiKey config))];
     body := Some (CreateEntry domain true) |}.

Definition blockDomain (domain : string) : Async unit :=
  try_catch
    (cfg ← gets config;
     response ← fetch (patch_request cfg domain true);
     if negb (ok response) then
       (* create the new domain *)
       cfg ← gets config;
       _ ← fetch (post_request cfg domain);
       mret tt
     else mret tt)
    (λ _, log_ Warn "Failed to block domain:").

Definition unblockDomain (domain : string) : Async unit :=
  try_catch
    (cfg ← gets config;
     _ ← fetch (patch_request cfg domain false);
     mret tt)
    (λ _, log_ Warn "Failed to unblock domain:").

(** The callback of [data?.denylist.forEach] in [syncConfig]; it has no
    [await], so it runs to its end when it is called. *)
Definition syncEntry (blockedDomain : DenylistEntry.t) (s : Store) : Store :=
  let uuid := getUUID (DenylistEntry.id blockedDomain) in
  let active := DenylistEntry.active blockedDomain in
  let s :=
    match JsMap.get uuid (accessories s) with
    | Some accessory =>
        match getService_Switch accessory s with
        | Some service =>
            if negb (Bool.eqb (On service) active) then
              updateCharacteristic_On accessory active (add_log Debug "updating accessory" s)
            else s
        | None => s
        end
    | None => s
    end in
  match JsMap.get uuid (BlockedDomainAccessories s) with
  | Some blockedDomainAccessory =>
      let s :=
        match JsMap.get "adf" (accessories s) with
        | Some adf => updateCharacteristic_On adf active s
        | None => s
        end in
      set_BlockedDomainAccessories
        (JsMap.set uuid
           (BlockedDomainAccessory.mk
              (BlockedDomainAccessory.accessory blockedDomainAccessory) active)) s
  | None => s
  end.

(** The closure [syncConfig] of [bootstrapAsyncUpdates]. *)
Definition syncConfig : Async unit :=
  log_ Debug "syncConfig called";;
  try_catch
    (cfg ← gets config;
     data ← getNextDNSProfileData (apiKey cfg) (profileId cfg);
     match data with
     | Val data =>
         match denylist data with
         | Some denylist => forEach denylist (λ blockedDomain, modify (syncEntry blockedDomain))
         | None => Throw TypeError
         end
     | Null | Undefined => mret tt
     end)
    (λ _, log_ Warn "Failed to fetch profile:");;
  modify (set_timers (λ t, t ++ [{| callback := SyncConfig; delay := 60000 |}])).

Definition bootstrapAsyncUpdates : Async unit :=
  Spawn syncConfig (mret tt).

(** One turn of the [for (const blockedDomain of blockedDomains)] loop of
    [discoverDevices]. *)
Definition discoverDomain (nextDNSBlockedDomains : JsMap.t bool)
    (blockedDomain : string) (s : Store) : Store :=
  let uuid := getUUID blockedDomain in
  let s :=
    match JsMap.get uuid (accessories s) with
    | Some existingAccessory =>
        let s := add_log Debug "Restoring existing accessory from cache:" s in
        let s :=
          update_object existingAccessory
            (set_context (set_isOn
               (JSBool (JsRecord.truthy_member blockedDomain nextDNSBlockedDomains)))) s in
        let s := host_call (UpdatePlatformAccessories [existingAccessory]) s in
        let '(handler, s) := BlockedDomainAccessory_constructor existingAccessory s in
        set_BlockedDomainAccessories (JsMap.set uuid handler) s
    | None =>
        let s := add_log Debug "Adding new accessory:" s in
        let displayName := toTitleCase (first_label blockedDomain +:+ " block") in
        let accessory := length (objects s) in
        let s := set_objects (λ l, l ++ [platformAccessory displayName uuid]) s in
        let s :=
          update_object accessory
            (set_context (λ _,
               Context.mk (Some blockedDomain) (Some displayName)
                 (JSBool (JsRecord.truthy_member blockedDomain nextDNSBlockedDomains)))) s in
        let '(handler, s) := BlockedDomainAccessory_constructor accessory s in
        let s := set_BlockedDomainAccessories (JsMap.set uuid handler) s in
        host_call (RegisterPlatformAccessories [accessory]) s
    end in
  set_discoveredCacheUUIDs (λ l, l ++ [uuid]) s.

(** One turn of the [for (const [uuid, accessory] of this.accessories)] loop. *)
Definition forgetAccessory (entry : string * ref) (s : Store) : Store :=
  let '(uuid, accessory) := entry in
  if bool_decide (uuid ∈ discoveredCacheUUIDs s) then s
  else
    host_call (UnregisterPlatformAccessories [accessory])
      (add_log Debug "Removing existing accessory from cache:" s).

(** [discoverDevices] after its [await]: everything up to the call of
    [bootstrapAsyncUpdates]. *)
Definition registerDevices (data : Nullish ProfileData) (s : Store) : Store :=
  let blockedDomains := default [] (blockedDomains (config s)) in
  let denylist :=
    match data with
    | Val data => default [] (denylist data)
    | Null | Undefined => []
    end in
  let nextDNSBlockedDomains :=
    foldl (λ acc domain,
             JsRecord.assign (DenylistEntry.id domain) (DenylistEntry.active domain) acc)
      JsMap.empty denylist in
  let s := add_log Debug "nextDNSBlockedDomains" s in
  let s := foldl (λ s blockedDomain, discoverDomain nextDNSBlockedDomains blockedDomain s)
             s blockedDomains in
  foldl (λ s entry, forgetAccessory entry s) s (accessories s).

Definition discoverDevices : Async unit :=
  cfg ← gets config;
  data ← getNextDNSProfileData (apiKey cfg) (profileId cfg);
  modify (registerDevices data);;
  (* Bootstrap async updates *)
  Spawn bootstrapAsyncUpdates (mret tt).

(** *** The switch handlers ([this] is the switch registered under a UUID) *)

Definition this_switch (this : string) : Async BlockedDomainAccessory.t :=
  s ← Get Ret;
  match JsMap.get this (BlockedDomainAccessories s) with
  | Some self => mret self
  | None => Throw TypeError
  end.

(** [this.accessory.context.domain] *)
Definition this_domain (this : string) : Async string :=
  self ← this_switch this;
  s ← Get Ret;
  match objects s !! BlockedDomainAccessory.accessory self with
  | Some a => mret (show (Context.domain (PlatformAccessory.context a)))
  | None => Throw TypeError
  end.

Definition setOn (this : string) (value : bool) : Async unit :=
  log_ Debug "setOn";;
  modify (assign_isOn this value);;
  self ← this_switch this;
  domain ← this_domain this;
  if BlockedDomainAccessory.isOn self then
    Spawn (blockDomain domain) (mret tt)
  else
    Spawn (unblockDomain domain) (mret tt).

Definition getOn (this : string) : Async bool :=
  self ← this_switch this;
  mret (BlockedDomainAccessory.isOn self).

(** *** What the host and the runtime do with the callbacks *)

(** The host emits [didFinishLaunching]: each listener logs and calls
    [this.discoverDevices()] without awaiting it. *)
Definition didFinishLaunching (w : World) : World :=
  foldl (λ w listener,
           match listener with
           | DidFinishLaunching =>
               detach (exec (log_ Debug "Executed didFinishLaunching callback";;
                             Spawn discoverDevices (mret tt)) w)
           end)
    w (listeners (store w)).

(** The [i]-th pending timer fires: its callback runs, nobody awaits it. *)
Definition fire (i : nat) (w : World) : World :=
  match timers (store w) !! i with
  | None => w
  | Some timer =>
      let w := set_store (set_timers (delete i) (store w)) w in
      match callback timer with
      | SyncConfig => detach (exec syncConfig w)
      end
  end.

(** The host restores an accessory from its cache and hands it to the platform. *)
Definition restore (a : PlatformAccessory.t) (s : Store) : Store :=
  let accessory := length (objects s) in
  configureAccessory accessory (set_objects (λ l, l ++ [a]) s).

(** The plugin is loaded: the platform is constructed, the cached accessories
    are restored, and the host announces that it finished launching. *)
Definition boot (config : PlatformConfig) (cached : list PlatformAccessory.t)
    : Status unit * World :=
  let '(r, w) :=
    exec NextDNSPlatform_constructor
      {| store := new_platform config; requests := []; inflight := []; unhandled := [] |} in
  (r, didFinishLaunching (set_store (foldl (λ s a, restore a s) (store w) cached) w)).

End Platform.

(** ** The earlier revision of platform.ts

    [src/platform.ts] is an earlier revision of the same class: it has no
    [getNextDNSProfileData], reads the profile in place, and has no
    [try]/[catch] anywhere; the constructor reports a bad configuration with
    [log.error].  The discovery loop and the [forEach] callback are the same. *)
Module Legacy.

Section Platform.

Variables (generate toTitleCase : string → string).

Definition NextDNSPlatform_constructor : Async unit :=
  log_ Debug "config";;
  cfg ← gets config;
  if falsy (apiKey cfg) || falsy (profileId cfg) then
    log_ Error (show (name cfg) +:+ " is not configured correctly. apiKey and profileId are required.")
  else
    log_ Debug "Finished initializing platform:";;
    modify (set_listeners (λ l, l ++ [DidFinishLaunching])).

(** [data.data.denylist] followed by a method call on it. *)
Definition data_denylist (json : Json) : Async (list DenylistEntry.t) :=
  match json with
  | JsonValue (Val data) =>
      match denylist data with
      | Some l => Ret l
      | None => Throw TypeError
      end
  | JsonValue Null | JsonValue Undefined | JsonNull => Throw TypeError
  end.

Definition blockDomain (domain : string) : Async unit :=
  cfg ← gets config;
  response ← fetch (patch_request cfg domain true);
  if negb (ok response) then
    (* create the new domain *)
    cfg ← gets config;
    _ ← fetch (post_request cfg domain);
    mret tt
  else mret tt.

Definition unblockDomain (domain : string) : Async unit :=
  cfg ← gets config;
  _ ← fetch (patch_request cfg domain false);
  mret tt.

Definition syncConfig : Async unit :=
  log_ Debug "syncConfig called";;
  cfg ← gets config;
  response ← fetch (profile_request (apiKey cfg) (profileId cfg));
  data ← response_json response;
  denylist ← data_denylist data;
  forEach denylist (λ blockedDomain, modify (syncEntry generate blockedDomain));;
  modify (set_timers (λ t, t ++ [{| callback := SyncConfig; delay := 60000 |}])).

Definition bootstrapAsyncUpdates : Async unit :=
  Spawn syncConfig (mret tt).

Definition discoverDevices : Async unit :=
  cfg ← gets config;
  response ← fetch (profile_request (apiKey cfg) (profileId cfg));
  data ← response_json response;
  denylist ← data_denylist data;
  modify (registerDevices generate toTitleCase (Val {| denylist := Some denylist |}));;
  (* Bootstrap async updates *)
  Spawn bootstrapAsyncUpdates (mret tt).

End Platform.

End Legacy.

(** * Vocabulary of the properties *)

(** A call run from its start, the outcomes of its successive requests being
    given. *)
Definition run {A : Type} (t : Async A) (w : World) (outcomes : list FetchOutcome)
    : Status A * World :=
  foldl resume (exec t w) outcomes.

(** What a call that has suspended on a request does when the outcome
    arrives. *)
Definition continuation {A : Type} (r : Status A * World) : FetchOutcome → Async A :=
  match r.1 with
  | Pending k => k
  | Fulfilled a => λ _, Ret a
  | Rejected e => λ _, Throw e
  end.

(** The three ways the remote read fails: the request itself fails, the
    status is not a success, the body is not JSON. *)
Definition fetch_failed (o : FetchOutcome) : bool :=
  match o with
  | Rejects _ => true
  | Responds r =>
      negb (ok r) || match payload r with Malformed => true | Parsed _ => false end
  end.

(** The request got an answer and the answer is not a success. *)
Definition not_ok (o : FetchOutcome) : bool :=
  match o with
  | Rejects _ => false
  | Responds r => negb (ok r)
  end.

(** A successful read: a success status and a body with a denylist. *)
Definition fetched (st : string) (l : list DenylistEntry.t) : FetchOutcome :=
  Responds {| ok := true; statusText := st;
              payload := Parsed (JsonValue (Val {| denylist := Some l |})) |}.

(** The denylist [discoverDevices] works with: empty when there is no data. *)
Definition fetched_denylist (data : Nullish ProfileData) : list DenylistEntry.t :=
  match data with
  | Val data => default [] (denylist data)
  | Null | Undefined => []
  end.

(** What the fetcher hands over for each outcome of its request... *)
Definition outcome_data (o : FetchOutcome) : Nullish ProfileData :=
  match o with
  | Rejects _ => Null
  | Responds r =>
      if ok r then
        match payload r with
        | Parsed (JsonValue data) => data
        | Parsed JsonNull | Malformed => Null
        end
      else Null
  end.

(** ... and what it logs. *)
Definition outcome_log (o : FetchOutcome) (s : Store) : Store :=
  match o with
  | Rejects _ =>
      add_log Warn "Failed to fetch profile. Ensure the API key and profile ID are correct and the network is reachable." s
  | Responds r =>
      if ok r then
        match payload r with
        | Parsed (JsonValue _) => s
        | Parsed JsonNull | Malformed =>
            add_log Warn "Failed to fetch profile. Ensure the API key and profile ID are correct and the network is reachable." s
        end
      else add_log Warn "Failed to fetch profile:" s
  end.

(** The denylist a read brings: empty when it brings no data. *)
Definition outcome_denylist (o : FetchOutcome) : list DenylistEntry.t :=
  fetched_denylist (outcome_data o).

(** The object [nextDNSBlockedDomains] that [discoverDevices] builds. *)
Definition blocked_record (l : list DenylistEntry.t) : JsMap.t bool :=
  foldl (λ acc domain,
           JsRecord.assign (DenylistEntry.id domain) (DenylistEntry.active domain) acc)
    JsMap.empty l.

(** A platform that has just been created and has nothing going on. *)
Definition idle_world (config : PlatformConfig) : World :=
  {| store := new_platform config; requests := []; inflight := []; unhandled := [] |}.

Definition poll_timer : Timer := {| callback := SyncConfig; delay := 60000 |}.

(** The fields the [forEach] callback of [syncConfig] leaves alone. *)
Definition untouched (s s' : Store) : Prop :=
  config s' = config s ∧ accessories s' = accessories s ∧
  discoveredCacheUUIDs s' = discoveredCacheUUIDs s ∧ host s' = host s ∧
  listeners s' = listeners s ∧ timers s' = timers s.

(** Nothing was discovered: no host call, no listener, no timer, no switch. *)
Definition undiscovered (s : Store) : Prop :=
  host s = [] ∧ listeners s = [] ∧ timers s = [] ∧
  BlockedDomainAccessories s = [] ∧ discoveredCacheUUIDs s = [].

(** Every accessory object sits in the maps under its own UUID: this is how
    [configureAccessory] and [discoverDevices] fill them. *)
Definition keyed (s : Store) : Prop :=
  (∀ u r, JsMap.get u (accessories s) = Some r →
          PlatformAccessory.UUID <$> objects s !! r = Some u) ∧
  (∀ u self, JsMap.get u (BlockedDomainAccessories s) = Some self →
             PlatformAccessory.UUID <$> objects s !! BlockedDomainAccessory.accessory self
             = Some u).

(** An accessory as the host's cache gives it back. *)
Definition reddit_cached (uuid : string) : PlatformAccessory.t :=
  PlatformAccessory.mk "Reddit Block" uuid
    (Context.mk (Some "reddit.com") (Some "Reddit Block") (JSBool false))
    {| Manufacturer := "NextDNS"; Model := "NextDNS"; SerialNumber := "NextDNS" |}
    (Some {| On := false; Name := "Reddit Block" |}).

Definition reddit_config : PlatformConfig :=
  {| name := Some "NextDNS"; apiKey := Some "key"; profileId := Some "abc123";
     blockedDomains := Some ["reddit.com"] |}.

(** A store as the plugin keeps it: keyed, and without an accessory under the
    key ["adf"] (no UUID of the host has this form). *)
Definition sound (s : Store) : Prop :=
  keyed s ∧ JsMap.get "adf" (accessories s) = None.

(** A computation that keeps the store sound, whatever the outcomes of its
    requests and whatever happens in between. *)
Inductive safe : ∀ A : Type, Async A → Prop :=
| safe_Ret A (a : A) : safe A (Ret a)
| safe_Throw A (e : Exn) : safe A (Throw e)
| safe_Get A (k : Store → Async A) : (∀ s, sound s → safe A (k s)) → safe A (Get k)
| safe_Put A (s : Store) (k : Async A) : sound s → safe A k → safe A (Put s k)
| safe_Fetch A (req : Request) (k : FetchOutcome → Async A) :
    (∀ o, safe A (k o)) → safe A (Fetch req k)
| safe_Spawn A (t : Async unit) (k : Async A) : safe unit t → safe A k → safe A (Spawn t k).
Arguments safe {A} t.

(** A world whose store is sound and whose suspended tasks are safe. *)
Definition steady (w : World) : Prop :=
  sound (store w) ∧ Forall (λ k, ∀ o, safe (k o)) (inflight w).

(** What can happen once the plugin is loaded. *)
Inductive Event : Type :=
| Delivered (i : nat) (o : FetchOutcome)   (* the outcome of a request arrives *)
| Fired (i : nat)                          (* a timer fires *)
| HostSet (this : string) (value : bool)   (* the host calls the onSet handler *)
| HostGet (this : string).                 (* the host calls the onGet handler *)

Section Vocabulary.

Variables (generate toTitleCase : string → string).

(** The loop on its own: the outcome of the pending read arrives, the timer
    it leaves behind fires; once for each outcome. *)
Definition poll_loop (outcomes : list FetchOutcome) (w : World) : World :=
  foldl (λ w o, fire generate 0 (deliver 0 o w)) w outcomes.

(** The loop waits for a read and for nothing else. *)
Definition polling (w : World) : Prop :=
  timers (store w) = [] ∧
  ∃ w0, inflight w = [continuation (exec (syncConfig generate) w0)].

Definition step (e : Event) (w : World) : World :=
  match e with
  | Delivered i o => deliver i o w
  | Fired i => fire generate i w
  | HostSet this value => (exec (setOn this value) w).2
  | HostGet this => (exec (getOn this) w).2
  end.

(** The world after the plugin was loaded and a sequence of events. *)
Definition reach (config : PlatformConfig) (cached : list PlatformAccessory.t)
    (events : list Event) : World :=
  foldl (λ w e, step e w) (boot generate toTitleCase config cached).2 events.

End Vocabulary.

(** *** Concrete runs

    In the concrete runs the host's UUID generator is the key itself and
    the title-casing is left out. *)

Definition key_uuid (key : string) : string := key.
Definition as_typed (str : string) : string := str.

Definition reddit (active : bool) : FetchOutcome :=
  fetched "OK" [DenylistEntry.mk "reddit.com" active].

(** A first run: the plugin starts with nothing in the host's cache and
    discovers the domain while it is off remotely. *)
Definition first_run : World :=
  deliver 0 (reddit false) (boot key_uuid as_typed reddit_config []).2.

(** A later run: the accessory comes back from the host's cache. *)
Definition later_run : World :=
  deliver 0 (reddit false)
    (boot key_uuid as_typed reddit_config
       [reddit_cached (getUUID key_uuid "reddit.com")]).2.

(** A later run in which the host's cache holds something odd in
    [context.isOn] while the domain is on remotely. *)
Definition junk_cached : PlatformAccessory.t :=
  PlatformAccessory.mk "Reddit Block" (getUUID key_uuid "reddit.com")
    (Context.mk (Some "reddit.com") (Some "Reddit Block") (JSString "yes"))
    {| Manufacturer := "NextDNS"; Model := "NextDNS"; SerialNumber := "NextDNS" |}
    (Some {| On := false; Name := "Reddit Block" |}).

Definition junk_run : World :=
  deliver 0 (reddit true) (boot key_uuid as_typed reddit_config [junk_cached]).2.

(** A domain named like a member every object inherits; the first read fails. *)
Definition constructor_config : PlatformConfig :=
  {| name := Some "NextDNS"; apiKey := Some "key"; profileId := Some "abc123";
     blockedDomains := Some ["constructor"] |}.

Definition constructor_run : World :=
  deliver 0 (Rejects NetworkError) (boot key_uuid as_typed constructor_config []).2.

(** *** A platform at rest with one switch, restored from the cache *)

Definition reddit_uuid : string := "next-dns-blocked-domain:reddit.com".

Definition switch_store : Store :=
  {| config := reddit_config;
     objects := [reddit_cached reddit_uuid];
     accessories := [(reddit_uuid, 0)];
     BlockedDomainAccessories := [(reddit_uuid, BlockedDomainAccessory.mk 0 false)];
     discoveredCacheUUIDs := [reddit_uuid];
     log := [];
     host := [UpdatePlatformAccessories [0]];
     listeners := [DidFinishLaunching];
     timers := [] |}.

Definition switch_world : World :=
  {| store := switch_store; requests := []; inflight := []; unhandled := [] |}.

(** * The display name of a new accessory

    [toTitleCase] of platform.ts, on strings whose characters are UTF-16 code
    units below 256, one [ascii] each.  On these the runtime's character
    classes and case mappings are the ones written out here.  The platform
    above takes the title-casing as a parameter; this is the function it is
    given. *)

Definition code_unit_in (lo hi : N) (c : ascii) : bool :=
  ((lo <=? N_of_ascii c) && (N_of_ascii c <=? hi))%N.

(** [\w]: the class [[A-Za-z0-9_]]. *)
Definition word_character (c : ascii) : bool :=
  code_unit_in 65 90 c || code_unit_in 97 122 c || code_unit_in 48 57 c
  || code_unit_in 95 95 c.

(** [\s]: tab, line feed, vertical tab, form feed, carriage return, space
    and no-break space; [\S] is every other character. *)
Definition white_space (c : ascii) : bool :=
  code_unit_in 9 13 c || code_unit_in 32 32 c || code_unit_in 160 160 c.

(** [toUpperCase] of a character of the class [\w]: the letters [a-z] move
    to [A-Z].  The program applies it to the first character of a match, which
    is of that class. *)
Definition toUpperCase_word (c : ascii) : ascii :=
  if code_unit_in 97 122 c then ascii_of_N (N_of_ascii c - 32) else c.

(** [toLowerCase] of one character: [A-Z], and the capital letters of
    Latin-1 (U+00C0 to U+00DE, the sign U+00D7 apart). *)
Definition toLowerCase_character (c : ascii) : ascii :=
  if code_unit_in 65 90 c || code_unit_in 192 214 c || code_unit_in 216 222 c
  then ascii_of_N (N_of_ascii c + 32) else c.

Fixpoint toLowerCase (str : string) : string :=
  match str with
  | EmptyString => EmptyString
  | String c rest => String (toLowerCase_character c) (toLowerCase rest)
  end.

(** [str.replace(/\w\S*/g, replacer)]: a match starts at a word character and
    runs up to the next white space, or to the end; what lies between the
    matches stays as it is.  [text] is the match being read, if there is one. *)
Fixpoint replace_words (replacer : string → string) (text : option string) (str : string)
    : string :=
  match str, text with
  | EmptyString, None => EmptyString
  | EmptyString, Some text => replacer text
  | String c rest, None =>
      if word_character c then replace_words replacer (Some (String c EmptyString)) rest
      else String c (replace_words replacer None rest)
  | String c rest, Some text =>
      if white_space c then replacer text +:+ String c (replace_words replacer None rest)
      else replace_words replacer (Some (text +:+ String c EmptyString)) rest
  end.

(** [(text) => text.charAt(0).toUpperCase() + text.substring(1).toLowerCase()] *)
Definition capitalize (text : string) : string :=
  match text with
  | EmptyString => EmptyString
  | String c rest => String (toUpperCase_word c) (toLowerCase rest)
  end.

Definition toTitleCase (str : string) : string :=
  replace_words capitalize None str.

(** The same, read one character at a time: [inside] tells whether a match
    is being read. *)
Fixpoint title_from (inside : bool) (str : string) : string :=
  match str with
  | EmptyString => EmptyString
  | String c rest =>
      if inside then
        if white_space c then String c (title_from false rest)
        else String (toLowerCase_character c) (title_from true rest)
      else
        if word_character c then String (toUpperCase_word c) (title_from true rest)
        else String c (title_from false rest)
  end.

(** No character of the string is white space. *)
Fixpoint unbroken (str : string) : bool :=
  match str with
  | EmptyString => true
  | String c rest => negb (white_space c) && unbroken rest
  end.

(** * What discovery leaves behind *)

(** What the constructor of a switch writes into the information service. *)
Definition branded : AccessoryInformation :=
  {| Manufacturer := "NextDNS"; Model := "NextDNS"; SerialNumber := "NextDNS" |}.

(** The accessory that [discoverDevices] creates for a domain the cache does
    not hold, once the switch is constructed on it: the name and the UUID
    given to [new api.platformAccessory], the three members of the context,
    the branded information service, and a new switch service (its [On]
    characteristic at the default, [false]) named after the context. *)
Definition created (generate : string → string) (domain : string) (isOn : bool)
    : PlatformAccessory.t :=
  let displayName := toTitleCase (first_label domain +:+ " block") in
  PlatformAccessory.mk displayName (getUUID generate domain)
    (Context.mk (Some domain) (Some displayName) (JSBool isOn))
    branded
    (Some {| On := false; Name := displayName |}).

(** The calls [discoverDevices] makes for the configured domains: what is
    expected of the call made for one domain. *)
Definition discovery_call (generate : string → string) (s : Store)
    (domain : string) (call : HostCall) : Prop :=
  match JsMap.get (getUUID generate domain) (accessories s) with
  | Some existingAccessory => call = UpdatePlatformAccessories [existingAccessory]
  | None => ∃ accessory : ref, (length (objects s) ≤ accessory)%nat ∧
                         call = RegisterPlatformAccessories [accessory]
  end.

(** The switches and the accessory each of them stands for. *)
Definition switch_table (s : Store) : list (string * ref) :=
  (λ entry, (entry.1, BlockedDomainAccessory.accessory entry.2))
    <$> BlockedDomainAccessories s.

(** What [discoverDevices] makes of an accessory [a] that the cache gave
    back: [a'] has the name, the UUID and the context of [a], [isOn] apart,
    which holds the flag; its information service is branded; it has a switch
    service whose [On] characteristic is the one [a] came with ([false] when
    it came without the service). *)
Definition adopted (a : PlatformAccessory.t) (isOn : bool) (a' : PlatformAccessory.t)
    : Prop :=
  PlatformAccessory.UUID a' = PlatformAccessory.UUID a ∧
  PlatformAccessory.displayName a' = PlatformAccessory.displayName a ∧
  Context.domain (PlatformAccessory.context a')
  = Context.domain (PlatformAccessory.context a) ∧
  Context.displayName (PlatformAccessory.context a')
  = Context.displayName (PlatformAccessory.context a) ∧
  Context.isOn (PlatformAccessory.context a') = JSBool isOn ∧
  PlatformAccessory.information a' = branded ∧
  On <$> PlatformAccessory.switch a'
  = Some (from_option On false (PlatformAccessory.switch a)).

(** * What the loop and the handlers meet *)

(** A body that parses and has no denylist to offer: [data] is absent or
    [null], or it has no [denylist] member. *)
Definition without_denylist (data : Nullish ProfileData) : bool :=
  match data with
  | Val data => match denylist data with Some _ => false | None => true end
  | Null | Undefined => true
  end.

(** An entry of the denylist brings nothing new: the switch of its domain, if
    there is one, holds its flag, and so does the [On] characteristic of the
    accessory the platform's map holds for it, if it has the service. *)
Definition in_sync (generate : string → string) (s : Store) (e : DenylistEntry.t) : Prop :=
  (∀ self,
     JsMap.get (getUUID generate (DenylistEntry.id e)) (BlockedDomainAccessories s)
     = Some self →
     BlockedDomainAccessory.isOn self = DenylistEntry.active e) ∧
  (∀ r service,
     JsMap.get (getUUID generate (DenylistEntry.id e)) (accessories s) = Some r →
     getService_Switch r s = Some service →
     On service = DenylistEntry.active e).

(** The host sets a switch several times in a row, no outcome of a request
    arriving in between. *)
Definition presses (this : string) (values : list bool) (w : World) : World :=
  foldl (λ w value, (exec (setOn this value) w).2) w values.

(** What [blockDomain] logs, by the outcomes of its PATCH and of the POST
    that may follow: one warning when a request is rejected. *)
Definition blockDomain_log (patched posted : FetchOutcome) : list (Level * string) :=
  match patched with
  | Rejects _ => [(Warn, "Failed to block domain:")]
  | Responds r =>
      if ok r then []
      else match posted with
           | Rejects _ => [(Warn, "Failed to block domain:")]
           | Responds _ => []
           end
  end.

(** * What never happens *)

(** A computation whose promise is rejected only if it may be ([throws]), and
    which starts, without awaiting them, only computations whose promise is
    never rejected. *)
Inductive quiet : bool → ∀ A : Type, Async A → Prop :=
| quiet_Ret throws A (a : A) : quiet throws A (Ret a)
| quiet_Throw A (e : Exn) : quiet true A (Throw e)
| quiet_Get throws A (k : Store → Async A) :
    (∀ s, quiet throws A (k s)) → quiet throws A (Get k)
| quiet_Put throws A (s : Store) (k : Async A) :
    quiet throws A k → quiet throws A (Put s k)
| quiet_Fetch throws A (req : Request) (k : FetchOutcome → Async A) :
    (∀ o, quiet throws A (k o)) → quiet throws A (Fetch req k)
| quiet_Spawn throws A (t : Async unit) (k : Async A) :
    quiet false unit t → quiet throws A k → quiet throws A (Spawn t k).
Arguments quiet throws {A} t.

(** A world without an unhandled rejection, whose suspended tasks will not
    produce one. *)
Definition calm (w : World) : Prop :=
  unhandled w = [] ∧ Forall (λ k, ∀ o, quiet false (k o)) (inflight w).

(** A computation that keeps a property [P] of the store and sends only
    requests of a kind [Q], whatever the outcomes of its requests and whatever
    happens in between. *)
Inductive keeps (P : Store → Prop) (Q : Request → Prop) : ∀ A : Type, Async A → Prop :=
| keeps_Ret A (a : A) : keeps P Q A (Ret a)
| keeps_Throw A (e : Exn) : keeps P Q A (Throw e)
| keeps_Get A (k : Store → Async A) :
    (∀ s, P s → keeps P Q A (k s)) → keeps P Q A (Get k)
| keeps_Put A (s : Store) (k : Async A) : P s → keeps P Q A k → keeps P Q A (Put s k)
| keeps_Fetch A (req : Request) (k : FetchOutcome → Async A) :
    Q req → (∀ o, keeps P Q A (k o)) → keeps P Q A (Fetch req k)
| keeps_Spawn A (t : Async unit) (k : Async A) :
    keeps P Q unit t → keeps P Q A k → keeps P Q A (Spawn t k).
Arguments keeps P Q {A} t.

(** A world whose store has the property, whose requests are of the kind, and
    whose suspended tasks keep it so. *)
Definition kept (P : Store → Prop) (Q : Request → Prop) (w : World) : Prop :=
  P (store w) ∧ Forall Q (requests w) ∧
  Forall (λ k, ∀ o, keeps P Q (k o)) (inflight w).

(** The platform's map of accessories and its configuration are given ones,
    and every pending timer is a timer of the loop. *)
Definition settled (m : JsMap.t ref) (cfg : PlatformConfig) (s : Store) : Prop :=
  accessories s = m ∧ config s = cfg ∧ Forall (λ timer, timer = poll_timer) (timers s).

(** The requests of the plugin: the read of the profile, the PATCH of an
    entry of the denylist, the POST of a new entry; each with the key of the
    configuration. *)
Definition plugin_request (cfg : PlatformConfig) (req : Request) : Prop :=
  req = profile_request (apiKey cfg) (profileId cfg) ∨
  (∃ domain active, req = patch_request cfg domain active) ∨
  (∃ domain, req = post_request cfg domain).

(** The store when the host announces that it finished launching, the
    credentials being there: the constructor has logged twice and registered
    its listener, the cached accessories are restored. *)
Definition launched (cfg : PlatformConfig) (cached : list PlatformAccessory.t) : Store :=
  foldl (λ s a, restore a s)
    (set_listeners (λ l, l ++ [DidFinishLaunching])
       (add_log Debug "Finished initializing platform:"
          (add_log Debug "config" (new_platform cfg))))
    cached.

(** * The earlier revision *)

(** What the earlier revision reads from the outcome of a read: the denylist
    of a body that parses and has one, whatever the status of the response. *)
Definition legacy_denylist (o : FetchOutcome) : option (list DenylistEntry.t) :=
  match o with
  | Rejects _ => None
  | Responds r =>
      match payload r with
      | Parsed (JsonValue (Val data)) => denylist data
      | Parsed (JsonValue Null) | Parsed (JsonValue Undefined) | Parsed JsonNull
      | Malformed => None
      end
  end.

(** How the promise of the earlier [blockDomain] settles, by the outcomes of
    its PATCH and of the POST that may follow. *)
Definition legacy_blocked (patched posted : FetchOutcome) : Status unit :=
  match patched with
  | Rejects e => Rejected e
  | Responds r =>
      if ok r then Fulfilled tt
      else match posted with
           | Rejects e => Rejected e
           | Responds _ => Fulfilled tt
           end
  end.

(** * One loop *)

(** The tasks that can be waiting for the outcome of a request, each with
    the number of timers it will still set: discovery, which starts the loop;
    a tick; [blockDomain] waiting for its PATCH, or for its POST;
    [unblockDomain]. *)
Inductive task (generate title : string → string)
    : nat → (FetchOutcome → Async unit) → Prop :=
| task_discovery w :
    task generate title 1 (continuation (exec (discoverDevices generate title) w))
| task_tick w :
    task generate title 1 (continuation (exec (syncConfig generate) w))
| task_block domain w :
    task generate title 0 (continuation (exec (blockDomain domain) w))
| task_post domain w o w' :
    task generate title 0
      (continuation (exec (continuation (exec (blockDomain domain) w) o) w'))
| task_unblock domain w :
    task generate title 0 (continuation (exec (unblockDomain domain) w)).

(** The world runs [n] loops: the pending timers and the timers that the
    tasks in flight will set are [n] in all. *)
Definition loops (generate title : string → string) (n : nat) (w : World) : Prop :=
  ∃ owed, Forall2 (task generate title) owed (inflight w) ∧
          (length (timers (store w)) + sum_list owed = n)%nat.

(** * Properties *)

(** ** Maps and lists *)

Lemma JsMap_get_set_eq {V} (k : string) (v : V) (m : JsMap.t V) :
  JsMap.get k (JsMap.set k v m) = Some v.
Proof.
  induction m as [|[k' v'] m IH]; cbn.
  - by rewrite decide_True.
  - destruct (decide (k = k')) as [->|Hne]; cbn.
    + by rewrite decide_True.
    + by rewrite decide_False.
Qed.

Lemma JsMap_get_set_ne {V} (k k' : string) (v : V) (m : JsMap.t V) :
  k ≠ k' → JsMap.get k' (JsMap.set k v m) = JsMap.get k' m.
Proof.
  intros Hne. induction m as [|[k1 v1] m IH]; cbn.
  - by rewrite decide_False.
  - destruct (decide (k = k1)) as [->|Hne1]; cbn.
    + by rewrite !(decide_False (P := k' = k1)).
    + by rewrite IH.
Qed.

Lemma delete_app_last {A} (l : list A) (x : A) : delete (length l) (l ++ [x]) = l.
Proof. induction l as [|y l IH]; [reflexivity | simpl; f_equal; exact IH]. Qed.

Lemma lookup_app_last {A} (l : list A) (x : A) : (l ++ [x]) !! length l = Some x.
Proof. by apply list_lookup_middle. Qed.

Lemma lookup_length {A} (l : list A) : l !! length l = None.
Proof. by apply lookup_ge_None_2. Qed.

Lemma alter_UUID (f : PlatformAccessory.t → PlatformAccessory.t) r r'
    (l : list PlatformAccessory.t) :
  (∀ a, PlatformAccessory.UUID (f a) = PlatformAccessory.UUID a) →
  PlatformAccessory.UUID <$> alter f r' l !! r = PlatformAccessory.UUID <$> l !! r.
Proof.
  intros Hf. destruct (decide (r' = r)) as [->|Hne].
  - rewrite list_lookup_alter_eq. destruct (l !! r); cbn; [by rewrite Hf | reflexivity].
  - by rewrite list_lookup_alter_ne.
Qed.

(** ** The remote profile fetcher *)

Section Fetcher.

Variables (apiKey profileId : option string).

Lemma getNextDNSProfileData_suspends w :
  ∃ k, exec (getNextDNSProfileData apiKey profileId) w
       = (Pending k, send (profile_request apiKey profileId) w).
Proof. eexists. reflexivity. Qed.

(** C4.  Whatever the outcome of the request, the fetcher's promise is
    fulfilled, never rejected; on a network error, a non-success status or a
    body that is not JSON it is fulfilled with [null], and the only effect is
    one warning in the log. *)
Theorem getNextDNSProfileData_no_throw w o :
  let r := resume (exec (getNextDNSProfileData apiKey profileId) w) o in
  (∃ data, r.1 = Fulfilled data) ∧
  (fetch_failed o = true →
   ∃ msg, r = (Fulfilled Null,
               set_store (add_log Warn msg (store w))
                 (send (profile_request apiKey profileId) w))).
Proof.
  cbn. destruct o as [e|[[] st [|[|d]]]]; cbn; split; eauto; discriminate.
Qed.

(** The fetcher in one equation: what it hands over and what it logs. *)
Lemma getNextDNSProfileData_result w o :
  resume (exec (getNextDNSProfileData apiKey profileId) w) o
  = (Fulfilled (outcome_data o),
     set_store (outcome_log o (store w)) (send (profile_request apiKey profileId) w)).
Proof. destruct o as [e|[[] st [|[|data]]]]; reflexivity. Qed.

(** A body that parses to [null] also ends in the handler. *)
Lemma getNextDNSProfileData_null_body w st :
  (resume (exec (getNextDNSProfileData apiKey profileId) w)
     (Responds {| ok := true; statusText := st; payload := Parsed JsonNull |})).1
  = Fulfilled Null.
Proof. reflexivity. Qed.

(** A success whose body parses hands over its [data] member as it is, be it
    absent, and logs nothing. *)
Lemma getNextDNSProfileData_data w st data :
  resume (exec (getNextDNSProfileData apiKey profileId) w)
    (Responds {| ok := true; statusText := st; payload := Parsed (JsonValue data) |})
  = (Fulfilled data, send (profile_request apiKey profileId) w).
Proof. reflexivity. Qed.

End Fetcher.

Lemma getNextDNSProfileData_no_throw_witness :
  fetch_failed (Rejects NetworkError) = true ∧
  (resume (exec (getNextDNSProfileData (Some "key") (Some "abc123"))
             (idle_world reddit_config))
     (Rejects NetworkError)).1 = Fulfilled Null.
Proof.
  split; [reflexivity|].
  destruct (getNextDNSProfileData_no_throw (Some "key") (Some "abc123")
              (idle_world reddit_config) (Rejects NetworkError)) as [_ H].
  destruct (H eq_refl) as [msg Hmsg]. rewrite Hmsg. reflexivity.
Defined.

(** ** The mutators *)

Section Mutators.

Variable domain : string.



(** In the earlier revision a failed request rejects the promise of the
    mutator, which nobody handles. *)
Lemma Legacy_unblockDomain_rejects w e :
  (run (Legacy.unblockDomain domain) w [Rejects e]).1 = Rejected e.
Proof. reflexivity. Qed.

Lemma Legacy_blockDomain_rejects w e :
  (run (Legacy.blockDomain domain) w [Rejects e]).1 = Rejected e.
Proof. reflexivity. Qed.

End Mutators.

(** ** The switch handlers *)

Section Switch.

Variables (this : string) (value : bool).

(** C2.  [setOn] stores the value in [isOn] at once and its promise is
    fulfilled on the spot: the mutator ([blockDomain] for [true],
    [unblockDomain] for [false]) is started and left behind with its PATCH in
    flight.  A [getOn] at that point answers the value, without touching
    anything, and so does a [getOn] after any outcome of the PATCH and of the
    request that may follow it; no outcome produces a rejection. *)
Theorem setOn_optimistic w self a :
  JsMap.get this (BlockedDomainAccessories (store w)) = Some self →
  objects (store w) !! BlockedDomainAccessory.accessory self = Some a →
  let domain := show (Context.domain (PlatformAccessory.context a)) in
  let cached := set_store (assign_isOn this value (add_log Debug "setOn" (store w))) w in
  let w' := detach (exec (if value then blockDomain domain else unblockDomain domain) cached) in
  exec (setOn this value) w = (Fulfilled tt, w') ∧
  exec (getOn this) w' = (Fulfilled value, w') ∧
  requests w' = requests w ++ [patch_request (config (store w)) domain value] ∧
  length (inflight w') = S (length (inflight w)) ∧
  ∀ o1 o2,
    let w1 := deliver (length (inflight w)) o1 w' in
    let w2 := deliver (length (inflight w)) o2 w1 in
    (exec (getOn this) w1).1 = Fulfilled value ∧
    (exec (getOn this) w2).1 = Fulfilled value ∧
    unhandled w2 = unhandled w.
Proof.
  intros Hself Ha. cbn zeta.
  unfold setOn, getOn, this_switch, this_domain, assign_isOn.
  do 4 (cbn; rewrite ?Hself, ?JsMap_get_set_eq, ?Ha).
  destruct value; cbn; rewrite ?JsMap_get_set_eq; cbn;
    (split; [reflexivity|]); (split; [reflexivity|]); (split; [reflexivity|]);
    (split; [by rewrite length_app, Nat.add_1_r|]).
  all: intros o1 o2; unfold deliver; cbn;
    rewrite lookup_app_last, delete_app_last.
  - destruct o1 as [e|[[] st b]]; cbn;
      rewrite ?lookup_length, ?lookup_app_last, ?delete_app_last; cbn;
      rewrite ?JsMap_get_set_eq; auto.
    destruct o2 as [e|[? ? ?]]; cbn; rewrite ?JsMap_get_set_eq; auto.
  - destruct o1 as [e|r]; cbn; rewrite ?lookup_length; cbn;
      rewrite ?JsMap_get_set_eq; auto.
Qed.

End Switch.

Lemma setOn_optimistic_witness :
  JsMap.get reddit_uuid (BlockedDomainAccessories (store switch_world))
  = Some (BlockedDomainAccessory.mk 0 false) ∧
  objects (store switch_world) !! 0 = Some (reddit_cached reddit_uuid) ∧
  (exec (setOn reddit_uuid true) switch_world).1 = Fulfilled tt ∧
  (exec (getOn reddit_uuid) (exec (setOn reddit_uuid true) switch_world).2).1
  = Fulfilled true.
Proof.
  split; [reflexivity|]. split; [reflexivity|].
  destruct (setOn_optimistic reddit_uuid true switch_world
              (BlockedDomainAccessory.mk 0 false) (reddit_cached reddit_uuid)
              eq_refl eq_refl) as (Hset & Hget & _).
  rewrite Hset. split; [reflexivity|]. cbn [snd]. rewrite Hget. reflexivity.
Defined.

(** ** The reconciliation loop *)

Lemma try_catch_forEach {A} (l : list A) (f : A → Async unit) h :
  try_catch (forEach l f) h = forEach l f.
Proof. induction l as [|x l IH]; cbn; [reflexivity | by rewrite IH]. Qed.

Lemma exec_forEach_modify {A B} (l : list A) (f : A → Store → Store) (g : unit → Async B) w :
  exec (bind (forEach l (λ x, modify (f x))) g) w
  = exec (g tt) (set_store (foldl (λ s x, f x s) (store w) l) w).
Proof.
  revert w. induction l as [|x l IH]; intros w.
  - destruct w; reflexivity.
  - cbn. rewrite IH. reflexivity.
Qed.

Section Loop.

Variable generate : string → string.

(** A tick logs, sends its read and waits. *)
Lemma syncConfig_suspends w :
  exec (syncConfig generate) w
  = (Pending (continuation (exec (syncConfig generate) w)),
     send (profile_request (apiKey (config (store w))) (profileId (config (store w))))
       (set_store (add_log Debug "syncConfig called" (store w)) w)).
Proof. reflexivity. Qed.

(** What a tick does once a denylist has arrived: the callback runs on every
    entry in turn, then the timer is set. *)
Lemma syncConfig_fetched w st l w2 :
  exec (continuation (exec (syncConfig generate) w) (fetched st l)) w2
  = (Fulfilled tt,
     set_store
       (set_timers (λ t, t ++ [poll_timer])
          (foldl (λ s e, syncEntry generate e s) (store w2) l)) w2).
Proof.
  cbn -[forEach]. rewrite try_catch_forEach, exec_forEach_modify. reflexivity.
Qed.

(** C5.  When the read fails (network error, non-success status, body that is
    not JSON), resuming the tick changes no switch and no accessory object,
    rejects nothing, sends nothing, and sets the timer of the next tick. *)
Theorem syncConfig_fetch_failure w o w2 :
  fetch_failed o = true →
  let r := exec (continuation (exec (syncConfig generate) w) o) w2 in
  r.1 = Fulfilled tt ∧
  unhandled r.2 = unhandled w2 ∧
  BlockedDomainAccessories (store r.2) = BlockedDomainAccessories (store w2) ∧
  objects (store r.2) = objects (store w2) ∧
  requests r.2 = requests w2 ∧
  timers (store r.2) = timers (store w2) ++ [poll_timer].
Proof.
  intros Hfail.
  destruct o as [e|[[] st [|j]]]; try discriminate; cbn; auto 10.
Qed.

Lemma syncEntry_untouched e s : untouched s (syncEntry generate e s).
Proof. unfold syncEntry, untouched. repeat case_match; cbn; auto 10. Qed.

Lemma foldl_syncEntry_untouched l s :
  untouched s (foldl (λ s e, syncEntry generate e s) s l).
Proof.
  revert s. induction l as [|e l IH]; intros s; cbn.
  - unfold untouched; auto 10.
  - destruct (IH (syncEntry generate e s)) as (?&?&?&?&?&?).
    destruct (syncEntry_untouched e s) as (?&?&?&?&?&?).
    unfold untouched. repeat split; congruence.
Qed.

(** Resuming a tick, whatever the outcome of its read. *)
Lemma syncConfig_resumed w o w2 :
  let r := exec (continuation (exec (syncConfig generate) w) o) w2 in
  r.1 = Fulfilled tt ∧
  timers (store r.2) = timers (store w2) ++ [poll_timer] ∧
  config (store r.2) = config (store w2) ∧
  inflight r.2 = inflight w2 ∧
  unhandled r.2 = unhandled w2 ∧
  requests r.2 = requests w2.
Proof.
  destruct o as [e|[[] st [|[|[| |[[l|]]]]]]]; try (cbn; by auto 10).
  change (Responds _) with (fetched st l).
  cbv zeta. rewrite syncConfig_fetched. cbn.
  destruct (foldl_syncEntry_untouched l (store w2)) as (Hc&_&_&_&_&Ht).
  rewrite Ht, Hc. auto 10.
Qed.

Lemma bootstrapAsyncUpdates_polling w :
  inflight w = [] → timers (store w) = [] →
  let w' := detach (exec (bootstrapAsyncUpdates generate) w) in
  polling generate w' ∧ config (store w') = config (store w) ∧
  unhandled w' = unhandled w ∧
  requests w'
  = requests w ++ [profile_request (apiKey (config (store w))) (profileId (config (store w)))].
Proof.
  intros Hi Ht. cbn. rewrite Hi. split; [|by auto].
  split; [exact Ht|]. exists w. reflexivity.
Qed.

Lemma poll_round_polling w o :
  polling generate w →
  let w' := fire generate 0 (deliver 0 o w) in
  polling generate w' ∧ config (store w') = config (store w) ∧
  unhandled w' = unhandled w ∧
  requests w'
  = requests w ++ [profile_request (apiKey (config (store w))) (profileId (config (store w)))].
Proof.
  intros (Ht & w0 & Hk). unfold deliver. rewrite Hk. cbn [lookup list_lookup].
  set (w2 := {| store := store w; requests := requests w;
                inflight := delete 0 [_]; unhandled := unhandled w |}).
  destruct (syncConfig_resumed w0 o w2) as (Hr & Htm & Hc & Hi & Hu & Hq).
  destruct (exec (continuation (exec (syncConfig generate) w0) o) w2) as [r w3].
  cbn in Hr, Htm, Hc, Hi, Hu, Hq. subst r. cbn zeta.
  cbn [detach]. unfold fire. rewrite Htm, Ht. cbn [app lookup list_lookup callback poll_timer].
  cbn. rewrite Hi, Hc, Hu, Hq. cbn. split; [|by auto].
  split; [cbn; by rewrite Htm, Ht|]. exists w. reflexivity.
Qed.

Lemma poll_loop_polling outcomes w :
  polling generate w →
  let w' := poll_loop generate outcomes w in
  polling generate w' ∧ config (store w') = config (store w) ∧
  unhandled w' = unhandled w ∧
  requests w'
  = requests w
      ++ replicate (length outcomes)
           (profile_request (apiKey (config (store w))) (profileId (config (store w)))).
Proof.
  revert w. induction outcomes as [|o outcomes IH]; intros w Hw; cbn.
  - rewrite app_nil_r. auto.
  - destruct (poll_round_polling w o Hw) as (Hp & Hc & Hu & Hq).
    destruct (IH _ Hp) as (Hp' & Hc' & Hu' & Hq'). cbn zeta in *.
    unfold poll_loop in *. rewrite Hc in Hq'.
    split; [exact Hp'|]. split; [congruence|]. split; [congruence|].
    rewrite Hq', Hq, <- app_assoc. reflexivity.
Qed.

(** C7.  Resuming a tick with any outcome of its read fulfils its promise and
    adds one timer for [syncConfig] with a delay of 60000 ms, leaving the
    requests in flight as they were.  And the loop goes on for ever: started
    by [bootstrapAsyncUpdates], after any number of rounds, whatever their
    outcomes, it is waiting for one more read, it has sent one read per round
    and one more, and nothing was rejected. *)
Theorem syncConfig_reschedules :
  (∀ w o w2,
     let r := exec (continuation (exec (syncConfig generate) w) o) w2 in
     r.1 = Fulfilled tt ∧
     timers (store r.2) = timers (store w2) ++ [poll_timer] ∧
     inflight r.2 = inflight w2 ∧
     unhandled r.2 = unhandled w2) ∧
  (∀ w outcomes,
     inflight w = [] → timers (store w) = [] →
     let w' := poll_loop generate outcomes (detach (exec (bootstrapAsyncUpdates generate) w)) in
     length (inflight w') = 1 ∧
     timers (store w') = [] ∧
     unhandled w' = unhandled w ∧
     requests w'
     = requests w
         ++ replicate (S (length outcomes))
              (profile_request (apiKey (config (store w))) (profileId (config (store w))))).
Proof.
  split.
  - intros w o w2.
    destruct (syncConfig_resumed w o w2) as (?&?&?&?&?&?). auto.
  - intros w outcomes Hi Ht.
    destruct (bootstrapAsyncUpdates_polling w Hi Ht) as (Hp & Hc & Hu & Hq).
    destruct (poll_loop_polling outcomes _ Hp) as ((Ht' & ? & Hk) & Hc' & Hu' & Hq').
    cbv zeta in *. rewrite Hc in Hq'.
    rewrite Hk, Ht', Hu', Hu, Hq', Hq, <- app_assoc. auto.
Qed.

(** In the earlier revision a read that fails rejects the promise of the
    tick before the timer is set: the loop stops. *)
Lemma Legacy_syncConfig_stops w e :
  let r := run (Legacy.syncConfig generate) w [Rejects e] in
  r.1 = Rejected e ∧ timers (store r.2) = timers (store w).
Proof. split; reflexivity. Qed.

End Loop.

Lemma syncConfig_fetch_failure_witness :
  fetch_failed (Rejects NetworkError) = true ∧
  timers (store (exec (continuation (exec (syncConfig key_uuid) switch_world)
                         (Rejects NetworkError)) switch_world).2)
  = [poll_timer].
Proof.
  split; [reflexivity|].
  destruct (syncConfig_fetch_failure key_uuid switch_world (Rejects NetworkError)
              switch_world eq_refl) as (_ & _ & _ & _ & _ & Ht).
  exact Ht.
Defined.

Lemma syncConfig_reschedules_witness :
  inflight switch_world = [] ∧ timers (store switch_world) = [] ∧
  length (inflight (poll_loop key_uuid [Rejects NetworkError; reddit true]
                      (detach (exec (bootstrapAsyncUpdates key_uuid) switch_world))))
  = 1.
Proof.
  split; [reflexivity|]. split; [reflexivity|].
  destruct (syncConfig_reschedules key_uuid) as [_ Hloop].
  destruct (Hloop switch_world [Rejects NetworkError; reddit true] eq_refl eq_refl)
    as (Hlen & _).
  exact Hlen.
Defined.

(** ** Start-up *)

Section Boot.

Variables (generate toTitleCase : string → string).

Lemma restore_undiscovered a s : undiscovered s → undiscovered (restore a s).
Proof.
  unfold undiscovered, restore, configureAccessory. intros H.
  case_match; cbn; exact H.
Qed.

Lemma restore_log a s : ∃ l, log (restore a s) = log s ++ l.
Proof.
  unfold restore, configureAccessory. case_match; cbn; eauto.
Qed.

Lemma foldl_restore cached s :
  undiscovered s →
  undiscovered (foldl (λ s a, restore a s) s cached) ∧
  ∃ l, log (foldl (λ s a, restore a s) s cached) = log s ++ l.
Proof.
  revert s. induction cached as [|a cached IH]; intros s Hs; cbn.
  - split; [exact Hs|]. exists []. by rewrite app_nil_r.
  - destruct (IH (restore a s) (restore_undiscovered a s Hs)) as (Hu & l & Hl).
    split; [exact Hu|]. destruct (restore_log a s) as (l0 & Hl0).
    exists (l0 ++ l). by rewrite Hl, Hl0, app_assoc.
Qed.

(** C8.  With [apiKey] or [profileId] missing the constructor returns
    normally after logging a warning, and registers no listener: once the
    host has restored its cached accessories and finished launching, nothing
    has been requested, registered, scheduled or rejected, and there is no
    switch. *)
Theorem constructor_missing_credentials cfg cached :
  apiKey cfg = None ∨ profileId cfg = None →
  let r := boot generate toTitleCase cfg cached in
  r.1 = Fulfilled tt ∧
  (∃ rest,
     log (store r.2)
     = [(Debug, "config");
        (Warn, show (name cfg)
               +:+ " is not configured correctly. apiKey and profileId are required.")]
       ++ rest) ∧
  requests r.2 = [] ∧ inflight r.2 = [] ∧ unhandled r.2 = [] ∧
  undiscovered (store r.2).
Proof.
  intros Hmissing. unfold boot, NextDNSPlatform_constructor. cbn.
  assert (Hf : falsy (apiKey cfg) || falsy (profileId cfg) = true).
  { destruct Hmissing as [-> | ->]; cbn; [reflexivity | apply orb_true_r]. }
  rewrite Hf. cbn.
  match goal with |- context [foldl _ ?s0 cached] =>
    destruct (foldl_restore cached s0) as ((Hh & Hl & Ht & Hb & Hd) & l & Hlog)
  end.
  { unfold undiscovered; cbn; auto. }
  unfold didFinishLaunching. cbn. rewrite Hl. cbn.
  split; [reflexivity|]. split; [exists l; exact Hlog|].
  unfold undiscovered. auto 10.
Qed.

(** The earlier revision reports the same configuration with [log.error]. *)
Lemma Legacy_constructor_logs_error cfg :
  apiKey cfg = None ∨ profileId cfg = None →
  log (store (exec Legacy.NextDNSPlatform_constructor (idle_world cfg)).2)
  = [(Debug, "config");
     (Error, show (name cfg)
             +:+ " is not configured correctly. apiKey and profileId are required.")].
Proof.
  intros Hmissing. unfold Legacy.NextDNSPlatform_constructor. cbn.
  assert (Hf : falsy (apiKey cfg) || falsy (profileId cfg) = true).
  { destruct Hmissing as [-> | ->]; cbn; [reflexivity | apply orb_true_r]. }
  rewrite Hf. reflexivity.
Qed.

End Boot.

Lemma constructor_missing_credentials_witness :
  let cfg := {| name := Some "NextDNS"; apiKey := None; profileId := Some "abc123";
                blockedDomains := Some ["reddit.com"] |} in
  (apiKey cfg = None ∨ profileId cfg = None) ∧
  requests (boot key_uuid as_typed cfg [reddit_cached reddit_uuid]).2 = [].
Proof.
  cbv zeta. split; [left; reflexivity|].
  match goal with
  | |- requests (boot ?g ?t ?cfg ?cached).2 = [] =>
      destruct (constructor_missing_credentials g t cfg cached (or_introl eq_refl))
        as (_ & _ & Hreq & _)
  end.
  exact Hreq.
Defined.

(** ** What a tick does to the switches and to the accessory objects *)

Section Sync.

Variable generate : string → string.

Lemma syncEntry_switches e s :
  BlockedDomainAccessories (syncEntry generate e s)
  = match JsMap.get (getUUID generate (DenylistEntry.id e)) (BlockedDomainAccessories s) with
    | Some self =>
        JsMap.set (getUUID generate (DenylistEntry.id e))
          (BlockedDomainAccessory.mk (BlockedDomainAccessory.accessory self)
             (DenylistEntry.active e))
          (BlockedDomainAccessories s)
    | None => BlockedDomainAccessories s
    end.
Proof.
  unfold syncEntry.
  destruct (JsMap.get _ (accessories s)) as [r|]; [destruct (getService_Switch r s) as [sw|];
    [destruct (negb _)|]|]; cbn;
  destruct (JsMap.get _ (BlockedDomainAccessories s)); cbn;
  try destruct (JsMap.get "adf" (accessories s)); reflexivity.
Qed.

(** An entry sets the switch registered for its domain... *)
Lemma syncEntry_isOn e s self :
  JsMap.get (getUUID generate (DenylistEntry.id e)) (BlockedDomainAccessories s) = Some self →
  JsMap.get (getUUID generate (DenylistEntry.id e))
    (BlockedDomainAccessories (syncEntry generate e s))
  = Some (BlockedDomainAccessory.mk (BlockedDomainAccessory.accessory self)
            (DenylistEntry.active e)).
Proof. intros H. rewrite syncEntry_switches, H. apply JsMap_get_set_eq. Qed.

(** ... and no other switch. *)
Lemma syncEntry_other_switch e s u :
  u ≠ getUUID generate (DenylistEntry.id e) →
  JsMap.get u (BlockedDomainAccessories (syncEntry generate e s))
  = JsMap.get u (BlockedDomainAccessories s).
Proof.
  intros Hne. rewrite syncEntry_switches.
  destruct (JsMap.get (getUUID _ _) _); [|reflexivity].
  by apply JsMap_get_set_ne.
Qed.

(** The only objects an entry can touch are the one the platform's
    [accessories] map holds for its UUID, and the one it holds for ["adf"]. *)
Lemma syncEntry_objects_frame e s r :
  JsMap.get (getUUID generate (DenylistEntry.id e)) (accessories s) ≠ Some r →
  JsMap.get "adf" (accessories s) ≠ Some r →
  objects (syncEntry generate e s) !! r = objects s !! r.
Proof.
  intros Hr Hadf. unfold syncEntry, updateCharacteristic_On, update_object.
  destruct (JsMap.get _ (accessories s)) as [r'|] eqn:Hacc;
    [destruct (getService_Switch r' s) as [sw|]; [destruct (negb _)|]|]; cbn;
  destruct (JsMap.get _ (BlockedDomainAccessories _)); cbn; rewrite ?Hacc;
  try destruct (JsMap.get "adf" (accessories s)) as [adf|]; cbn;
  rewrite ?list_lookup_alter_ne by congruence; reflexivity.
Qed.

(** An accessory that is not in the platform's [accessories] map is out of
    reach of the tick: no object changes. *)
Lemma syncEntry_objects_unknown e s :
  JsMap.get (getUUID generate (DenylistEntry.id e)) (accessories s) = None →
  JsMap.get "adf" (accessories s) = None →
  objects (syncEntry generate e s) = objects s.
Proof.
  intros Hacc Hadf. unfold syncEntry. rewrite Hacc.
  destruct (JsMap.get _ (BlockedDomainAccessories s)); cbn; rewrite ?Hadf; reflexivity.
Qed.

(** An accessory restored from the host's cache gets its [On] characteristic
    set to the entry's flag. *)
Lemma syncEntry_characteristic e s r :
  JsMap.get (getUUID generate (DenylistEntry.id e)) (accessories s) = Some r →
  JsMap.get "adf" (accessories s) = None →
  getService_Switch r (syncEntry generate e s)
  = (λ sw, {| On := DenylistEntry.active e; Name := Name sw |}) <$> getService_Switch r s.
Proof.
  intros Hacc Hadf.
  unfold syncEntry, updateCharacteristic_On, update_object, getService_Switch.
  rewrite Hacc.
  destruct (objects s !! r) as [a|] eqn:Ha; cbn;
    [destruct (PlatformAccessory.switch a) as [[on nm]|] eqn:Hsw; cbn;
       [destruct (Bool.eqb on (DenylistEntry.active e)) eqn:Heq; cbn|]|];
    destruct (JsMap.get _ (BlockedDomainAccessories _)); cbn; rewrite ?Hadf; cbn;
    rewrite ?list_lookup_alter_eq, ?Ha; cbn; rewrite ?Hsw; cbn; try reflexivity.
  all: apply Bool.eqb_prop in Heq; by subst.
Qed.

End Sync.

(** ** Well-formed stores *)

Section Invariant.

Variable generate : string → string.
Context `{!Inj (=) (=) generate}.

Lemma getUUID_inj d d' : getUUID generate d = getUUID generate d' → d = d'.
Proof. unfold getUUID. intros H%(inj generate). cbn in H. by simplify_eq. Qed.

Lemma syncEntry_UUID e s r :
  PlatformAccessory.UUID <$> objects (syncEntry generate e s) !! r
  = PlatformAccessory.UUID <$> objects s !! r.
Proof.
  unfold syncEntry, updateCharacteristic_On, update_object.
  destruct (JsMap.get _ (accessories s)) as [r'|];
    [destruct (getService_Switch r' s) as [sw|]; [destruct (negb _)|]|]; cbn;
  destruct (JsMap.get _ (BlockedDomainAccessories _)); cbn;
  try destruct (JsMap.get "adf" (accessories s)) as [adf|]; cbn;
  rewrite ?alter_UUID by done; reflexivity.
Qed.

Lemma syncEntry_keyed e s : keyed s → keyed (syncEntry generate e s).
Proof.
  intros [Ha Hb]. destruct (syncEntry_untouched generate e s) as (_ & Hacc & _).
  split.
  - intros u r. rewrite Hacc, syncEntry_UUID. apply Ha.
  - intros u self. rewrite syncEntry_UUID.
    destruct (decide (u = getUUID generate (DenylistEntry.id e))) as [->|Hne].
    + destruct (JsMap.get (getUUID generate (DenylistEntry.id e))
                  (BlockedDomainAccessories s)) as [self0|] eqn:Hself.
      * rewrite (syncEntry_isOn generate e s self0 Hself). intros [= <-]. cbn.
        by apply Hb.
      * rewrite syncEntry_switches, Hself. congruence.
    + rewrite syncEntry_other_switch by done. apply Hb.
Qed.

(** A tick leaves alone the switch and the accessory object of every domain
    that the denylist does not mention. *)
Lemma foldl_syncEntry_absent l s d :
  keyed s →
  JsMap.get "adf" (accessories s) = None →
  d ∉ DenylistEntry.id <$> l →
  let s' := foldl (λ s e, syncEntry generate e s) s l in
  JsMap.get (getUUID generate d) (BlockedDomainAccessories s')
  = JsMap.get (getUUID generate d) (BlockedDomainAccessories s) ∧
  ∀ self,
    JsMap.get (getUUID generate d) (BlockedDomainAccessories s) = Some self →
    objects s' !! BlockedDomainAccessory.accessory self
    = objects s !! BlockedDomainAccessory.accessory self.
Proof.
  revert s. induction l as [|e l IH]; intros s Hk Hadf Hd; cbn; [by auto|].
  rewrite fmap_cons, not_elem_of_cons in Hd. destruct Hd as [Hne Hd].
  assert (Hu : getUUID generate d ≠ getUUID generate (DenylistEntry.id e)).
  { by intros ?%getUUID_inj. }
  destruct (syncEntry_untouched generate e s) as (_ & Hacc & _).
  destruct (IH (syncEntry generate e s)) as [IH1 IH2];
    [by apply syncEntry_keyed | by rewrite Hacc | done |].
  cbn zeta in *. rewrite IH1, syncEntry_other_switch by done.
  split; [reflexivity|]. intros self Hself.
  rewrite IH2 by (by rewrite syncEntry_other_switch).
  apply syncEntry_objects_frame; [|congruence].
  intros Hr. destruct Hk as [Ha Hb].
  specialize (Ha _ _ Hr). specialize (Hb _ _ Hself). congruence.
Qed.

(** After a tick, the switch of a domain holds the flag the denylist gives
    for it. *)
Lemma foldl_syncEntry_present l s u self a :
  JsMap.get u (BlockedDomainAccessories s) = Some self →
  (∀ e, e ∈ l → getUUID generate (DenylistEntry.id e) = u → DenylistEntry.active e = a) →
  (BlockedDomainAccessory.isOn self = a
   ∨ ∃ e, e ∈ l ∧ getUUID generate (DenylistEntry.id e) = u) →
  JsMap.get u (BlockedDomainAccessories (foldl (λ s e, syncEntry generate e s) s l))
  = Some (BlockedDomainAccessory.mk (BlockedDomainAccessory.accessory self) a).
Proof.
  revert s self. induction l as [|e l IH]; intros s self Hself Hall Hex; cbn.
  - destruct Hex as [<- | (e & He & _)]; [by destruct self | by apply elem_of_nil in He].
  - destruct (decide (getUUID generate (DenylistEntry.id e) = u)) as [Heq|Hne].
    + subst u. rewrite (IH _ _ (syncEntry_isOn generate e s self Hself)); cbn.
      * reflexivity.
      * intros e' He'. apply Hall. by right.
      * left. apply Hall; [by left | reflexivity].
    + apply IH.
      * by rewrite syncEntry_other_switch.
      * intros e' He'. apply Hall. by right.
      * destruct Hex as [?|(e' & He' & Hu)]; [by left|]. right. exists e'.
        apply elem_of_cons in He' as [->|He']; [done | by auto].
Qed.

(** After a tick, the [On] characteristic of an accessory restored from the
    cache holds the flag the denylist gives for its domain. *)
Lemma foldl_syncEntry_characteristic l s u r a :
  keyed s →
  JsMap.get "adf" (accessories s) = None →
  JsMap.get u (accessories s) = Some r →
  (∀ e, e ∈ l → getUUID generate (DenylistEntry.id e) = u → DenylistEntry.active e = a) →
  (On <$> getService_Switch r s = Some a ∨ getService_Switch r s = None
   ∨ ∃ e, e ∈ l ∧ getUUID generate (DenylistEntry.id e) = u) →
  On <$> getService_Switch r (foldl (λ s e, syncEntry generate e s) s l)
  = (λ _, a) <$> getService_Switch r s.
Proof.
  revert s. induction l as [|e l IH]; intros s Hk Hadf Hr Hall Hex; cbn.
  - destruct Hex as [H | [-> | (e & He & _)]]; [|reflexivity|by apply elem_of_nil in He].
    rewrite H. by destruct (getService_Switch r s).
  - destruct (syncEntry_untouched generate e s) as (_ & Hacc & _).
    rewrite IH; [|by apply syncEntry_keyed|by rewrite Hacc|by rewrite Hacc| |].
    + destruct (decide (getUUID generate (DenylistEntry.id e) = u)) as [<-|Hne].
      * rewrite (syncEntry_characteristic generate e s r Hr Hadf).
        by destruct (getService_Switch r s).
      * unfold getService_Switch. rewrite syncEntry_objects_frame; [done| |congruence].
        intros Hr'. destruct Hk as [Ha _].
        pose proof (Ha _ _ Hr) as Ha1. pose proof (Ha _ _ Hr') as Ha2. congruence.
    + intros e' He'. apply Hall. by right.
    + destruct (decide (getUUID generate (DenylistEntry.id e) = u)) as [<-|Hne].
      * rewrite (syncEntry_characteristic generate e s r Hr Hadf).
        destruct (getService_Switch r s); cbn; [left|by auto].
        f_equal. apply Hall; [by left | reflexivity].
      * assert (Hsame : getService_Switch r (syncEntry generate e s) = getService_Switch r s).
        { unfold getService_Switch. rewrite syncEntry_objects_frame; [done| |congruence].
          intros Hr'. destruct Hk as [Ha _].
          pose proof (Ha _ _ Hr) as Ha1. pose proof (Ha _ _ Hr') as Ha2. congruence. }
        rewrite Hsame. destruct Hex as [?|[?|(e' & He' & Hu)]]; [by auto|by auto|].
        right; right. exists e'.
        apply elem_of_cons in He' as [->|He']; [done | by auto].
Qed.

(** *** A whole tick *)

(** After a tick that fetched the denylist, [getOn] for a domain answers the
    flag the denylist gives for it. *)
Lemma syncConfig_sets_isOn w st l w2 d a self :
  JsMap.get (getUUID generate d) (BlockedDomainAccessories (store w2)) = Some self →
  DenylistEntry.mk d a ∈ l →
  (∀ e, e ∈ l → DenylistEntry.id e = d → DenylistEntry.active e = a) →
  (exec (getOn (getUUID generate d))
     (exec (continuation (exec (syncConfig generate) w) (fetched st l)) w2).2).1
  = Fulfilled a.
Proof.
  intros Hself Hin Hall. rewrite syncConfig_fetched.
  unfold getOn, this_switch. cbn.
  rewrite (foldl_syncEntry_present l (store w2) (getUUID generate d) self a); [reflexivity|done| |].
  - intros e He Hu. apply Hall; [done|]. by apply getUUID_inj.
  - right. by exists (DenylistEntry.mk d a).
Qed.

(** After such a tick, the [On] characteristic of an accessory that the
    platform's [accessories] map knows holds that flag as well. *)
Lemma syncConfig_updates_restored w st l w2 d a r :
  keyed (store w2) →
  JsMap.get "adf" (accessories (store w2)) = None →
  JsMap.get (getUUID generate d) (accessories (store w2)) = Some r →
  DenylistEntry.mk d a ∈ l →
  (∀ e, e ∈ l → DenylistEntry.id e = d → DenylistEntry.active e = a) →
  On <$> getService_Switch r
           (store (exec (continuation (exec (syncConfig generate) w) (fetched st l)) w2).2)
  = (λ _, a) <$> getService_Switch r (store w2).
Proof.
  intros Hk Hadf Hr Hin Hall. rewrite syncConfig_fetched. cbn.
  change (getService_Switch r (set_timers _ ?s)) with (getService_Switch r s).
  apply (foldl_syncEntry_characteristic l (store w2) (getUUID generate d) r a); [done..| |].
  - intros e He Hu. apply Hall; [done|]. by apply getUUID_inj.
  - right; right. by exists (DenylistEntry.mk d a).
Qed.

(** An accessory created in this run is not in the platform's [accessories]
    map; as long as the map is empty no tick changes any accessory object. *)
Lemma syncConfig_first_run_objects w st l w2 :
  accessories (store w2) = [] →
  objects (store (exec (continuation (exec (syncConfig generate) w) (fetched st l)) w2).2)
  = objects (store w2).
Proof.
  intros Hacc. rewrite syncConfig_fetched. cbn.
  generalize dependent (store w2). clear w2. intros s. revert s.
  induction l as [|e l IH]; intros s Hacc; cbn; [reflexivity|].
  destruct (syncEntry_untouched generate e s) as (_ & Hacc' & _).
  rewrite IH by (by rewrite Hacc').
  apply syncEntry_objects_unknown; by rewrite Hacc.
Qed.

(** C9.  A tick that fetched a denylist without an entry for a domain leaves
    the switch of that domain and its accessory object as they were, and
    sends no request. *)
Theorem syncConfig_absent_domain w st l w2 d :
  keyed (store w2) →
  JsMap.get "adf" (accessories (store w2)) = None →
  d ∉ DenylistEntry.id <$> l →
  let r := exec (continuation (exec (syncConfig generate) w) (fetched st l)) w2 in
  JsMap.get (getUUID generate d) (BlockedDomainAccessories (store r.2))
  = JsMap.get (getUUID generate d) (BlockedDomainAccessories (store w2)) ∧
  (∀ self,
     JsMap.get (getUUID generate d) (BlockedDomainAccessories (store w2)) = Some self →
     objects (store r.2) !! BlockedDomainAccessory.accessory self
     = objects (store w2) !! BlockedDomainAccessory.accessory self) ∧
  requests r.2 = requests w2.
Proof.
  intros Hk Hadf Hd. cbv zeta. rewrite syncConfig_fetched. cbn.
  destruct (foldl_syncEntry_absent l (store w2) d Hk Hadf Hd) as [H1 H2].
  auto.
Qed.

End Invariant.

(** C1.  A first run, nothing in the host's cache: the domain is discovered
    while it is off remotely, then a tick finds it on.  The cached boolean
    was [false] and the entry is active; after the tick [getOn] answers
    [true], yet the [On] characteristic of the switch's accessory is still
    [false]: the accessory was created in this run, it is not in the
    platform's [accessories] map, and [updateCharacteristic] was not called. *)
Theorem syncConfig_new_accessory_stale :
  let this := getUUID key_uuid "reddit.com" in
  let after := deliver 0 (reddit true) first_run in
  (exec (getOn this) first_run).1 = Fulfilled false ∧
  (exec (getOn this) after).1 = Fulfilled true ∧
  JsMap.get this (BlockedDomainAccessories (store after))
  = Some (BlockedDomainAccessory.mk 0 true) ∧
  accessories (store after) = [] ∧
  On <$> getService_Switch 0 (store after) = Some false.
Proof. vm_compute. auto 10. Qed.

(** The same tick in a later run, the accessory being restored from the
    host's cache: the characteristic follows. *)
Lemma syncConfig_restored_accessory_updated :
  let this := getUUID key_uuid "reddit.com" in
  let after := deliver 0 (reddit true) later_run in
  (exec (getOn this) after).1 = Fulfilled true ∧
  JsMap.get this (BlockedDomainAccessories (store after))
  = Some (BlockedDomainAccessory.mk 0 true) ∧
  On <$> getService_Switch 0 (store after) = Some true.
Proof. vm_compute. auto. Qed.

#[global] Instance key_uuid_inj : Inj (=) (=) key_uuid.
Proof. intros x y H. exact H. Qed.

Lemma switch_store_keyed : keyed switch_store.
Proof.
  split; intros u x; cbn; case_decide; try discriminate; intros [= <-]; by subst.
Qed.

Lemma syncConfig_absent_domain_witness :
  keyed (store switch_world) ∧
  JsMap.get "adf" (accessories (store switch_world)) = None ∧
  ("reddit.com" ∉ DenylistEntry.id <$> [DenylistEntry.mk "news.ycombinator.com" true]) ∧
  JsMap.get (getUUID key_uuid "reddit.com")
    (BlockedDomainAccessories
       (store (exec (continuation (exec (syncConfig key_uuid) switch_world)
                       (fetched "OK" [DenylistEntry.mk "news.ycombinator.com" true]))
                 switch_world).2))
  = Some (BlockedDomainAccessory.mk 0 false).
Proof.
  assert (Hd : "reddit.com" ∉ DenylistEntry.id <$> [DenylistEntry.mk "news.ycombinator.com" true]).
  { cbn. intros H%list_elem_of_singleton. discriminate. }
  split; [exact switch_store_keyed|]. split; [reflexivity|]. split; [exact Hd|].
  destruct (syncConfig_absent_domain key_uuid
              switch_world "OK" [DenylistEntry.mk "news.ycombinator.com" true]
              switch_world "reddit.com" switch_store_keyed eq_refl Hd) as (Hsw & _).
  rewrite Hsw. reflexivity.
Defined.

(** ** Discovery *)

Lemma foldl_assign_absent (l : list DenylistEntry.t) (acc : JsMap.t bool) d :
  d ∉ DenylistEntry.id <$> l →
  JsMap.get d
    (foldl (λ acc domain,
              JsRecord.assign (DenylistEntry.id domain) (DenylistEntry.active domain) acc)
       acc l) = JsMap.get d acc.
Proof.
  revert acc. induction l as [|e l IH]; intros acc Hd; cbn; [reflexivity|].
  rewrite fmap_cons, not_elem_of_cons in Hd. destruct Hd as [Hne Hd].
  rewrite IH by done. unfold JsRecord.assign.
  case_decide; [reflexivity|]. by rewrite JsMap_get_set_ne.
Qed.

(** A domain without an entry reads as falsy, unless its name is that of a
    member every object inherits. *)
Lemma truthy_member_absent l d :
  d ∉ DenylistEntry.id <$> l →
  JsRecord.truthy_member d (blocked_record l) = bool_decide (d ∈ JsRecord.inherited).
Proof.
  intros Hd. unfold JsRecord.truthy_member, blocked_record.
  rewrite foldl_assign_absent by done. cbn.
  case_decide as Hp; [subst d; reflexivity | reflexivity].
Qed.

(** The initial state of a switch is [context.isOn === true]: whatever is
    stored there and is not [true] gives [false]. *)
Lemma BlockedDomainAccessory_constructor_isOn r s a :
  objects s !! r = Some a →
  BlockedDomainAccessory.isOn (BlockedDomainAccessory_constructor r s).1
  = strict_eq_true (Context.isOn (PlatformAccessory.context a)).
Proof.
  intros Ha. unfold BlockedDomainAccessory_constructor, update_object. cbn.
  rewrite !list_lookup_alter_eq, Ha. reflexivity.
Qed.

Lemma BlockedDomainAccessory_constructor_not_true r s a :
  objects s !! r = Some a →
  Context.isOn (PlatformAccessory.context a) ≠ JSBool true →
  BlockedDomainAccessory.isOn (BlockedDomainAccessory_constructor r s).1 = false.
Proof.
  intros Ha Hv. rewrite (BlockedDomainAccessory_constructor_isOn r s a Ha).
  destruct (Context.isOn _) as [| |[]| | |]; cbn; congruence.
Qed.

Lemma BlockedDomainAccessory_constructor_accessory r s :
  BlockedDomainAccessory.accessory (BlockedDomainAccessory_constructor r s).1 = r.
Proof. reflexivity. Qed.

Lemma BlockedDomainAccessory_constructor_store r s :
  let s' := (BlockedDomainAccessory_constructor r s).2 in
  accessories s' = accessories s ∧
  BlockedDomainAccessories s' = BlockedDomainAccessories s ∧
  config s' = config s ∧
  ∀ r', PlatformAccessory.UUID <$> objects s' !! r'
        = PlatformAccessory.UUID <$> objects s !! r'.
Proof.
  cbn. repeat split. intros r'. unfold update_object. cbn.
  by rewrite !alter_UUID.
Qed.

Section Discovery.

Variables (generate toTitleCase : string → string).
Context `{!Inj (=) (=) generate}.

Lemma discoverDomain_UUID rec d s r u :
  PlatformAccessory.UUID <$> objects s !! r = Some u →
  PlatformAccessory.UUID <$> objects (discoverDomain generate toTitleCase rec d s) !! r
  = Some u.
Proof.
  intros Hu. unfold discoverDomain.
  destruct (JsMap.get _ (accessories s)) as [r0|]; cbn; unfold update_object; cbn.
  - by rewrite !alter_UUID.
  - rewrite !alter_UUID by done.
    rewrite lookup_app_l; [done|].
    apply lookup_lt_is_Some. destruct (objects s !! r); [eauto | discriminate].
Qed.

Lemma discoverDomain_untouched rec d s :
  accessories (discoverDomain generate toTitleCase rec d s) = accessories s ∧
  config (discoverDomain generate toTitleCase rec d s) = config s.
Proof.
  unfold discoverDomain. destruct (JsMap.get _ (accessories s)); cbn; auto.
Qed.

(** One turn of the loop registers the switch of its domain, with the state
    read from the remote record. *)
Lemma discoverDomain_switches rec d s :
  (∀ r, JsMap.get (getUUID generate d) (accessories s) = Some r →
        PlatformAccessory.UUID <$> objects s !! r = Some (getUUID generate d)) →
  ∃ r, BlockedDomainAccessories (discoverDomain generate toTitleCase rec d s)
       = JsMap.set (getUUID generate d)
           (BlockedDomainAccessory.mk r (JsRecord.truthy_member d rec))
           (BlockedDomainAccessories s)
     ∧ PlatformAccessory.UUID <$> objects (discoverDomain generate toTitleCase rec d s) !! r
       = Some (getUUID generate d).
Proof.
  intros Hval. unfold discoverDomain.
  destruct (JsMap.get _ (accessories s)) as [r0|]; cbn; unfold update_object; cbn.
  - exists r0. specialize (Hval r0 eq_refl). rewrite !alter_UUID by done. split; [|done].
    rewrite !list_lookup_alter_eq. destruct (objects s !! r0); [|discriminate]. cbn.
    by destruct (JsRecord.truthy_member d rec).
  - exists (length (objects s)). rewrite !alter_UUID by done.
    rewrite !list_lookup_alter_eq, lookup_app_last. cbn.
    by destruct (JsRecord.truthy_member d rec).
Qed.

Lemma discoverDomain_keyed rec d s :
  keyed s → keyed (discoverDomain generate toTitleCase rec d s).
Proof.
  intros [Ha Hb].
  destruct (discoverDomain_untouched rec d s) as [Hacc _].
  destruct (discoverDomain_switches rec d s) as (r & Hsw & Hr); [by auto|].
  split.
  - intros u r'. rewrite Hacc. intros H. by apply discoverDomain_UUID, Ha.
  - intros u self. rewrite Hsw.
    destruct (decide (getUUID generate d = u)) as [<-|Hne].
    + rewrite JsMap_get_set_eq. by intros [= <-].
    + rewrite JsMap_get_set_ne by done. intros H. by apply discoverDomain_UUID, Hb.
Qed.

Lemma foldl_discoverDomain rec l s :
  keyed s →
  let s' := foldl (λ s d, discoverDomain generate toTitleCase rec d s) s l in
  keyed s' ∧ accessories s' = accessories s ∧ config s' = config s ∧
  ∀ d,
    (d ∈ l →
     ∃ self, JsMap.get (getUUID generate d) (BlockedDomainAccessories s') = Some self ∧
             BlockedDomainAccessory.isOn self = JsRecord.truthy_member d rec) ∧
    (d ∉ l →
     JsMap.get (getUUID generate d) (BlockedDomainAccessories s')
     = JsMap.get (getUUID generate d) (BlockedDomainAccessories s)).
Proof.
  revert s. induction l as [|d0 l IH]; intros s Hk; cbn.
  - split; [exact Hk|]. split; [done|]. split; [done|].
    intros d. split; [by intros ?%elem_of_nil | done].
  - destruct (IH _ (discoverDomain_keyed rec d0 s Hk)) as (Hk' & Hacc & Hcfg & Hd).
    destruct (discoverDomain_untouched rec d0 s) as [Hacc0 Hcfg0].
    destruct (discoverDomain_switches rec d0 s) as (r & Hsw & _); [by apply Hk|].
    cbn zeta in *. split; [exact Hk'|]. split; [congruence|]. split; [congruence|].
    intros d. destruct (Hd d) as [Hin Hout]. split.
    + intros Hd0. destruct (decide (d ∈ l)) as [Hl|Hl]; [by auto|].
      apply elem_of_cons in Hd0 as [->|?]; [|done].
      rewrite Hout, Hsw, JsMap_get_set_eq by done. eauto.
    + intros [Hne Hl]%not_elem_of_cons. rewrite Hout, Hsw by done.
      apply JsMap_get_set_ne. by intros ?%(getUUID_inj generate).
Qed.

Lemma foldl_forgetAccessory (l : list (string * ref)) s :
  let s' := foldl (λ s entry, forgetAccessory entry s) s l in
  objects s' = objects s ∧ accessories s' = accessories s ∧
  BlockedDomainAccessories s' = BlockedDomainAccessories s ∧ config s' = config s.
Proof.
  revert s. induction l as [|[u r] l IH]; intros s; cbv zeta; cbn [foldl]; [by auto|].
  destruct (IH (forgetAccessory (u, r) s)) as (Ho & Ha & Hb & Hc). cbv zeta in *.
  rewrite Ho, Ha, Hb, Hc. unfold forgetAccessory. case_bool_decide; cbn; auto.
Qed.

(** Discovery leaves a switch for every configured domain, its state read
    from the remote record, and a well-formed store. *)
Lemma registerDevices_switches data s :
  keyed s →
  let s' := registerDevices generate toTitleCase data s in
  keyed s' ∧ accessories s' = accessories s ∧ config s' = config s ∧
  ∀ d, d ∈ default [] (blockedDomains (config s)) →
       ∃ self, JsMap.get (getUUID generate d) (BlockedDomainAccessories s') = Some self ∧
               BlockedDomainAccessory.isOn self
               = JsRecord.truthy_member d (blocked_record (fetched_denylist data)).
Proof.
  intros Hk. unfold registerDevices.
  set (rec := foldl _ JsMap.empty _).
  assert (Hrec : rec = blocked_record (fetched_denylist data)) by (by destruct data).
  clearbody rec. subst rec.
  set (s0 := add_log Debug "nextDNSBlockedDomains" s).
  assert (Hk0 : keyed s0) by exact Hk.
  destruct (foldl_discoverDomain (blocked_record (fetched_denylist data))
              (default [] (blockedDomains (config s))) s0 Hk0) as (Hk1 & Hacc & Hcfg & Hd).
  cbn zeta in *.
  set (s1 := foldl _ s0 _) in *.
  destruct (foldl_forgetAccessory (accessories s1) s1) as (Ho & Ha & Hb & Hc).
  cbn zeta in *. set (s2 := foldl _ s1 _) in *.
  split; [|split; [by rewrite Ha, Hacc|split; [by rewrite Hc, Hcfg|]]].
  - destruct Hk1 as [H1 H2]. split.
    + intros u r. rewrite Ha, Ho. apply H1.
    + intros u self. rewrite Hb, Ho. apply H2.
  - intros d Hin. rewrite Hb. by apply Hd.
Qed.

(** [discoverDevices] resumed with the outcome of its read: the devices are
    registered from the data the fetcher hands over (none when the read
    failed, a warning being logged then), and the loop is started. *)
Lemma discoverDevices_resumed w o w2 :
  exec (continuation (exec (discoverDevices generate toTitleCase) w) o) w2
  = (Fulfilled tt,
     detach (exec (bootstrapAsyncUpdates generate)
               (set_store
                  (registerDevices generate toTitleCase (outcome_data o)
                     (outcome_log o (store w2))) w2))).
Proof. destruct o as [e|[[] st [|[|data]]]]; reflexivity. Qed.

Lemma outcome_log_keyed o s : keyed s → keyed (outcome_log o s).
Proof. intros Hk. destruct o as [e|[[] st [|[|data]]]]; exact Hk. Qed.

Lemma outcome_log_config o s : config (outcome_log o s) = config s.
Proof. destruct o as [e|[[] st [|[|data]]]]; reflexivity. Qed.

(** After discovery [getOn] answers, for a configured domain, what the remote
    record reads for it. *)
Lemma discoverDevices_seeds w o w2 d :
  keyed (store w2) →
  d ∈ default [] (blockedDomains (config (store w2))) →
  (exec (getOn (getUUID generate d))
     (exec (continuation (exec (discoverDevices generate toTitleCase) w) o) w2).2).1
  = Fulfilled (JsRecord.truthy_member d (blocked_record (outcome_denylist o))).
Proof.
  intros Hk Hd. rewrite discoverDevices_resumed.
  destruct (registerDevices_switches (outcome_data o) (outcome_log o (store w2))
              (outcome_log_keyed o _ Hk)) as (_ & _ & _ & Hseed).
  destruct (Hseed d) as (self & Hself & Hon); [by rewrite outcome_log_config|].
  unfold getOn, this_switch. cbn. rewrite Hself. cbn. by rewrite Hon.
Qed.

(** A configured domain without an entry in the denylist that discovery read
    (none at all when the read failed) starts off, provided its name is not
    that of a member every object inherits. *)
Lemma discoverDevices_seeds_off w o w2 d :
  keyed (store w2) →
  d ∈ default [] (blockedDomains (config (store w2))) →
  d ∉ DenylistEntry.id <$> outcome_denylist o →
  d ∉ JsRecord.inherited →
  (exec (getOn (getUUID generate d))
     (exec (continuation (exec (discoverDevices generate toTitleCase) w) o) w2).2).1
  = Fulfilled false.
Proof.
  intros Hk Hd Habsent Hname.
  rewrite discoverDevices_seeds, truthy_member_absent by done.
  by rewrite bool_decide_false.
Qed.

Lemma fetch_failed_denylist o : fetch_failed o = true → outcome_denylist o = [].
Proof. by destruct o as [e|[[] st [|[|data]]]]. Qed.

(** C10, as amended.  Discovery seeds every configured domain, restored or
    new, from the denylist it read: [getOn] answers what the remote record
    reads for the domain, whatever the host had persisted.  A failed read
    gives an empty denylist.  A domain without an entry starts off when its
    name is not that of a member every object inherits.  And the constructor
    of the switch turns any [context.isOn] other than [true] into [false]. *)
Theorem discoverDevices_seeds_from_remote w o w2 d :
  keyed (store w2) →
  d ∈ default [] (blockedDomains (config (store w2))) →
  let after :=
    (exec (continuation (exec (discoverDevices generate toTitleCase) w) o) w2).2 in
  (exec (getOn (getUUID generate d)) after).1
  = Fulfilled (JsRecord.truthy_member d (blocked_record (outcome_denylist o))) ∧
  (fetch_failed o = true → outcome_denylist o = []) ∧
  (d ∉ DenylistEntry.id <$> outcome_denylist o → d ∉ JsRecord.inherited →
   (exec (getOn (getUUID generate d)) after).1 = Fulfilled false) ∧
  (∀ r s a,
     objects s !! r = Some a →
     Context.isOn (PlatformAccessory.context a) ≠ JSBool true →
     BlockedDomainAccessory.isOn (BlockedDomainAccessory_constructor r s).1 = false).
Proof.
  intros Hk Hd. cbv zeta.
  split; [by apply discoverDevices_seeds|].
  split; [apply fetch_failed_denylist|].
  split; [by apply discoverDevices_seeds_off|].
  apply BlockedDomainAccessory_constructor_not_true.
Qed.

(** In the earlier revision a read that fails rejects the promise of
    [discoverDevices]: no device is registered and the loop is not started. *)
Lemma Legacy_discoverDevices_rejects w e :
  let r := run (Legacy.discoverDevices generate toTitleCase) w [Rejects e] in
  r.1 = Rejected e ∧
  BlockedDomainAccessories (store r.2) = BlockedDomainAccessories (store w) ∧
  inflight r.2 = inflight w.
Proof. repeat split. Qed.

End Discovery.

(** A configured domain named ["constructor"] and a first read that fails:
    the denylist is empty, the record [{}] has no member of its own, and
    [nextDNSBlockedDomains["constructor"]] is the function every object
    inherits, which is truthy: the switch starts on. *)
Lemma discoverDevices_inherited_name :
  outcome_denylist (Rejects NetworkError) = [] ∧
  JsRecord.truthy_member "constructor" (blocked_record []) = true ∧
  (exec (getOn (getUUID key_uuid "constructor")) constructor_run).1 = Fulfilled true ∧
  (λ a, Context.isOn (PlatformAccessory.context a)) <$> objects (store constructor_run) !! 0
  = Some (JSBool true).
Proof. vm_compute. auto. Qed.

(** C10, as stated, fails.  The host's cache gives back the accessory of
    ["reddit.com"] with [context.isOn] holding a string, so not [true]; the
    denylist has the domain active.  Discovery overwrites [context.isOn] with
    the remote flag before the switch is constructed: [getOn] answers [true].
    And a configured domain named ["constructor"], without any entry since
    the read failed, starts on as well. *)
Lemma discoverDevices_not_off :
  (Context.isOn (PlatformAccessory.context junk_cached) ≠ JSBool true ∧
   JsMap.get (getUUID key_uuid "reddit.com") (accessories (store junk_run)) = Some 0 ∧
   (exec (getOn (getUUID key_uuid "reddit.com")) junk_run).1 = Fulfilled true) ∧
  ("constructor" ∈ default [] (blockedDomains constructor_config) ∧
   ("constructor" ∉ DenylistEntry.id <$> outcome_denylist (Rejects NetworkError)) ∧
   (exec (getOn (getUUID key_uuid "constructor")) constructor_run).1 = Fulfilled true).
Proof.
  split.
  - split; [discriminate|]. vm_compute. auto.
  - split; [by left|]. split; [by intros ?%elem_of_nil|]. vm_compute. reflexivity.
Qed.

Lemma discoverDevices_seeds_from_remote_witness :
  keyed (store (idle_world reddit_config)) ∧
  "reddit.com" ∈ default [] (blockedDomains (config (store (idle_world reddit_config)))) ∧
  (exec (getOn (getUUID key_uuid "reddit.com"))
     (exec (continuation (exec (discoverDevices key_uuid as_typed) (idle_world reddit_config))
              (Rejects NetworkError))
        (idle_world reddit_config)).2).1
  = Fulfilled false.
Proof.
  assert (Hk : keyed (store (idle_world reddit_config))).
  { split; intros u r [=]. }
  assert (Hd : "reddit.com" ∈ default [] (blockedDomains (config (store (idle_world reddit_config))))).
  { cbn. by left. }
  split; [exact Hk|]. split; [exact Hd|].
  destruct (discoverDevices_seeds_from_remote key_uuid as_typed
              (idle_world reddit_config) (Rejects NetworkError)
              (idle_world reddit_config) "reddit.com" Hk Hd) as (_ & _ & Hoff & _).
  apply Hoff.
  - cbn. by intros ?%elem_of_nil.
  - apply (bool_decide_eq_false_1 ("reddit.com" ∈ JsRecord.inherited)). reflexivity.
Defined.

(** ** Every reachable store is sound *)

Lemma safe_bind {A B} (t : Async A) (f : A → Async B) :
  safe t → (∀ a, safe (f a)) → safe (bind t f).
Proof.
  intros Ht Hf. induction Ht; cbn; try (constructor; auto; fail). apply Hf.
Qed.

Lemma safe_try_catch {A} (t : Async A) (h : Exn → Async A) :
  safe t → (∀ e, safe (h e)) → safe (try_catch t h).
Proof.
  intros Ht Hh. induction Ht; cbn; try (constructor; auto; fail). apply Hh.
Qed.

Lemma safe_modify (f : Store → Store) :
  (∀ s, sound s → sound (f s)) → safe (modify f).
Proof. intros Hf. constructor. intros s Hs. constructor; [by apply Hf | constructor]. Qed.

Lemma safe_gets {A} (f : Store → A) : safe (gets f).
Proof. constructor. intros s _. constructor. Qed.

Lemma safe_log lvl msg : safe (log_ lvl msg).
Proof. apply safe_modify. intros s Hs. exact Hs. Qed.

Lemma safe_fetch req : safe (fetch req).
Proof. constructor. intros [e|r]; constructor. Qed.

Lemma safe_forEach {A} (l : list A) (f : A → Async unit) :
  (∀ x, safe (f x)) → safe (forEach l f).
Proof. intros Hf. induction l; cbn; constructor; auto. Qed.

(** [log.warn(..)] in a [catch] block, or any statement followed by a [return]. *)
Lemma safe_then_ret {A} (t : Async unit) (a : A) : safe t → safe (t ;; mret a).
Proof. intros Ht. apply safe_bind; [exact Ht|]. intros _. constructor. Qed.

(** Running a safe computation in a steady world leaves a steady world, and
    what it is suspended on is safe again. *)
Lemma exec_safe {A} (t : Async A) :
  safe t → ∀ w, steady w →
  steady (exec t w).2 ∧
  match (exec t w).1 with
  | Pending k => ∀ o, safe (k o)
  | _ => True
  end.
Proof.
  induction 1 as [A a|A e|A k Hk IH|A s k Hs Hk IH|A req k Hk IH|A t k Ht IHt Hk IHk];
    intros w [Hw Hin]; cbn.
  - by split.
  - by split.
  - by apply IH.
  - by apply IH.
  - by split.
  - apply IHk. destruct (IHt w (conj Hw Hin)) as [[Hw' Hin'] Hp].
    destruct (exec t w) as [[[]|e|k'] w']; cbn in *; split; auto.
    apply Forall_app. split; [done|]. by constructor.
Qed.

Lemma detach_safe (t : Async unit) w : safe t → steady w → steady (detach (exec t w)).
Proof.
  intros Ht Hw. destruct (exec_safe t Ht w Hw) as [[Hs Hin] Hp].
  destruct (exec t w) as [[[]|e|k] w']; cbn in *; split; auto.
  apply Forall_app. split; [done|]. by constructor.
Qed.

Section Reachability.

Variables (generate toTitleCase : string → string).
Context `{!Inj (=) (=) generate}.

Lemma syncEntry_sound e s : sound s → sound (syncEntry generate e s).
Proof.
  intros [Hk Hadf]. split; [by apply syncEntry_keyed|].
  destruct (syncEntry_untouched generate e s) as (_ & -> & _). exact Hadf.
Qed.

Lemma registerDevices_sound data s :
  sound s → sound (registerDevices generate toTitleCase data s).
Proof.
  intros [Hk Hadf].
  destruct (registerDevices_switches generate toTitleCase data s Hk) as (Hk' & Hacc & _).
  split; [exact Hk'|]. cbv zeta in Hacc. by rewrite Hacc.
Qed.

Lemma assign_isOn_sound this value s : sound s → sound (assign_isOn this value s).
Proof.
  intros [[Ha Hb] Hadf]. unfold assign_isOn.
  destruct (JsMap.get this (BlockedDomainAccessories s)) as [self|] eqn:Hself; [|done].
  split; [split|exact Hadf]; cbn; [exact Ha|].
  intros u self'. destruct (decide (this = u)) as [<-|Hne].
  - rewrite JsMap_get_set_eq. intros [= <-]. cbn. by apply Hb.
  - rewrite JsMap_get_set_ne by done. apply Hb.
Qed.

Lemma restore_sound a s :
  PlatformAccessory.UUID a ≠ "adf" → sound s → sound (restore a s).
Proof.
  intros Hu [[Ha Hb] Hadf]. unfold restore, configureAccessory. cbn.
  rewrite lookup_app_last. cbn. split; [split|]; cbn.
  - intros u r. destruct (decide (PlatformAccessory.UUID a = u)) as [<-|Hne].
    + rewrite JsMap_get_set_eq. intros [= <-]. by rewrite lookup_app_last.
    + rewrite JsMap_get_set_ne by done. intros Hr. specialize (Ha _ _ Hr).
      rewrite lookup_app_l; [done|]. apply lookup_lt_is_Some.
      destruct (objects s !! r); [eauto|discriminate].
  - intros u self Hself. specialize (Hb _ _ Hself).
    rewrite lookup_app_l; [done|]. apply lookup_lt_is_Some.
    destruct (objects s !! _); [eauto|discriminate].
  - by rewrite JsMap_get_set_ne.
Qed.

Lemma safe_getNextDNSProfileData apiKey profileId :
  safe (getNextDNSProfileData apiKey profileId).
Proof.
  unfold getNextDNSProfileData.
  apply safe_try_catch; [|intros _; apply safe_then_ret, safe_log].
  apply safe_bind; [apply safe_fetch|].
  intros [[] st b]; cbn [negb ok]; [|apply safe_then_ret, safe_log].
  apply safe_bind; [destruct b as [|j]; constructor|].
  intros [|d]; constructor.
Qed.

Lemma safe_syncConfig : safe (syncConfig generate).
Proof.
  unfold syncConfig. apply safe_bind; [apply safe_log|]. intros _.
  apply safe_bind.
  - apply safe_try_catch; [|intros _; apply safe_log].
    apply safe_bind; [apply safe_gets|]. intros cfg.
    apply safe_bind; [apply safe_getNextDNSProfileData|].
    intros [| |[[l|]]]; try constructor.
    apply safe_forEach. intros e. apply safe_modify. apply syncEntry_sound.
  - intros _. apply safe_modify. intros s Hs. exact Hs.
Qed.

Lemma safe_bootstrapAsyncUpdates : safe (bootstrapAsyncUpdates generate).
Proof. constructor; [apply safe_syncConfig | constructor]. Qed.

Lemma safe_discoverDevices : safe (discoverDevices generate toTitleCase).
Proof.
  unfold discoverDevices. apply safe_bind; [apply safe_gets|]. intros cfg.
  apply safe_bind; [apply safe_getNextDNSProfileData|]. intros data.
  apply safe_bind; [apply safe_modify, registerDevices_sound|]. intros _.
  constructor; [apply safe_bootstrapAsyncUpdates | constructor].
Qed.

Lemma safe_blockDomain domain : safe (blockDomain domain).
Proof.
  unfold blockDomain. apply safe_try_catch; [|intros _; apply safe_log].
  apply safe_bind; [apply safe_gets|]. intros cfg.
  apply safe_bind; [apply safe_fetch|]. intros [[] st b]; cbn [negb ok]; [by constructor|].
  apply safe_bind; [apply safe_gets|]. intros cfg'.
  apply safe_bind; [apply safe_fetch|]. intros _. constructor.
Qed.

Lemma safe_unblockDomain domain : safe (unblockDomain domain).
Proof.
  unfold unblockDomain. apply safe_try_catch; [|intros _; apply safe_log].
  apply safe_bind; [apply safe_gets|]. intros cfg.
  apply safe_bind; [apply safe_fetch|]. intros _. constructor.
Qed.

Lemma safe_this_switch this : safe (this_switch this).
Proof.
  unfold this_switch. apply safe_bind; [constructor; intros s _; constructor|].
  intros s. case_match; constructor.
Qed.

Lemma safe_getOn this : safe (getOn this).
Proof.
  unfold getOn. apply safe_bind; [apply safe_this_switch|]. intros self. constructor.
Qed.

Lemma safe_setOn this value : safe (setOn this value).
Proof.
  unfold setOn. apply safe_bind; [apply safe_log|]. intros _.
  apply safe_bind; [apply safe_modify, assign_isOn_sound|]. intros _.
  apply safe_bind; [apply safe_this_switch|]. intros self.
  apply safe_bind.
  - unfold this_domain. apply safe_bind; [apply safe_this_switch|]. intros self'.
    apply safe_bind; [constructor; intros s _; constructor|].
    intros s. case_match; constructor.
  - intros domain. destruct (BlockedDomainAccessory.isOn self); constructor;
      first [apply safe_blockDomain | apply safe_unblockDomain | constructor].
Qed.

Lemma deliver_steady i o w : steady w → steady (deliver i o w).
Proof.
  intros [Hs Hin]. unfold deliver.
  destruct (inflight w !! i) as [k|] eqn:Hk; [|by split].
  apply detach_safe.
  - by apply (Forall_lookup_1 _ _ _ _ Hin Hk).
  - split; [exact Hs|]. cbn. by apply Forall_delete.
Qed.

Lemma fire_steady i w : steady w → steady (fire generate i w).
Proof.
  intros [[Hk Hadf] Hin]. unfold fire.
  destruct (timers (store w) !! i) as [[[] ms]|]; [|by split]. cbn [callback].
  apply detach_safe; [apply safe_syncConfig|]. by split.
Qed.

Lemma step_steady e w : steady w → steady (step generate e w).
Proof.
  intros Hw. destruct e as [i o|i|this value|this]; unfold step.
  - by apply deliver_steady.
  - by apply fire_steady.
  - apply (exec_safe _ (safe_setOn this value) w Hw).
  - apply (exec_safe _ (safe_getOn this) w Hw).
Qed.

Lemma safe_NextDNSPlatform_constructor : safe NextDNSPlatform_constructor.
Proof.
  unfold NextDNSPlatform_constructor. apply safe_bind; [apply safe_log|]. intros _.
  apply safe_bind; [apply safe_gets|]. intros cfg.
  destruct (falsy _ || falsy _); [apply safe_log|].
  apply safe_bind; [apply safe_log|]. intros _. apply safe_modify. by intros s Hs.
Qed.

Lemma idle_world_steady config : steady (idle_world config).
Proof.
  split; [|by constructor]. split; [split|]; cbn; [intros u r [=]|intros u r [=]|done].
Qed.

Lemma foldl_restore_sound cached s :
  Forall (λ a, PlatformAccessory.UUID a ≠ "adf") cached →
  sound s → sound (foldl (λ s a, restore a s) s cached).
Proof.
  intros Hcached. revert s. induction Hcached as [|a cached Ha _ IH]; intros s Hs; cbn.
  - exact Hs.
  - apply IH. by apply restore_sound.
Qed.

Lemma didFinishLaunching_steady w :
  steady w → steady (didFinishLaunching generate toTitleCase w).
Proof.
  unfold didFinishLaunching. generalize (listeners (store w)). intros ls. revert w.
  induction ls as [|[] ls IH]; intros w Hw; cbn [foldl]; [exact Hw|].
  apply IH. apply detach_safe; [|exact Hw].
  apply safe_bind; [apply safe_log|]. intros _.
  constructor; [apply safe_discoverDevices | constructor].
Qed.

Lemma boot_steady config cached :
  Forall (λ a, PlatformAccessory.UUID a ≠ "adf") cached →
  steady (boot generate toTitleCase config cached).2.
Proof.
  intros Hcached. unfold boot. fold (idle_world config).
  destruct (exec_safe _ safe_NextDNSPlatform_constructor _ (idle_world_steady config))
    as [[Hs Hin] _].
  destruct (exec NextDNSPlatform_constructor (idle_world config)) as [r w].
  cbn [fst snd] in *. apply didFinishLaunching_steady.
  split; [by apply foldl_restore_sound | exact Hin].
Qed.

(** Whatever happens after the plugin is loaded, the maps of the platform stay
    keyed and hold nothing under ["adf"], as long as the host's cache held no
    accessory with that UUID. *)
Theorem reach_sound config cached events :
  Forall (λ a, PlatformAccessory.UUID a ≠ "adf") cached →
  sound (store (reach generate toTitleCase config cached events)).
Proof.
  intros Hcached. unfold reach.
  assert (Hboot := boot_steady config cached Hcached).
  revert Hboot. generalize (boot generate toTitleCase config cached).2.
  induction events as [|e events IH]; intros w Hw; cbn; [apply Hw|].
  apply IH. by apply step_steady.
Qed.

(** So a tick leaves alone every domain its denylist does not mention, in
    every world the plugin can be in. *)
Corollary reach_absent_domain config cached events w st l d :
  Forall (λ a, PlatformAccessory.UUID a ≠ "adf") cached →
  d ∉ DenylistEntry.id <$> l →
  let w2 := reach generate toTitleCase config cached events in
  let r := exec (continuation (exec (syncConfig generate) w) (fetched st l)) w2 in
  JsMap.get (getUUID generate d) (BlockedDomainAccessories (store r.2))
  = JsMap.get (getUUID generate d) (BlockedDomainAccessories (store w2)) ∧
  ∀ self,
    JsMap.get (getUUID generate d) (BlockedDomainAccessories (store w2)) = Some self →
    objects (store r.2) !! BlockedDomainAccessory.accessory self
    = objects (store w2) !! BlockedDomainAccessory.accessory self.
Proof.
  intros Hcached Hd. cbv zeta. rewrite syncConfig_fetched. cbn.
  destruct (reach_sound config cached events Hcached) as [Hk Hadf].
  by apply foldl_syncEntry_absent.
Qed.

End Reachability.

(** * Further properties *)

(** ** The display name *)

Lemma append_cons (c : ascii) (s1 s2 : string) :
  String c s1 +:+ s2 = String c (s1 +:+ s2).
Proof. reflexivity. Qed.

Lemma append_nil_r (s : string) : s +:+ "" = s.
Proof. induction s as [|c s IH]; [reflexivity | by rewrite append_cons, IH]. Qed.

Lemma append_assoc (s1 s2 s3 : string) : (s1 +:+ s2) +:+ s3 = s1 +:+ (s2 +:+ s3).
Proof. induction s1 as [|c s1 IH]; [reflexivity | by rewrite !append_cons, IH]. Qed.

Lemma toLowerCase_append (s1 s2 : string) :
  toLowerCase (s1 +:+ s2) = toLowerCase s1 +:+ toLowerCase s2.
Proof.
  induction s1 as [|c s1 IH]; [reflexivity|].
  rewrite append_cons. cbn [toLowerCase]. by rewrite append_cons, IH.
Qed.

(** Facts on single characters, by going through the 256 of them. *)
Ltac each_character c :=
  destruct c as [[] [] [] [] [] [] [] []]; try reflexivity; try discriminate.

Lemma white_space_toLowerCase c :
  white_space (toLowerCase_character c) = white_space c.
Proof. each_character c. Qed.

Lemma toLowerCase_character_idemp c :
  toLowerCase_character (toLowerCase_character c) = toLowerCase_character c.
Proof. each_character c. Qed.

Lemma word_character_toUpperCase c :
  word_character c = true → word_character (toUpperCase_word c) = true.
Proof. each_character c. Qed.

Lemma toUpperCase_word_idemp c :
  toUpperCase_word (toUpperCase_word c) = toUpperCase_word c.
Proof. each_character c. Qed.

Lemma word_character_not_space c : word_character c = true → white_space c = false.
Proof. each_character c. Qed.

(** The replacer is only ever applied to a match, which starts with a word
    character: what it does of other texts plays no part. *)
Lemma replace_words_matches (replacer replacer' : string → string) (str : string) :
  (∀ c text, word_character c = true →
             replacer (String c text) = replacer' (String c text)) →
  replace_words replacer None str = replace_words replacer' None str.
Proof.
  intros Hsame.
  assert (H : replace_words replacer None str = replace_words replacer' None str ∧
              ∀ c text, word_character c = true →
                replace_words replacer (Some (String c text)) str
                = replace_words replacer' (Some (String c text)) str);
    [|apply H].
  induction str as [|a str [IH0 IH1]]; cbn.
  - split; [reflexivity|]. intros c text Hc. by apply Hsame.
  - split.
    + destruct (word_character a) eqn:Ha; [by apply IH1 | by rewrite IH0].
    + intros c text Hc. destruct (white_space a).
      * by rewrite IH0, Hsame.
      * rewrite !append_cons. by apply IH1.
Qed.

(** The replacement of the matches, one character at a time. *)
Lemma replace_words_title_from (str : string) :
  replace_words capitalize None str = title_from false str ∧
  ∀ c text,
    replace_words capitalize (Some (String c text)) str
    = String (toUpperCase_word c) (toLowerCase text +:+ title_from true str).
Proof.
  induction str as [|a str [IH0 IH1]]; cbn.
  - split; [reflexivity|]. intros c text. by rewrite append_nil_r.
  - split.
    + destruct (word_character a); [|by rewrite IH0].
      by rewrite IH1.
    + intros c text. destruct (white_space a).
      * by rewrite IH0.
      * change (String c text +:+ String a "") with (String c (text +:+ String a "")).
        rewrite IH1, toLowerCase_append, append_assoc. reflexivity.
Qed.

Lemma toTitleCase_title_from (str : string) : toTitleCase str = title_from false str.
Proof. apply replace_words_title_from. Qed.

Lemma title_from_block inside (str : string) :
  title_from inside (str +:+ " block") = title_from inside str +:+ " Block".
Proof.
  revert inside. induction str as [|c str IH]; intros inside.
  - by destruct inside.
  - rewrite append_cons. cbn [title_from].
    destruct inside; [destruct (white_space c)|destruct (word_character c)];
      by rewrite IH.
Qed.

Lemma title_from_unbroken (str : string) :
  unbroken str = true → title_from true str = toLowerCase str.
Proof.
  induction str as [|c str IH]; cbn; [done|].
  intros [Hc Hs]%andb_true_iff. apply negb_true_iff in Hc. rewrite Hc, IH by done.
  reflexivity.
Qed.

Lemma title_from_idemp inside (str : string) :
  title_from inside (title_from inside str) = title_from inside str.
Proof.
  revert inside. induction str as [|c str IH]; intros inside; [reflexivity|].
  cbn. destruct inside.
  - destruct (white_space c) eqn:Hc; cbn.
    + by rewrite Hc, IH.
    + by rewrite white_space_toLowerCase, Hc, toLowerCase_character_idemp, IH.
  - destruct (word_character c) eqn:Hc; cbn.
    + by rewrite word_character_toUpperCase, toUpperCase_word_idemp, IH.
    + by rewrite Hc, IH.
Qed.

(** X1.  The display name of a new accessory always ends in [" Block"]:
    title-casing [label + " block"] is title-casing the label and appending
    [" Block"], whatever the label (empty, or with blanks and signs). *)
Theorem toTitleCase_block (label : string) :
  toTitleCase (label +:+ " block") = toTitleCase label +:+ " Block".
Proof. rewrite !toTitleCase_title_from. apply title_from_block. Qed.

(** X2.  For a domain whose first label starts with a letter, a digit or an
    underscore and has no white space, the display name is that label with
    its first letter in upper case and the rest in lower case, followed by
    [" Block"]. *)
Theorem toTitleCase_display_name (domain : string) (c : ascii) (label : string) :
  first_label domain = String c label →
  word_character c = true →
  unbroken label = true →
  toTitleCase (first_label domain +:+ " block")
  = String (toUpperCase_word c) (toLowerCase label) +:+ " Block".
Proof.
  intros -> Hc Hl.
  rewrite !toTitleCase_title_from, title_from_block. cbn.
  by rewrite Hc, title_from_unbroken.
Qed.

Lemma toTitleCase_display_name_witness :
  toTitleCase (first_label "reddit.com" +:+ " block") = "Reddit Block".
Proof.
  exact (toTitleCase_display_name "reddit.com" "r"%char "eddit" eq_refl eq_refl eq_refl).
Defined.

(** X3.  Title-casing is idempotent: a display name that went through
    [toTitleCase] comes out of it unchanged. *)
Theorem toTitleCase_idempotent (str : string) :
  toTitleCase (toTitleCase str) = toTitleCase str.
Proof. rewrite !toTitleCase_title_from. apply title_from_idemp. Qed.

(** ** The accessories of discovery *)

Section Discovered.

Variables (generate title : string → string).
Context `{!Inj (=) (=) generate}.

(** One turn of the loop, for a domain the cache does not hold. *)
Lemma discoverDomain_new rec d s :
  JsMap.get (getUUID generate d) (accessories s) = None →
  let s' := discoverDomain generate title rec d s in
  let accessory := length (objects s) in
  let displayName := title (first_label d +:+ " block") in
  BlockedDomainAccessories s'
  = JsMap.set (getUUID generate d)
      (BlockedDomainAccessory.mk accessory (JsRecord.truthy_member d rec))
      (BlockedDomainAccessories s) ∧
  objects s' !! accessory
  = Some (PlatformAccessory.mk displayName (getUUID generate d)
            (Context.mk (Some d) (Some displayName)
               (JSBool (JsRecord.truthy_member d rec)))
            branded (Some {| On := false; Name := displayName |})) ∧
  host s' = host s ++ [RegisterPlatformAccessories [accessory]] ∧
  discoveredCacheUUIDs s' = discoveredCacheUUIDs s ++ [getUUID generate d].
Proof.
  intros Hnew. unfold discoverDomain. rewrite Hnew. cbn. unfold update_object. cbn.
  rewrite !list_lookup_alter_eq, lookup_app_last. cbn.
  by destruct (JsRecord.truthy_member d rec).
Qed.

(** One turn of the loop, for a domain whose accessory the cache gave back. *)
Lemma discoverDomain_restored rec d s r a :
  JsMap.get (getUUID generate d) (accessories s) = Some r →
  objects s !! r = Some a →
  let s' := discoverDomain generate title rec d s in
  BlockedDomainAccessories s'
  = JsMap.set (getUUID generate d)
      (BlockedDomainAccessory.mk r (JsRecord.truthy_member d rec))
      (BlockedDomainAccessories s) ∧
  (∃ a', objects s' !! r = Some a' ∧ adopted a (JsRecord.truthy_member d rec) a') ∧
  host s' = host s ++ [UpdatePlatformAccessories [r]] ∧
  discoveredCacheUUIDs s' = discoveredCacheUUIDs s ++ [getUUID generate d].
Proof.
  intros Hr Ha. unfold discoverDomain. rewrite Hr. cbn. unfold update_object. cbn.
  rewrite !list_lookup_alter_eq, Ha. cbn.
  split; [by destruct (JsRecord.truthy_member d rec)|].
  split; [|done]. eexists. split; [reflexivity|]. unfold adopted. cbn.
  by destruct (PlatformAccessory.switch a).
Qed.

(** A turn of the loop leaves alone the accessories of the other domains. *)
Lemma discoverDomain_frame rec d s r a :
  keyed s →
  objects s !! r = Some a →
  PlatformAccessory.UUID a ≠ getUUID generate d →
  objects (discoverDomain generate title rec d s) !! r = Some a.
Proof.
  intros [Hk _] Ha Hu. unfold discoverDomain.
  destruct (JsMap.get _ (accessories s)) as [r0|] eqn:Hr0; cbn.
  - assert (r ≠ r0).
    { intros ->. specialize (Hk _ _ Hr0). rewrite Ha in Hk. cbn in Hk. congruence. }
    unfold update_object. cbn. by rewrite !list_lookup_alter_ne.
  - assert (r < length (objects s))%nat by (apply lookup_lt_is_Some; eauto).
    unfold update_object. cbn. rewrite !list_lookup_alter_ne by lia.
    by rewrite lookup_app_l.
Qed.

Lemma discoverDomain_length rec d s :
  (length (objects s) ≤ length (objects (discoverDomain generate title rec d s)))%nat.
Proof.
  unfold discoverDomain. destruct (JsMap.get _ (accessories s)); cbn.
  - unfold update_object. cbn. by rewrite !length_alter.
  - unfold update_object. cbn. rewrite !length_alter, length_app. lia.
Qed.

Lemma discoverDomain_host rec d s :
  ∃ call, host (discoverDomain generate title rec d s) = host s ++ [call] ∧
          discovery_call generate s d call.
Proof.
  unfold discoverDomain, discovery_call.
  destruct (JsMap.get _ (accessories s)) as [r0|]; cbn; eauto.
Qed.

Lemma discoverDomain_discovered rec d s :
  discoveredCacheUUIDs (discoverDomain generate title rec d s)
  = discoveredCacheUUIDs s ++ [getUUID generate d].
Proof. unfold discoverDomain. by destruct (JsMap.get _ (accessories s)). Qed.

(** The turns for other domains. *)
Lemma foldl_discoverDomain_frame rec l s d r a :
  keyed s →
  d ∉ l →
  objects s !! r = Some a →
  PlatformAccessory.UUID a = getUUID generate d →
  objects (foldl (λ s d, discoverDomain generate title rec d s) s l) !! r = Some a.
Proof.
  revert s. induction l as [|d0 l IH]; intros s Hk Hd Ha Hu; cbn; [done|].
  apply not_elem_of_cons in Hd as [Hne Hd].
  apply IH; [by apply discoverDomain_keyed|done| |done].
  apply discoverDomain_frame; [done..|].
  rewrite Hu. by intros ?%(getUUID_inj generate).
Qed.

Lemma foldl_discoverDomain_length rec l s :
  (length (objects s)
   ≤ length (objects (foldl (λ s d, discoverDomain generate title rec d s) s l)))%nat.
Proof.
  revert s. induction l as [|d0 l IH]; intros s; cbn; [done|].
  etrans; [apply (discoverDomain_length rec d0)|apply IH].
Qed.

(** The calls of the first loop: one for each configured domain, in order. *)
Lemma foldl_discoverDomain_host rec l s :
  ∃ calls,
    host (foldl (λ s d, discoverDomain generate title rec d s) s l) = host s ++ calls ∧
    Forall2 (discovery_call generate s) l calls ∧
    discoveredCacheUUIDs (foldl (λ s d, discoverDomain generate title rec d s) s l)
    = discoveredCacheUUIDs s ++ (getUUID generate <$> l).
Proof.
  revert s. induction l as [|d0 l IH]; intros s; cbn.
  - exists []. by rewrite !app_nil_r.
  - destruct (discoverDomain_host rec d0 s) as (call & Hcall & Hshape).
    destruct (IH (discoverDomain generate title rec d0 s)) as (calls & Hcalls & Hall & Hdisc).
    exists (call :: calls). rewrite Hcalls, Hcall, Hdisc, discoverDomain_discovered.
    rewrite <- !app_assoc. split; [done|]. split; [|done].
    constructor; [done|].
    eapply Forall2_impl; [exact Hall|]. intros d c. unfold discovery_call.
    destruct (discoverDomain_untouched generate title rec d0 s) as [-> _].
    destruct (JsMap.get _ (accessories s)); [done|].
    intros (r & Hr & ->). exists r. split; [|done].
    pose proof (discoverDomain_length rec d0 s). lia.
Qed.

(** The second loop: one call for each accessory of the map whose UUID was
    not discovered, in the order of the map. *)
Lemma foldl_forgetAccessory_host (l : list (string * ref)) s :
  host (foldl (λ s entry, forgetAccessory entry s) s l)
  = host s
      ++ ((λ entry, UnregisterPlatformAccessories [entry.2])
            <$> filter (λ entry, entry.1 ∉ discoveredCacheUUIDs s) l) ∧
  discoveredCacheUUIDs (foldl (λ s entry, forgetAccessory entry s) s l)
  = discoveredCacheUUIDs s.
Proof.
  revert s. induction l as [|[u r] l IH]; intros s; cbn [foldl].
  - by rewrite app_nil_r.
  - destruct (IH (forgetAccessory (u, r) s)) as [Hh Hd].
    assert (Hd0 : discoveredCacheUUIDs (forgetAccessory (u, r) s) = discoveredCacheUUIDs s).
    { unfold forgetAccessory. by case_bool_decide. }
    rewrite Hh, Hd, Hd0. split; [|done].
    unfold forgetAccessory. case_bool_decide as Hin.
    + by rewrite filter_cons_False by (cbn; tauto).
    + rewrite filter_cons_True by done. rewrite fmap_cons.
      cbn -[filter]. by rewrite <- app_assoc.
Qed.


Lemma adopted_again a a1 a' isOn isOn' :
  adopted a isOn a1 → adopted a1 isOn' a' → adopted a isOn' a'.
Proof.
  unfold adopted. intros (?&?&?&?&?&?&Hs1) (?&?&?&?&?&?&Hs).
  repeat split; try congruence.
  rewrite Hs. destruct (PlatformAccessory.switch a1); cbn in *; congruence.
Qed.

(** Through the turns of the loop a cached accessory keeps what discovery
    keeps of it. *)
Lemma foldl_discoverDomain_adopts rec l s d r a :
  keyed s →
  JsMap.get (getUUID generate d) (accessories s) = Some r →
  objects s !! r = Some a →
  ∃ a1, objects (foldl (λ s d, discoverDomain generate title rec d s) s l) !! r = Some a1 ∧
        (a1 = a ∨ ∃ isOn, adopted a isOn a1).
Proof.
  revert s a. induction l as [|d0 l IH]; intros s a Hk Hr Ha; cbn; [by eauto|].
  destruct (discoverDomain_untouched generate title rec d0 s) as [Hacc _].
  destruct (decide (d0 = d)) as [->|Hne].
  - destruct (discoverDomain_restored rec d s r a Hr Ha) as (_ & (a' & Ha' & Had) & _).
    destruct (IH (discoverDomain generate title rec d s) a') as (a1 & Ha1 & Hrel);
      [by apply discoverDomain_keyed|by rewrite Hacc|done|].
    exists a1. split; [done|]. right.
    destruct Hrel as [->|[isOn Hrel]]; [by eauto|].
    exists isOn. by eapply adopted_again.
  - apply IH; [by apply discoverDomain_keyed|by rewrite Hacc|].
    apply discoverDomain_frame; [done..|].
    destruct Hk as [Hk _]. specialize (Hk _ _ Hr). rewrite Ha in Hk. cbn in Hk.
    injection Hk as ->. by intros ?%(getUUID_inj generate).
Qed.

Lemma registerDevices_unfold data s :
  registerDevices generate title data s
  = let s1 := foldl (λ s d, discoverDomain generate title
                              (blocked_record (fetched_denylist data)) d s)
                (add_log Debug "nextDNSBlockedDomains" s)
                (default [] (blockedDomains (config s))) in
    foldl (λ s entry, forgetAccessory entry s) s1 (accessories s1).
Proof. by destruct data. Qed.

(** The two loops, for a configured domain the cache does not hold. *)
Lemma discovery_loops_new rec l s d :
  keyed s →
  d ∈ l →
  JsMap.get (getUUID generate d) (accessories s) = None →
  let s1 := foldl (λ s d, discoverDomain generate title rec d s) s l in
  let s' := foldl (λ s entry, forgetAccessory entry s) s1 (accessories s1) in
  let isOn := JsRecord.truthy_member d rec in
  let displayName := title (first_label d +:+ " block") in
  ∃ accessory : ref,
    (length (objects s) ≤ accessory)%nat ∧
    JsMap.get (getUUID generate d) (BlockedDomainAccessories s')
    = Some (BlockedDomainAccessory.mk accessory isOn) ∧
    objects s' !! accessory
    = Some (PlatformAccessory.mk displayName (getUUID generate d)
              (Context.mk (Some d) (Some displayName) (JSBool isOn))
              branded (Some {| On := false; Name := displayName |})) ∧
    RegisterPlatformAccessories [accessory] ∈ host s'.
Proof.
  intros Hk0 Hd Hnew. cbv zeta.
  destruct (list_elem_of_split_r _ _ Hd) as (l1 & l2 & -> & Hd2).
  rewrite foldl_app. cbn [foldl].
  destruct (foldl_discoverDomain generate title rec l1 s Hk0) as (Hk1 & Hacc1 & _).
  pose proof (foldl_discoverDomain_length rec l1 s) as Hlen.
  cbv zeta in *.
  set (s1 := foldl _ s l1) in *.
  destruct (discoverDomain_new rec d s1) as (Hsw & Hobj & Hhost & _); [by rewrite Hacc1|].
  cbv zeta in *.
  set (s1' := discoverDomain generate title rec d s1) in *.
  assert (Hk1' : keyed s1') by (by apply discoverDomain_keyed).
  destruct (foldl_discoverDomain generate title rec l2 s1' Hk1') as (_ & _ & _ & Hl2).
  destruct (foldl_discoverDomain_host rec l2 s1') as (calls & Hcalls & _).
  pose proof (foldl_discoverDomain_frame rec l2 s1' d _ _ Hk1' Hd2 Hobj eq_refl) as Hobj2.
  cbv zeta in *.
  set (s2 := foldl _ s1' l2) in *.
  destruct (foldl_forgetAccessory (accessories s2) s2) as (Ho & _ & Hb & _).
  destruct (foldl_forgetAccessory_host (accessories s2) s2) as [Hh _].
  cbv zeta in *.
  exists (length (objects s1)). split; [done|].
  rewrite Hb, Ho, Hh, Hcalls, Hhost.
  split; [|split; [done|]].
  - rewrite (proj2 (Hl2 d) Hd2). by rewrite Hsw, JsMap_get_set_eq.
  - rewrite !elem_of_app, list_elem_of_singleton. auto.
Qed.

(** The two loops, for a configured domain whose accessory the cache gave
    back. *)
Lemma discovery_loops_restored rec l s d r a :
  keyed s →
  d ∈ l →
  JsMap.get (getUUID generate d) (accessories s) = Some r →
  objects s !! r = Some a →
  let s1 := foldl (λ s d, discoverDomain generate title rec d s) s l in
  let s' := foldl (λ s entry, forgetAccessory entry s) s1 (accessories s1) in
  let isOn := JsRecord.truthy_member d rec in
  JsMap.get (getUUID generate d) (BlockedDomainAccessories s')
  = Some (BlockedDomainAccessory.mk r isOn) ∧
  (∃ a', objects s' !! r = Some a' ∧ adopted a isOn a') ∧
  UpdatePlatformAccessories [r] ∈ host s'.
Proof.
  intros Hk0 Hd Hr Ha. cbv zeta.
  destruct (list_elem_of_split_r _ _ Hd) as (l1 & l2 & -> & Hd2).
  rewrite foldl_app. cbn [foldl].
  destruct (foldl_discoverDomain_adopts rec l1 s d r a Hk0 Hr Ha) as (a1 & Ha1 & Hrel).
  destruct (foldl_discoverDomain generate title rec l1 s Hk0) as (Hk1 & Hacc1 & _).
  cbv zeta in *.
  set (s1 := foldl _ s l1) in *.
  destruct (discoverDomain_restored rec d s1 r a1) as (Hsw & (a' & Ha' & Had) & Hhost & _);
    [by rewrite Hacc1|done|].
  cbv zeta in *.
  set (s1' := discoverDomain generate title rec d s1) in *.
  assert (Hk1' : keyed s1') by (by apply discoverDomain_keyed).
  assert (Hu : PlatformAccessory.UUID a' = getUUID generate d).
  { destruct Hk1' as [Hk1' _]. specialize (Hk1' (getUUID generate d) r).
    destruct (discoverDomain_untouched generate title rec d s1) as [Hacc _].
    fold s1' in Hacc. rewrite Hacc, Hacc1, Ha' in Hk1'. specialize (Hk1' Hr).
    by injection Hk1'. }
  destruct (foldl_discoverDomain generate title rec l2 s1' Hk1') as (_ & _ & _ & Hl2).
  destruct (foldl_discoverDomain_host rec l2 s1') as (calls & Hcalls & _).
  pose proof (foldl_discoverDomain_frame rec l2 s1' d _ _ Hk1' Hd2 Ha' Hu) as Hobj2.
  cbv zeta in *.
  set (s2 := foldl _ s1' l2) in *.
  destruct (foldl_forgetAccessory (accessories s2) s2) as (Ho & _ & Hb & _).
  destruct (foldl_forgetAccessory_host (accessories s2) s2) as [Hh _].
  cbv zeta in *.
  rewrite Hb, Ho, Hh, Hcalls, Hhost.
  split; [|split].
  - rewrite (proj2 (Hl2 d) Hd2). by rewrite Hsw, JsMap_get_set_eq.
  - exists a'. split; [done|].
    destruct Hrel as [->|[isOn Hrel]]; [done|]. by eapply adopted_again.
  - rewrite !elem_of_app, list_elem_of_singleton. auto.
Qed.

Lemma foldl_discoverDomain_accessories rec l s :
  accessories (foldl (λ s d, discoverDomain generate title rec d s) s l) = accessories s.
Proof.
  revert s. induction l as [|d0 l IH]; intros s; cbn; [done|].
  destruct (discoverDomain_untouched generate title rec d0 s) as [<- _]. apply IH.
Qed.

Lemma foldl_discoverDomain_config rec l s :
  config (foldl (λ s d, discoverDomain generate title rec d s) s l) = config s.
Proof.
  revert s. induction l as [|d0 l IH]; intros s; cbn; [done|].
  rewrite IH. apply discoverDomain_untouched.
Qed.

(** The calls of the two loops, in full. *)
Lemma discovery_loops_host rec l s :
  let s1 := foldl (λ s d, discoverDomain generate title rec d s) s l in
  let s' := foldl (λ s entry, forgetAccessory entry s) s1 (accessories s1) in
  ∃ calls,
    host s'
    = host s ++ calls
        ++ ((λ entry, UnregisterPlatformAccessories [entry.2])
              <$> filter (λ entry, entry.1 ∉ discoveredCacheUUIDs s
                                             ++ (getUUID generate <$> l))
                    (accessories s)) ∧
    Forall2 (discovery_call generate s) l calls ∧
    accessories s' = accessories s ∧
    discoveredCacheUUIDs s' = discoveredCacheUUIDs s ++ (getUUID generate <$> l).
Proof.
  cbv zeta.
  destruct (foldl_discoverDomain_host rec l s) as (calls & Hcalls & Hall & Hdisc).
  pose proof (foldl_discoverDomain_accessories rec l s) as Hacc.
  set (s1 := foldl _ s l) in *.
  destruct (foldl_forgetAccessory_host (accessories s1) s1) as [Hh Hd].
  destruct (foldl_forgetAccessory (accessories s1) s1) as (_ & Ha & _).
  cbv zeta in *.
  exists calls. rewrite Hh, Hd, Ha, Hcalls, Hdisc, Hacc, <- app_assoc. done.
Qed.

End Discovered.

Section Discovery_outcome.

Variable generate : string → string.
Context `{!Inj (=) (=) generate}.

Lemma discoverDevices_store title w o w2 :
  store (exec (continuation (exec (discoverDevices generate title) w) o) w2).2
  = add_log Debug "syncConfig called"
      (registerDevices generate title (outcome_data o) (outcome_log o (store w2))).
Proof. rewrite discoverDevices_resumed. reflexivity. Qed.

Lemma outcome_log_accessories o s : accessories (outcome_log o s) = accessories s.
Proof. by destruct o as [e|[[] st [|[|data]]]]. Qed.

Lemma outcome_log_objects o s : objects (outcome_log o s) = objects s.
Proof. by destruct o as [e|[[] st [|[|data]]]]. Qed.

Lemma outcome_log_host o s : host (outcome_log o s) = host s.
Proof. by destruct o as [e|[[] st [|[|data]]]]. Qed.

Lemma outcome_log_discovered o s :
  discoveredCacheUUIDs (outcome_log o s) = discoveredCacheUUIDs s.
Proof. by destruct o as [e|[[] st [|[|data]]]]. Qed.

Lemma discoverDevices_config title w o w2 :
  config (store (exec (continuation (exec (discoverDevices generate title) w) o) w2).2)
  = config (store w2).
Proof.
  rewrite discoverDevices_store, registerDevices_unfold. cbv zeta.
  change (config (add_log ?l ?m ?s)) with (config s).
  match goal with |- config (foldl _ ?s1 (accessories ?s1)) = _ =>
    destruct (foldl_forgetAccessory (accessories s1) s1) as (_ & _ & _ & ->)
  end.
  rewrite foldl_discoverDomain_config. apply (outcome_log_config o).
Qed.

(** Discovery, for a configured domain the cache does not hold; [title] is
    the title-casing. *)
Lemma discoverDevices_new title w o w2 d :
  keyed (store w2) →
  d ∈ default [] (blockedDomains (config (store w2))) →
  JsMap.get (getUUID generate d) (accessories (store w2)) = None →
  let after := store (exec (continuation (exec (discoverDevices generate title) w) o) w2).2 in
  let isOn := JsRecord.truthy_member d (blocked_record (outcome_denylist o)) in
  let displayName := title (first_label d +:+ " block") in
  ∃ accessory : ref,
    (length (objects (store w2)) ≤ accessory)%nat ∧
    JsMap.get (getUUID generate d) (BlockedDomainAccessories after)
    = Some (BlockedDomainAccessory.mk accessory isOn) ∧
    objects after !! accessory
    = Some (PlatformAccessory.mk displayName (getUUID generate d)
              (Context.mk (Some d) (Some displayName) (JSBool isOn))
              branded (Some {| On := false; Name := displayName |})) ∧
    RegisterPlatformAccessories [accessory] ∈ host after.
Proof.
  intros Hk Hd Hnew. cbv zeta. rewrite discoverDevices_store, registerDevices_unfold.
  rewrite outcome_log_config.
  destruct (discovery_loops_new generate title (blocked_record (outcome_denylist o))
              (default [] (blockedDomains (config (store w2))))
              (add_log Debug "nextDNSBlockedDomains" (outcome_log o (store w2))) d)
    as (accessory & Hlen & Hsw & Hobj & Hhost).
  - by apply (outcome_log_keyed o).
  - done.
  - by rewrite <- (outcome_log_accessories o) in Hnew.
  - exists accessory. cbv zeta in *.
    change (objects (add_log Debug "nextDNSBlockedDomains" ?s)) with (objects s) in Hlen.
    rewrite outcome_log_objects in Hlen. auto.
Qed.

(** Discovery, for a configured domain whose accessory the cache gave back. *)
Lemma discoverDevices_restored title w o w2 d r a :
  keyed (store w2) →
  d ∈ default [] (blockedDomains (config (store w2))) →
  JsMap.get (getUUID generate d) (accessories (store w2)) = Some r →
  objects (store w2) !! r = Some a →
  let after := store (exec (continuation (exec (discoverDevices generate title) w) o) w2).2 in
  let isOn := JsRecord.truthy_member d (blocked_record (outcome_denylist o)) in
  JsMap.get (getUUID generate d) (BlockedDomainAccessories after)
  = Some (BlockedDomainAccessory.mk r isOn) ∧
  (∃ a', objects after !! r = Some a' ∧ adopted a isOn a') ∧
  UpdatePlatformAccessories [r] ∈ host after.
Proof.
  intros Hk Hd Hr Ha. cbv zeta. rewrite discoverDevices_store, registerDevices_unfold.
  rewrite outcome_log_config.
  apply (discovery_loops_restored generate title (blocked_record (outcome_denylist o))
           (default [] (blockedDomains (config (store w2))))
           (add_log Debug "nextDNSBlockedDomains" (outcome_log o (store w2))) d r a).
  - by apply (outcome_log_keyed o).
  - done.
  - by rewrite <- (outcome_log_accessories o) in Hr.
  - by rewrite <- (outcome_log_objects o) in Ha.
Qed.

(** The switches of discovery: one turn of the loop sets the switch of its
    domain, and no other. *)
Lemma discoverDomain_keys title rec d s :
  ∃ handler,
    BlockedDomainAccessories (discoverDomain generate title rec d s)
    = JsMap.set (getUUID generate d) handler (BlockedDomainAccessories s).
Proof.
  unfold discoverDomain. destruct (JsMap.get _ (accessories s)); cbn; eauto.
Qed.

Lemma foldl_discoverDomain_keys title rec l s u :
  is_Some (JsMap.get u (BlockedDomainAccessories
                          (foldl (λ s d, discoverDomain generate title rec d s) s l)))
  ↔ is_Some (JsMap.get u (BlockedDomainAccessories s)) ∨ u ∈ getUUID generate <$> l.
Proof.
  revert s. induction l as [|d0 l IH]; intros s; cbn [foldl].
  - rewrite fmap_nil, elem_of_nil. tauto.
  - rewrite IH, fmap_cons, elem_of_cons.
    destruct (discoverDomain_keys title rec d0 s) as (handler & ->).
    destruct (decide (getUUID generate d0 = u)) as [<-|Hne].
    + rewrite JsMap_get_set_eq. split; [auto|]. intros _. left. eauto.
    + rewrite JsMap_get_set_ne by done. split; intros [?|?]; auto.
      destruct H as [?|?]; [congruence|auto].
Qed.

(** X4.  A configured domain that the host's cache does not hold gets a new
    accessory: its name is the title-cased first label followed by " block",
    its UUID is the one generated for the domain, its context holds the
    domain, the name and the flag read from the remote record, its
    information service is branded, its new switch service carries the name
    and an [On] characteristic at [false]; the switch of the domain stands
    for it, and it is registered with the host. *)
Theorem discoverDevices_creates w o w2 d :
  keyed (store w2) →
  d ∈ default [] (blockedDomains (config (store w2))) →
  JsMap.get (getUUID generate d) (accessories (store w2)) = None →
  let after :=
    store (exec (continuation (exec (discoverDevices generate toTitleCase) w) o) w2).2 in
  let isOn := JsRecord.truthy_member d (blocked_record (outcome_denylist o)) in
  ∃ accessory : ref,
    (length (objects (store w2)) ≤ accessory)%nat ∧
    JsMap.get (getUUID generate d) (BlockedDomainAccessories after)
    = Some (BlockedDomainAccessory.mk accessory isOn) ∧
    objects after !! accessory = Some (created generate d isOn) ∧
    RegisterPlatformAccessories [accessory] ∈ host after.
Proof.
  intros Hk Hd Hnew.
  destruct (discoverDevices_new toTitleCase w o w2 d Hk Hd Hnew)
    as (accessory & Hlen & Hsw & Hobj & Hhost).
  exists accessory. unfold created. auto.
Qed.

(** X5.  A configured domain whose accessory the host's cache gave back
    keeps that accessory: its name, UUID, [context.domain] and
    [context.displayName] are the cached ones, [context.isOn] is overwritten
    with the flag read from the remote record, the information service is
    branded, the [On] characteristic of its switch service is left as it came;
    the switch of the domain stands for it, and the host is told of the
    update. *)
Theorem discoverDevices_adopts w o w2 d r a :
  keyed (store w2) →
  d ∈ default [] (blockedDomains (config (store w2))) →
  JsMap.get (getUUID generate d) (accessories (store w2)) = Some r →
  objects (store w2) !! r = Some a →
  let after :=
    store (exec (continuation (exec (discoverDevices generate toTitleCase) w) o) w2).2 in
  let isOn := JsRecord.truthy_member d (blocked_record (outcome_denylist o)) in
  JsMap.get (getUUID generate d) (BlockedDomainAccessories after)
  = Some (BlockedDomainAccessory.mk r isOn) ∧
  (∃ a', objects after !! r = Some a' ∧ adopted a isOn a') ∧
  UpdatePlatformAccessories [r] ∈ host after.
Proof.
  intros Hk Hd Hr Ha. by apply discoverDevices_restored.
Qed.

(** X6.  The calls discovery makes to the host, whatever its read brought:
    one for each configured domain, in the order of the configuration (an
    update for an accessory of the cache, a registration of a new accessory
    otherwise), then one unregistration for each accessory of the cache whose
    UUID is that of no configured domain, in the order of the cache, and no
    other.  The platform's map of accessories is left as it was: the new
    accessories are not added to it and the unregistered ones stay in it. *)
Theorem discoverDevices_host_calls w o w2 :
  let after :=
    store (exec (continuation (exec (discoverDevices generate toTitleCase) w) o) w2).2 in
  let domains := default [] (blockedDomains (config (store w2))) in
  ∃ calls,
    host after
    = host (store w2) ++ calls
        ++ ((λ entry, UnregisterPlatformAccessories [entry.2])
              <$> filter (λ entry, entry.1 ∉ discoveredCacheUUIDs (store w2)
                                             ++ (getUUID generate <$> domains))
                    (accessories (store w2))) ∧
    Forall2 (discovery_call generate (store w2)) domains calls ∧
    accessories after = accessories (store w2).
Proof.
  cbv zeta. rewrite discoverDevices_store, registerDevices_unfold.
  rewrite outcome_log_config.
  destruct (discovery_loops_host generate toTitleCase (blocked_record (outcome_denylist o))
              (default [] (blockedDomains (config (store w2))))
              (add_log Debug "nextDNSBlockedDomains" (outcome_log o (store w2))))
    as (calls & Hh & Hall & Hacc & _).
  exists calls. cbv zeta in *.
  change (add_log Debug "syncConfig called" ?s) with (set_log (λ l, l ++ [(Debug, "syncConfig called")]) s).
  cbn [host set_log accessories].
  change (fetched_denylist (outcome_data o)) with (outcome_denylist o).
  rewrite Hh, Hacc.
  unfold discovery_call in *.
  change (accessories (add_log Debug "nextDNSBlockedDomains" ?s)) with (accessories s) in *.
  change (objects (add_log Debug "nextDNSBlockedDomains" ?s)) with (objects s) in *.
  change (host (add_log Debug "nextDNSBlockedDomains" ?s)) with (host s).
  change (discoveredCacheUUIDs (add_log Debug "nextDNSBlockedDomains" ?s))
    with (discoveredCacheUUIDs s).
  rewrite outcome_log_accessories, outcome_log_objects in Hall.
  rewrite outcome_log_accessories, outcome_log_host, outcome_log_discovered. auto.
Qed.


End Discovery_outcome.

Lemma idle_world_keyed cfg : keyed (store (idle_world cfg)).
Proof. split; intros u r [=]. Qed.

Lemma discoverDevices_creates_witness :
  ∃ accessory : ref,
    objects (store (exec (continuation
                            (exec (discoverDevices key_uuid toTitleCase)
                               (idle_world reddit_config))
                            (reddit true))
                      (idle_world reddit_config)).2) !! accessory
    = Some (created key_uuid "reddit.com"
              (JsRecord.truthy_member "reddit.com"
                 (blocked_record (outcome_denylist (reddit true))))).
Proof.
  destruct (discoverDevices_creates key_uuid (idle_world reddit_config) (reddit true)
              (idle_world reddit_config) "reddit.com"
              (idle_world_keyed reddit_config)
              (proj2 (list_elem_of_singleton "reddit.com" "reddit.com") eq_refl)
              eq_refl) as (accessory & _ & _ & Hobj & _).
  exists accessory. exact Hobj.
Defined.

Lemma discoverDevices_adopts_witness :
  JsMap.get (getUUID key_uuid "reddit.com")
    (BlockedDomainAccessories
       (store (exec (continuation
                       (exec (discoverDevices key_uuid toTitleCase) switch_world)
                       (reddit true))
                 switch_world).2))
  = Some (BlockedDomainAccessory.mk 0
            (JsRecord.truthy_member "reddit.com"
               (blocked_record (outcome_denylist (reddit true))))).
Proof.
  exact (proj1 (discoverDevices_adopts key_uuid switch_world (reddit true) switch_world
                  "reddit.com" 0 (reddit_cached reddit_uuid)
                  switch_store_keyed
                  (proj2 (list_elem_of_singleton "reddit.com" "reddit.com") eq_refl)
                  eq_refl eq_refl)).
Defined.


(** ** Ticks and presses *)

Lemma JsMap_set_same {V} (k : string) (v : V) (m : JsMap.t V) :
  JsMap.get k m = Some v → JsMap.set k v m = m.
Proof.
  induction m as [|[k' v'] m IH]; cbn; [done|].
  destruct (decide (k = k')) as [->|Hne]; [by intros [= ->]|].
  intros H. by rewrite IH.
Qed.

Lemma JsMap_set_accessory (k : string) (self : BlockedDomainAccessory.t) (b : bool)
    (m : JsMap.t BlockedDomainAccessory.t) :
  JsMap.get k m = Some self →
  (λ entry, (entry.1, BlockedDomainAccessory.accessory entry.2))
    <$> JsMap.set k (BlockedDomainAccessory.mk (BlockedDomainAccessory.accessory self) b) m
  = (λ entry, (entry.1, BlockedDomainAccessory.accessory entry.2)) <$> m.
Proof.
  induction m as [|[k' v'] m IH]; cbn; [done|].
  destruct (decide (k = k')) as [->|Hne]; cbn.
  - by intros [= ->].
  - intros H. by rewrite IH.
Qed.

Lemma assign_isOn_switch_table this value s :
  switch_table (assign_isOn this value s) = switch_table s.
Proof.
  unfold assign_isOn, switch_table.
  destruct (JsMap.get this (BlockedDomainAccessories s)) as [self|] eqn:Hself; [|done].
  cbn. by apply JsMap_set_accessory.
Qed.

Lemma set_BlockedDomainAccessories_same s :
  set_BlockedDomainAccessories (λ _, BlockedDomainAccessories s) s = s.
Proof. by destruct s. Qed.

(** One press: the value is stored, the mutator is started and left behind. *)
Lemma setOn_exec this value w self a :
  JsMap.get this (BlockedDomainAccessories (store w)) = Some self →
  objects (store w) !! BlockedDomainAccessory.accessory self = Some a →
  let domain := show (Context.domain (PlatformAccessory.context a)) in
  let w' := (exec (setOn this value) w).2 in
  (exec (setOn this value) w).1 = Fulfilled tt ∧
  store w' = assign_isOn this value (add_log Debug "setOn" (store w)) ∧
  JsMap.get this (BlockedDomainAccessories (store w'))
  = Some (BlockedDomainAccessory.mk (BlockedDomainAccessory.accessory self) value) ∧
  requests w' = requests w ++ [patch_request (config (store w)) domain value] ∧
  length (inflight w') = S (length (inflight w)) ∧
  unhandled w' = unhandled w.
Proof.
  intros Hself Ha. cbn zeta.
  unfold setOn, getOn, this_switch, this_domain, assign_isOn.
  do 4 (cbn; rewrite ?Hself, ?JsMap_get_set_eq, ?Ha).
  destruct value; cbn; rewrite ?JsMap_get_set_eq, ?length_app; cbn;
    rewrite ?Nat.add_1_r; auto 10.
Qed.

Section Ticks.

Variable generate : string → string.

Lemma syncEntry_switch_table e s :
  switch_table (syncEntry generate e s) = switch_table s.
Proof.
  unfold switch_table. rewrite syncEntry_switches.
  destruct (JsMap.get _ (BlockedDomainAccessories s)) as [self|] eqn:Hself; [|done].
  by apply JsMap_set_accessory.
Qed.

Lemma foldl_syncEntry_switch_table l s :
  switch_table (foldl (λ s e, syncEntry generate e s) s l) = switch_table s.
Proof.
  revert s. induction l as [|e l IH]; intros s; cbn; [done|].
  by rewrite IH, syncEntry_switch_table.
Qed.

(** X8.  Neither a tick, whatever its read brings, nor a Set from the host
    adds, removes, reorders or retargets a switch: the keys of
    [BlockedDomainAccessories] and the accessory behind each of them stay as
    they were; only [isOn] changes. *)
Theorem switch_table_stable :
  (∀ w o w2,
     switch_table (store (exec (continuation (exec (syncConfig generate) w) o) w2).2)
     = switch_table (store w2)) ∧
  (∀ this value w,
     switch_table (store (exec (setOn this value) w).2) = switch_table (store w)).
Proof.
  split.
  - intros w o w2.
    destruct o as [e|[[] st [|[|[| |[[l|]]]]]]]; try reflexivity.
    change (Responds _) with (fetched st l).
    rewrite syncConfig_fetched. cbn [snd store set_store].
    change (switch_table (set_timers ?f ?s)) with (switch_table s).
    apply foldl_syncEntry_switch_table.
  - intros this value w.
    transitivity (switch_table (assign_isOn this value (add_log Debug "setOn" (store w))));
      [|exact (assign_isOn_switch_table this value (add_log Debug "setOn" (store w)))].
    f_equal. unfold setOn, this_switch, this_domain, add_log. cbn.
    set (s1 := assign_isOn this value _).
    destruct (JsMap.get this (BlockedDomainAccessories s1)) as [self|] eqn:Hself;
      cbn; [|done].
    rewrite Hself. cbn.
    destruct (objects s1 !! BlockedDomainAccessory.accessory self) as [a|]; cbn; [|done].
    by destruct (BlockedDomainAccessory.isOn self).
Qed.

(** An entry that brings nothing new leaves the store as it is. *)
Lemma syncEntry_in_sync e s :
  JsMap.get "adf" (accessories s) = None →
  in_sync generate s e →
  syncEntry generate e s = s.
Proof.
  intros Hadf [Hsw Hon].
  set (u := getUUID generate (DenylistEntry.id e)) in *.
  assert (Hb : match JsMap.get u (BlockedDomainAccessories s) with
               | Some self =>
                   set_BlockedDomainAccessories
                     (JsMap.set u
                        (BlockedDomainAccessory.mk (BlockedDomainAccessory.accessory self)
                           (DenylistEntry.active e))) s
               | None => s
               end = s).
  { destruct (JsMap.get u (BlockedDomainAccessories s)) as [self|] eqn:Hself; [|done].
    rewrite <- (Hsw self eq_refl).
    replace (BlockedDomainAccessory.mk _ _) with self by (by destruct self).
    destruct s. unfold set_BlockedDomainAccessories. cbn in *. by rewrite JsMap_set_same. }
  unfold syncEntry. fold u. cbv zeta.
  destruct (JsMap.get u (accessories s)) as [r|] eqn:Hr.
  - destruct (getService_Switch r s) as [service|] eqn:Hservice.
    + rewrite (Hon r service eq_refl Hservice), Bool.eqb_reflx. cbn [negb].
      rewrite Hadf. exact Hb.
    + rewrite Hadf. exact Hb.
  - rewrite Hadf. exact Hb.
Qed.

(** X9.  A tick whose denylist brings nothing new (every entry agrees with
    the switch of its domain and with the [On] characteristic of the
    accessory the platform's map holds for it) changes nothing and logs
    nothing: it only sets the timer of the next tick. *)
Theorem syncConfig_in_sync w st l w2 :
  JsMap.get "adf" (accessories (store w2)) = None →
  Forall (in_sync generate (store w2)) l →
  exec (continuation (exec (syncConfig generate) w) (fetched st l)) w2
  = (Fulfilled tt, set_store (set_timers (λ t, t ++ [poll_timer]) (store w2)) w2).
Proof.
  intros Hadf Hall. rewrite syncConfig_fetched. do 3 f_equal.
  induction Hall as [|e l He _ IH]; cbn; [done|].
  by rewrite syncEntry_in_sync.
Qed.

End Ticks.

Lemma syncConfig_in_sync_witness :
  exec (continuation (exec (syncConfig key_uuid) switch_world)
          (fetched "OK" [DenylistEntry.mk "reddit.com" false]))
    switch_world
  = (Fulfilled tt,
     set_store (set_timers (λ t, t ++ [poll_timer]) (store switch_world)) switch_world).
Proof.
  apply (syncConfig_in_sync key_uuid switch_world "OK"
           [DenylistEntry.mk "reddit.com" false] switch_world eq_refl).
  constructor; [|constructor]. split.
  - intros self [= <-]. reflexivity.
  - intros r service [= <-] [= <-]. reflexivity.
Defined.

Section Last_entry.

Variable generate : string → string.
Context `{!Inj (=) (=) generate}.

(** A switch stays registered through the entries of a tick. *)
Lemma foldl_syncEntry_registered l s u self :
  JsMap.get u (BlockedDomainAccessories s) = Some self →
  ∃ isOn,
    JsMap.get u (BlockedDomainAccessories (foldl (λ s e, syncEntry generate e s) s l))
    = Some (BlockedDomainAccessory.mk (BlockedDomainAccessory.accessory self) isOn).
Proof.
  revert s self. induction l as [|e l IH]; intros s self Hself; cbn.
  - exists (BlockedDomainAccessory.isOn self). by destruct self.
  - destruct (decide (u = getUUID generate (DenylistEntry.id e))) as [->|Hne].
    + apply (IH _ _ (syncEntry_isOn generate e s self Hself)).
    + apply IH. by rewrite syncEntry_other_switch.
Qed.

(** The record of discovery reads, for a domain, the flag of its last entry. *)
Lemma truthy_member_last l l' d a :
  d ≠ "__proto__" →
  d ∉ DenylistEntry.id <$> l' →
  JsRecord.truthy_member d (blocked_record (l ++ DenylistEntry.mk d a :: l')) = a.
Proof.
  intros Hp Hd. unfold JsRecord.truthy_member, blocked_record.
  rewrite decide_False by done.
  rewrite foldl_app. cbn [foldl]. rewrite foldl_assign_absent by done.
  unfold JsRecord.assign at 1. cbn [DenylistEntry.id DenylistEntry.active].
  rewrite decide_False by done. by rewrite JsMap_get_set_eq.
Qed.

(** X10.  When the remote denylist lists a domain more than once, its last
    entry decides: discovery seeds the switch with the flag of the last entry
    (the domain not being named "__proto__"), and a tick leaves the switch
    with that flag. *)
Theorem denylist_last_entry_wins l l' d a st :
  d ∉ DenylistEntry.id <$> l' →
  let listed := fetched st (l ++ DenylistEntry.mk d a :: l') in
  (∀ w w2,
     keyed (store w2) →
     d ∈ default [] (blockedDomains (config (store w2))) →
     d ≠ "__proto__" →
     (exec (getOn (getUUID generate d))
        (exec (continuation (exec (discoverDevices generate toTitleCase) w) listed) w2).2).1
     = Fulfilled a) ∧
  (∀ w w2 self,
     JsMap.get (getUUID generate d) (BlockedDomainAccessories (store w2)) = Some self →
     (exec (getOn (getUUID generate d))
        (exec (continuation (exec (syncConfig generate) w) listed) w2).2).1
     = Fulfilled a).
Proof.
  intros Hd. cbv zeta. split.
  - intros w w2 Hk Hin Hp.
    rewrite discoverDevices_seeds by done.
    change (outcome_denylist (fetched st ?x)) with x.
    by rewrite truthy_member_last.
  - intros w w2 self Hself. rewrite syncConfig_fetched.
    unfold getOn, this_switch. cbn. rewrite foldl_app.
    destruct (foldl_syncEntry_registered l (store w2) _ self Hself) as (b & Hb).
    rewrite (foldl_syncEntry_present generate (DenylistEntry.mk d a :: l') _
               (getUUID generate d) _ a Hb); [reflexivity| |].
    + intros e [->|He]%elem_of_cons Hu; [reflexivity|].
      apply (getUUID_inj generate) in Hu. destruct Hd. rewrite <- Hu.
      by apply list_elem_of_fmap_2.
    + right. exists (DenylistEntry.mk d a). split; [by left|reflexivity].
Qed.

End Last_entry.

Lemma denylist_last_entry_wins_witness :
  (exec (getOn (getUUID key_uuid "reddit.com"))
     (exec (continuation (exec (syncConfig key_uuid) switch_world)
              (fetched "OK" [DenylistEntry.mk "reddit.com" false;
                             DenylistEntry.mk "reddit.com" true]))
        switch_world).2).1
  = Fulfilled true.
Proof.
  assert (Hd : "reddit.com" ∉ DenylistEntry.id <$> []) by (by intros ?%elem_of_nil).
  exact (proj2 (denylist_last_entry_wins key_uuid [DenylistEntry.mk "reddit.com" false] []
                  "reddit.com" true "OK" Hd)
           switch_world switch_world (BlockedDomainAccessory.mk 0 false) eq_refl).
Defined.

Section Edges.

Variable generate : string → string.

(** X11.  A success whose body parses and has no denylist to offer: when
    [data] is absent or [null] the tick does nothing and logs nothing; when
    [data] is there without a [denylist] the call of [forEach] on it raises,
    the tick catches that and logs "Failed to fetch profile:".  In each case no
    switch and no accessory changes, nothing is rejected or sent, and the
    timer of the next tick is set.  Discovery takes such a body for an empty
    denylist. *)
Theorem syncConfig_without_denylist w st data w2 :
  without_denylist data = true →
  let o := Responds {| ok := true; statusText := st; payload := Parsed (JsonValue data) |} in
  let r := exec (continuation (exec (syncConfig generate) w) o) w2 in
  r.1 = Fulfilled tt ∧
  log (store r.2)
  = log (store w2)
      ++ (match data with
          | Val _ => [(Warn, "Failed to fetch profile:")]
          | Null | Undefined => []
          end) ∧
  BlockedDomainAccessories (store r.2) = BlockedDomainAccessories (store w2) ∧
  objects (store r.2) = objects (store w2) ∧
  timers (store r.2) = timers (store w2) ++ [poll_timer] ∧
  unhandled r.2 = unhandled w2 ∧
  requests r.2 = requests w2 ∧
  outcome_denylist o = [].
Proof.
  intros Hdata. destruct data as [| |[[l|]]]; try discriminate; cbn;
    rewrite ?app_nil_r; auto 10.
Qed.

End Edges.

Lemma syncConfig_without_denylist_witness :
  log (store (exec (continuation (exec (syncConfig key_uuid) switch_world)
                      (Responds {| ok := true; statusText := "OK";
                                   payload := Parsed (JsonValue (Val {| denylist := None |})) |}))
                switch_world).2)
  = [(Warn, "Failed to fetch profile:")].
Proof.
  exact (proj1 (proj2 (syncConfig_without_denylist key_uuid switch_world "OK"
                         (Val {| denylist := None |}) switch_world eq_refl))).
Defined.

(** ** The mutators and the handlers *)

(** X12.  [blockDomain] logs one warning exactly when a request it sent was
    rejected, and nothing otherwise: a POST that is answered, be it with an
    error status, goes unnoticed.  Nothing else of the platform changes. *)
Theorem blockDomain_logs domain w patched posted :
  let r := run (blockDomain domain) w [patched; posted] in
  store r.2 = set_log (λ l, l ++ blockDomain_log patched posted) (store w) ∧
  unhandled r.2 = unhandled w ∧
  inflight r.2 = inflight w.
Proof.
  destruct w as [s q i u]. destruct s.
  destruct patched as [e|[[] st b]]; cbn; [| |destruct posted as [e|[? ? ?]]; cbn];
    unfold set_log; cbn; rewrite ?app_nil_r; auto.
Qed.

Section Presses.

Variable this : string.

(** X13.  Sets that follow one another are neither merged nor dropped: each
    sends its own PATCH, in order, and leaves one more request in flight; the
    switch answers the last value; the accessory objects, and with them the
    persisted [context.isOn], are not touched, and the host is not called. *)
Theorem setOn_presses values w self a :
  JsMap.get this (BlockedDomainAccessories (store w)) = Some self →
  objects (store w) !! BlockedDomainAccessory.accessory self = Some a →
  let domain := show (Context.domain (PlatformAccessory.context a)) in
  let w' := presses this values w in
  requests w' = requests w ++ (patch_request (config (store w)) domain <$> values) ∧
  (exec (getOn this) w').1
  = Fulfilled (default (BlockedDomainAccessory.isOn self) (last values)) ∧
  length (inflight w') = (length (inflight w) + length values)%nat ∧
  objects (store w') = objects (store w) ∧
  host (store w') = host (store w) ∧
  unhandled w' = unhandled w.
Proof.
  intros Hself Ha. cbv zeta. revert w self Hself Ha.
  induction values as [|value values IH]; intros w self Hself Ha.
  - cbn. unfold getOn, this_switch. cbn. rewrite Hself, app_nil_r, Nat.add_0_r. auto 10.
  - destruct (setOn_exec this value w self a Hself Ha) as (_ & Hs & Hsw & Hq & Hi & Hu).
    cbv zeta in *. unfold presses in *. cbn [foldl].
    set (w1 := (exec (setOn this value) w).2) in *.
    assert (Ho : objects (store w1) = objects (store w)).
    { rewrite Hs. unfold assign_isOn. by destruct (JsMap.get _ _). }
    assert (Hc : config (store w1) = config (store w)).
    { rewrite Hs. unfold assign_isOn. by destruct (JsMap.get _ _). }
    assert (Hh : host (store w1) = host (store w)).
    { rewrite Hs. unfold assign_isOn. by destruct (JsMap.get _ _). }
    destruct (IH w1 _ Hsw) as (Hq' & Hg' & Hi' & Ho' & Hh' & Hu'); [by rewrite Ho|].
    rewrite Hq', Hg', Hi', Ho', Hh', Hu', Hq, Hi, Hc, Ho, Hh, Hu.
    rewrite <- app_assoc, last_cons. cbn [BlockedDomainAccessory.isOn fmap list_fmap app length].
    split; [done|]. split; [by destruct (last values)|]. split; [lia|]. done.
Qed.

End Presses.

Lemma setOn_presses_witness :
  (exec (getOn reddit_uuid) (presses reddit_uuid [true; false; true] switch_world)).1
  = Fulfilled true.
Proof.
  exact (proj1 (proj2 (setOn_presses reddit_uuid [true; false; true] switch_world
                         (BlockedDomainAccessory.mk 0 false) (reddit_cached reddit_uuid)
                         eq_refl eq_refl))).
Defined.

Section Race.

Variable generate : string → string.
Context `{!Inj (=) (=) generate}.

(** X14.  The value stored by a Set does not outlive a tick that disagrees:
    when the denylist a tick reads lists the domain with one flag, the switch
    answers that flag after the tick, whatever was set while the read was in
    flight, the PATCH of that Set having been sent all the same. *)
Theorem setOn_overridden_by_tick d value w w0 st l flag self a :
  JsMap.get (getUUID generate d) (BlockedDomainAccessories (store w)) = Some self →
  objects (store w) !! BlockedDomainAccessory.accessory self = Some a →
  DenylistEntry.mk d flag ∈ l →
  (∀ e, e ∈ l → DenylistEntry.id e = d → DenylistEntry.active e = flag) →
  let this := getUUID generate d in
  let domain := show (Context.domain (PlatformAccessory.context a)) in
  let pressed := (exec (setOn this value) w).2 in
  let ticked := (exec (continuation (exec (syncConfig generate) w0) (fetched st l)) pressed).2 in
  (exec (getOn this) pressed).1 = Fulfilled value ∧
  (exec (getOn this) ticked).1 = Fulfilled flag ∧
  requests ticked = requests w ++ [patch_request (config (store w)) domain value].
Proof.
  intros Hself Ha Hin Hall. cbv zeta.
  destruct (setOn_exec (getUUID generate d) value w self a Hself Ha)
    as (_ & _ & Hsw & Hq & _). cbv zeta in *.
  split; [|split].
  - unfold getOn, this_switch. cbn -[setOn]. by rewrite Hsw.
  - by apply (syncConfig_sets_isOn generate w0 st l _ d flag _ Hsw).
  - destruct (syncConfig_resumed generate w0 (fetched st l) (exec (setOn (getUUID generate d) value) w).2)
      as (_ & _ & _ & _ & _ & Hq').
    cbv zeta in Hq'. by rewrite Hq', Hq.
Qed.

End Race.

Lemma setOn_overridden_by_tick_witness :
  (exec (getOn (getUUID key_uuid "reddit.com"))
     (exec (continuation (exec (syncConfig key_uuid) switch_world) (reddit false))
        (exec (setOn (getUUID key_uuid "reddit.com") true) switch_world).2).2).1
  = Fulfilled false.
Proof.
  assert (Hall : ∀ e, e ∈ [DenylistEntry.mk "reddit.com" false] →
                      DenylistEntry.id e = "reddit.com" → DenylistEntry.active e = false).
  { by intros e ->%list_elem_of_singleton. }
  exact (proj1 (proj2 (setOn_overridden_by_tick key_uuid "reddit.com" true switch_world
                         switch_world "OK" [DenylistEntry.mk "reddit.com" false] false
                         (BlockedDomainAccessory.mk 0 false) (reddit_cached reddit_uuid)
                         eq_refl eq_refl
                         (proj2 (list_elem_of_singleton _ _) eq_refl) Hall))).
Defined.

Section Discovered_switch.

Variable generate : string → string.
Context `{!Inj (=) (=) generate}.

(** X15.  The switch that discovery gives a configured domain toggles that
    domain: a Set on the switch of a domain the cache did not hold sends its
    PATCH to the entry of the configured domain; for an accessory of the
    cache the PATCH goes to the entry named by the [context.domain] that the
    cache gave back. *)
Theorem discovered_switch_patches w o w2 d value :
  keyed (store w2) →
  d ∈ default [] (blockedDomains (config (store w2))) →
  let after := (exec (continuation (exec (discoverDevices generate toTitleCase) w) o) w2).2 in
  let pressed := (exec (setOn (getUUID generate d) value) after).2 in
  match JsMap.get (getUUID generate d) (accessories (store w2)) with
  | None =>
      requests pressed = requests after ++ [patch_request (config (store w2)) d value]
  | Some r =>
      ∀ a, objects (store w2) !! r = Some a →
           requests pressed
           = requests after
               ++ [patch_request (config (store w2))
                     (show (Context.domain (PlatformAccessory.context a))) value]
  end.
Proof.
  intros Hk Hd. cbv zeta.
  destruct (JsMap.get (getUUID generate d) (accessories (store w2))) as [r|] eqn:Hr.
  - intros a Ha.
    destruct (discoverDevices_restored generate toTitleCase w o w2 d r a Hk Hd Hr Ha)
      as (Hsw & (a' & Ha' & Had) & _).
    destruct (setOn_exec (getUUID generate d) value _ _ a' Hsw Ha')
      as (_ & _ & _ & Hq & _).
    cbv zeta in Hq. rewrite Hq, (discoverDevices_config generate).
    destruct Had as (_ & _ & -> & _). done.
  - destruct (discoverDevices_new generate toTitleCase w o w2 d Hk Hd Hr)
      as (accessory & _ & Hsw & Hobj & _).
    destruct (setOn_exec (getUUID generate d) value _ _ _ Hsw Hobj)
      as (_ & _ & _ & Hq & _).
    cbv zeta in Hq. by rewrite Hq, (discoverDevices_config generate).
Qed.

End Discovered_switch.

Lemma discovered_switch_patches_witness :
  let after :=
    (exec (continuation (exec (discoverDevices key_uuid toTitleCase)
                           (idle_world reddit_config))
             (reddit false))
       (idle_world reddit_config)).2 in
  requests (exec (setOn (getUUID key_uuid "reddit.com") true) after).2
  = requests after ++ [patch_request reddit_config "reddit.com" true].
Proof.
  exact (discovered_switch_patches key_uuid (idle_world reddit_config) (reddit false)
           (idle_world reddit_config) "reddit.com" true
           (idle_world_keyed reddit_config)
           (proj2 (list_elem_of_singleton "reddit.com" "reddit.com") eq_refl)).
Defined.

(** ** Start-up *)

Lemma restore_frame a s :
  config (restore a s) = config s ∧ listeners (restore a s) = listeners s ∧
  timers (restore a s) = timers s ∧ host (restore a s) = host s ∧
  BlockedDomainAccessories (restore a s) = BlockedDomainAccessories s ∧
  discoveredCacheUUIDs (restore a s) = discoveredCacheUUIDs s.
Proof. unfold restore, configureAccessory. cbn. by rewrite lookup_app_last. Qed.

Lemma foldl_restore_frame cached s :
  let s' := foldl (λ s a, restore a s) s cached in
  config s' = config s ∧ listeners s' = listeners s ∧ timers s' = timers s ∧
  host s' = host s ∧ BlockedDomainAccessories s' = BlockedDomainAccessories s ∧
  discoveredCacheUUIDs s' = discoveredCacheUUIDs s.
Proof.
  revert s. induction cached as [|a cached IH]; intros s; cbn; [done|].
  destruct (IH (restore a s)) as (-> & -> & -> & -> & -> & ->). apply restore_frame.
Qed.

Lemma restore_keyed a s : keyed s → keyed (restore a s).
Proof.
  intros [Ha Hb]. unfold restore, configureAccessory. cbn.
  rewrite lookup_app_last. split; cbn.
  - intros u r. destruct (decide (PlatformAccessory.UUID a = u)) as [<-|Hne].
    + rewrite JsMap_get_set_eq. intros [= <-]. by rewrite lookup_app_last.
    + rewrite JsMap_get_set_ne by done. intros Hr. specialize (Ha _ _ Hr).
      rewrite lookup_app_l; [done|]. apply lookup_lt_is_Some.
      destruct (objects s !! r); [eauto|discriminate].
  - intros u self Hself. specialize (Hb _ _ Hself).
    rewrite lookup_app_l; [done|]. apply lookup_lt_is_Some.
    destruct (objects s !! _); [eauto|discriminate].
Qed.

Lemma foldl_restore_keyed cached s :
  keyed s → keyed (foldl (λ s a, restore a s) s cached).
Proof.
  revert s. induction cached as [|a cached IH]; intros s Hs; cbn; [done|].
  by apply IH, restore_keyed.
Qed.

Lemma launched_frame cfg cached :
  config (launched cfg cached) = cfg ∧
  listeners (launched cfg cached) = [DidFinishLaunching] ∧
  timers (launched cfg cached) = [] ∧ host (launched cfg cached) = [] ∧
  BlockedDomainAccessories (launched cfg cached) = [] ∧
  discoveredCacheUUIDs (launched cfg cached) = [].
Proof.
  exact (foldl_restore_frame cached
           (set_listeners (λ l, l ++ [DidFinishLaunching])
              (add_log Debug "Finished initializing platform:"
                 (add_log Debug "config" (new_platform cfg))))).
Qed.

Lemma launched_config cfg cached : config (launched cfg cached) = cfg.
Proof. apply launched_frame. Qed.

Lemma launched_keyed cfg cached : keyed (launched cfg cached).
Proof. apply foldl_restore_keyed. split; intros u r [=]. Qed.

Lemma outcome_log_timers o s : timers (outcome_log o s) = timers s.
Proof. by destruct o as [e|[[] st [|[|data]]]]. Qed.

Section Startup.

Variables (generate title : string → string).

Lemma registerDevices_timers data s :
  timers (registerDevices generate title data s) = timers s.
Proof.
  rewrite registerDevices_unfold. cbv zeta.
  change (timers s) with (timers (add_log Debug "nextDNSBlockedDomains" s)).
  generalize (add_log Debug "nextDNSBlockedDomains" s).
  generalize (default [] (blockedDomains (config s))). intros l s0.
  transitivity (timers (foldl (λ s d, discoverDomain generate title
                                        (blocked_record (fetched_denylist data)) d s) s0 l)).
  - generalize (foldl (λ s d, discoverDomain generate title
                                (blocked_record (fetched_denylist data)) d s) s0 l).
    intros s1. generalize (accessories s1). intros m. revert s1.
    induction m as [|[u r] m IH]; intros s1; cbn [foldl]; [done|].
    rewrite IH. unfold forgetAccessory. by case_bool_decide.
  - revert s0. induction l as [|d0 l IH]; intros s0; cbn [foldl]; [done|].
    rewrite IH. unfold discoverDomain. by destruct (JsMap.get _ (accessories s0)).
Qed.

(** The world when start-up is over, the credentials being there. *)
Lemma boot_launched cfg cached :
  falsy (apiKey cfg) || falsy (profileId cfg) = false →
  let s := add_log Debug "Executed didFinishLaunching callback" (launched cfg cached) in
  let w0 := {| store := s; requests := []; inflight := []; unhandled := [] |} in
  boot generate title cfg cached
  = (Fulfilled tt,
     {| store := s;
        requests := [profile_request (apiKey cfg) (profileId cfg)];
        inflight := [continuation (exec (discoverDevices generate title) w0)];
        unhandled := [] |}).
Proof.
  intros Hok. unfold boot, NextDNSPlatform_constructor. cbn. rewrite Hok. cbn.
  fold (add_log Debug "config" (new_platform cfg)).
  fold (add_log Debug "Finished initializing platform:" (add_log Debug "config" (new_platform cfg))).
  fold (launched cfg cached).
  unfold didFinishLaunching. cbn [store set_store].
  destruct (launched_frame cfg cached) as (Hc & Hl & _).
  rewrite Hl. cbn. by rewrite Hc.
Qed.

(** X16.  The constructor takes a credential for missing when it is falsy:
    absent, or the empty string.  Start-up then sends nothing and registers
    no listener; with both credentials there it registers the listener and
    start-up ends with one request sent, the read of the profile with the key
    in its [x-api-key] header, and one task waiting for it.  Its promise is
    fulfilled either way. *)
Theorem boot_requests cfg cached :
  let r := boot generate title cfg cached in
  let missing := falsy (apiKey cfg) || falsy (profileId cfg) in
  r.1 = Fulfilled tt ∧
  requests r.2
  = (if missing then [] else [profile_request (apiKey cfg) (profileId cfg)]) ∧
  length (inflight r.2) = (if missing then 0 else 1)%nat ∧
  listeners (store r.2) = (if missing then [] else [DidFinishLaunching]) ∧
  unhandled r.2 = [].
Proof.
  cbv zeta. destruct (falsy (apiKey cfg) || falsy (profileId cfg)) eqn:Hmissing.
  - unfold boot, NextDNSPlatform_constructor. cbn. rewrite Hmissing. cbn.
    match goal with |- context [foldl _ ?s0 cached] =>
      destruct (foldl_restore_frame cached s0) as (_ & Hl & _)
    end.
    cbv zeta in Hl. unfold didFinishLaunching. cbn [store set_store]. rewrite Hl. cbn.
    by rewrite Hl.
  - rewrite boot_launched by done. cbn.
    by destruct (launched_frame cfg cached) as (_ & -> & _).
Qed.

Context `{!Inj (=) (=) generate}.


End Startup.


(** ** What never happens *)

Lemma quiet_may {A} (t : Async A) throws : quiet false t → quiet throws t.
Proof.
  intros Ht. remember false as b eqn:Hb. revert Hb.
  induction Ht; intros Hb; subst; try discriminate; constructor; auto.
Qed.

Lemma quiet_bind {A B} (t : Async A) (f : A → Async B) throws :
  quiet throws t → (∀ a, quiet throws (f a)) → quiet throws (bind t f).
Proof.
  intros Ht Hf. induction Ht; cbn; try (constructor; auto; fail); auto.
Qed.

Lemma quiet_try_catch {A} (t : Async A) (h : Exn → Async A) may throws :
  quiet may t → (∀ e, quiet throws (h e)) → quiet throws (try_catch t h).
Proof.
  intros Ht Hh. induction Ht; cbn; try (constructor; auto; fail); auto.
Qed.

Lemma quiet_modify (f : Store → Store) throws : quiet throws (modify f).
Proof. repeat constructor. Qed.

Lemma quiet_gets {A} (f : Store → A) throws : quiet throws (gets f).
Proof. repeat constructor. Qed.

Lemma quiet_log lvl msg throws : quiet throws (log_ lvl msg).
Proof. apply quiet_modify. Qed.

Lemma quiet_fetch req : quiet true (fetch req).
Proof. constructor. intros [e|r]; constructor. Qed.

Lemma quiet_forEach {A} (l : list A) (f : A → Async unit) throws :
  (∀ x, quiet false (f x)) → quiet throws (forEach l f).
Proof. intros Hf. induction l; cbn; constructor; auto. Qed.

(** Running a quiet computation in a calm world leaves a calm world. *)
Lemma exec_quiet {A} (t : Async A) throws :
  quiet throws t → ∀ w, calm w →
  calm (exec t w).2 ∧
  match (exec t w).1 with
  | Pending k => ∀ o, quiet throws (k o)
  | Rejected _ => throws = true
  | Fulfilled _ => True
  end.
Proof.
  induction 1 as [b A a|A e|b A k Hk IH|b A s k Hk IH|b A req k Hk IH|b A t k Ht IHt Hk IHk];
    intros w [Hu Hin]; cbn.
  - by split.
  - by split.
  - by apply IH.
  - by apply IH.
  - by split.
  - apply IHk. destruct (IHt w (conj Hu Hin)) as [[Hu' Hin'] Hp].
    destruct (exec t w) as [[[]|e|k'] w']; cbn in *; try discriminate; split; auto.
    apply Forall_app. split; [done|]. by constructor.
Qed.

Lemma detach_quiet (t : Async unit) w : quiet false t → calm w → calm (detach (exec t w)).
Proof.
  intros Ht Hw. destruct (exec_quiet t false Ht w Hw) as [[Hu Hin] Hp].
  destruct (exec t w) as [[[]|e|k] w']; cbn in *; try discriminate; split; auto.
  apply Forall_app. split; [done|]. by constructor.
Qed.

Lemma keeps_bind P Q {A B} (t : Async A) (f : A → Async B) :
  keeps P Q t → (∀ a, keeps P Q (f a)) → keeps P Q (bind t f).
Proof.
  intros Ht Hf. induction Ht; cbn; try (constructor; auto; fail). apply Hf.
Qed.

Lemma keeps_try_catch P Q {A} (t : Async A) (h : Exn → Async A) :
  keeps P Q t → (∀ e, keeps P Q (h e)) → keeps P Q (try_catch t h).
Proof.
  intros Ht Hh. induction Ht; cbn; try (constructor; auto; fail). apply Hh.
Qed.

Lemma keeps_modify P Q (f : Store → Store) :
  (∀ s, P s → P (f s)) → keeps P Q (modify f).
Proof. intros Hf. constructor. intros s Hs. constructor; [by apply Hf | constructor]. Qed.

(** [const x = f(store); ...]: what follows may rely on the store that was
    read. *)
Lemma keeps_gets P Q {A B} (g : Store → A) (f : A → Async B) :
  (∀ s, P s → keeps P Q (f (g s))) → keeps P Q (bind (gets g) f).
Proof. intros Hf. cbn. constructor. exact Hf. Qed.

Lemma keeps_fetch P Q req : Q req → keeps P Q (fetch req).
Proof. intros Hreq. constructor; [exact Hreq|]. intros [e|r]; constructor. Qed.

Lemma keeps_forEach P Q {A} (l : list A) (f : A → Async unit) :
  (∀ x, keeps P Q (f x)) → keeps P Q (forEach l f).
Proof. intros Hf. induction l; cbn; constructor; auto. Qed.

Lemma exec_keeps P Q {A} (t : Async A) :
  keeps P Q t → ∀ w, kept P Q w →
  kept P Q (exec t w).2 ∧
  match (exec t w).1 with
  | Pending k => ∀ o, keeps P Q (k o)
  | _ => True
  end.
Proof.
  induction 1 as [A a|A e|A k Hk IH|A s k Hs Hk IH|A req k Hreq Hk IH|A t k Ht IHt Hk IHk];
    intros w (Hw & Hq & Hin); cbn.
  - by split.
  - by split.
  - by apply IH.
  - by apply IH.
  - split; [|done]. split; [done|]. split; [|done].
    apply Forall_app. split; [done|]. by constructor.
  - apply IHk. destruct (IHt w (conj Hw (conj Hq Hin))) as [(Hw' & Hq' & Hin') Hp].
    destruct (exec t w) as [[[]|e|k'] w']; cbn in *; repeat split; auto.
    apply Forall_app. split; [done|]. by constructor.
Qed.

Lemma detach_keeps P Q (t : Async unit) w :
  keeps P Q t → kept P Q w → kept P Q (detach (exec t w)).
Proof.
  intros Ht Hw. destruct (exec_keeps P Q t Ht w Hw) as [(Hs & Hq & Hin) Hp].
  destruct (exec t w) as [[[]|e|k] w']; cbn in *; repeat split; auto.
  apply Forall_app. split; [done|]. by constructor.
Qed.

Section Never.

Variables (generate title : string → string).

(** *** No rejection goes unhandled *)

Lemma quiet_getNextDNSProfileData apiKey profileId :
  quiet false (getNextDNSProfileData apiKey profileId).
Proof.
  unfold getNextDNSProfileData.
  apply (quiet_try_catch _ _ true);
    [|intros _; apply quiet_bind; [apply quiet_log|intros _; constructor]].
  apply quiet_bind; [apply quiet_fetch|].
  intros [[] st b]; cbn [negb ok];
    [|apply quiet_bind; [apply quiet_log|intros _; constructor]].
  apply quiet_bind; [destruct b as [|j]; constructor|].
  intros [|d]; constructor.
Qed.

Lemma quiet_syncConfig : quiet false (syncConfig generate).
Proof.
  unfold syncConfig. apply quiet_bind; [apply quiet_log|]. intros _.
  apply quiet_bind; [|intros _; apply quiet_modify].
  apply (quiet_try_catch _ _ true); [|intros _; apply quiet_log].
  apply quiet_bind; [apply quiet_gets|]. intros cfg.
  apply quiet_bind; [apply quiet_may, quiet_getNextDNSProfileData|].
  intros [| |[[l|]]]; try constructor.
  apply quiet_forEach. intros e. apply quiet_modify.
Qed.

Lemma quiet_discoverDevices : quiet false (discoverDevices generate title).
Proof.
  unfold discoverDevices. apply quiet_bind; [apply quiet_gets|]. intros cfg.
  apply quiet_bind; [apply quiet_getNextDNSProfileData|]. intros data.
  apply quiet_bind; [apply quiet_modify|]. intros _.
  constructor; [|constructor]. constructor; [apply quiet_syncConfig|constructor].
Qed.

Lemma quiet_blockDomain domain : quiet false (blockDomain domain).
Proof.
  unfold blockDomain. apply (quiet_try_catch _ _ true); [|intros _; apply quiet_log].
  apply quiet_bind; [apply quiet_gets|]. intros cfg.
  apply quiet_bind; [apply quiet_fetch|]. intros [[] st b]; cbn [negb ok]; [by constructor|].
  apply quiet_bind; [apply quiet_gets|]. intros cfg'.
  apply quiet_bind; [apply quiet_fetch|]. intros _. constructor.
Qed.

Lemma quiet_unblockDomain domain : quiet false (unblockDomain domain).
Proof.
  unfold unblockDomain. apply (quiet_try_catch _ _ true); [|intros _; apply quiet_log].
  apply quiet_bind; [apply quiet_gets|]. intros cfg.
  apply quiet_bind; [apply quiet_fetch|]. intros _. constructor.
Qed.

Lemma quiet_this_switch this : quiet true (this_switch this).
Proof.
  unfold this_switch. apply quiet_bind; [repeat constructor|].
  intros s. case_match; constructor.
Qed.

Lemma quiet_getOn this : quiet true (getOn this).
Proof.
  unfold getOn. apply quiet_bind; [apply quiet_this_switch|]. intros self. constructor.
Qed.

Lemma quiet_setOn this value : quiet true (setOn this value).
Proof.
  unfold setOn. apply quiet_bind; [apply quiet_log|]. intros _.
  apply quiet_bind; [apply quiet_modify|]. intros _.
  apply quiet_bind; [apply quiet_this_switch|]. intros self.
  apply quiet_bind.
  - unfold this_domain. apply quiet_bind; [apply quiet_this_switch|]. intros self'.
    apply quiet_bind; [repeat constructor|].
    intros s. case_match; constructor.
  - intros domain. destruct (BlockedDomainAccessory.isOn self); constructor;
      first [apply quiet_blockDomain | apply quiet_unblockDomain | constructor].
Qed.

Lemma step_calm e w : calm w → calm (step generate e w).
Proof.
  intros Hw. destruct e as [i o|i|this value|this]; unfold step.
  - destruct Hw as [Hu Hin]. unfold deliver.
    destruct (inflight w !! i) as [k|] eqn:Hk; [|by split].
    apply detach_quiet.
    + by apply (Forall_lookup_1 _ _ _ _ Hin Hk).
    + split; [exact Hu|]. cbn. by apply Forall_delete.
  - destruct Hw as [Hu Hin]. unfold fire.
    destruct (timers (store w) !! i) as [[[] ms]|]; [|by split]. cbn [callback].
    apply detach_quiet; [apply quiet_syncConfig|]. by split.
  - apply (exec_quiet _ _ (quiet_setOn this value) w Hw).
  - apply (exec_quiet _ _ (quiet_getOn this) w Hw).
Qed.

Lemma boot_calm cfg cached : calm (boot generate title cfg cached).2.
Proof.
  unfold boot.
  assert (Hc : quiet false NextDNSPlatform_constructor).
  { unfold NextDNSPlatform_constructor. apply quiet_bind; [apply quiet_log|]. intros _.
    apply quiet_bind; [apply quiet_gets|]. intros c.
    destruct (falsy _ || falsy _); [apply quiet_log|].
    apply quiet_bind; [apply quiet_log|]. intros _. apply quiet_modify. }
  destruct (exec_quiet _ _ Hc (idle_world cfg)) as [[Hu Hin] _]; [by split; [|constructor]|].
  fold (idle_world cfg).
  destruct (exec NextDNSPlatform_constructor (idle_world cfg)) as [r w].
  cbn [fst snd] in *.
  unfold didFinishLaunching. cbn [store set_store].
  generalize (listeners (foldl (λ s a, restore a s) (store w) cached)). intros ls.
  assert (Hw : calm (set_store (foldl (λ s a, restore a s) (store w) cached) w)) by (by split).
  revert Hw. generalize (set_store (foldl (λ s a, restore a s) (store w) cached) w).
  induction ls as [|[] ls IH]; intros w' Hw'; cbn [foldl]; [done|].
  apply IH. apply detach_quiet; [|done].
  apply quiet_bind; [apply quiet_log|]. intros _.
  constructor; [apply quiet_discoverDevices | constructor].
Qed.


(** *** What is kept *)

Section Kept.

Variable P : Store → Prop.
Variable Q : Request → Prop.
Hypothesis P_log : ∀ f s, P s → P (set_log f s).
Hypothesis P_setTimeout : ∀ s, P s → P (set_timers (λ t, t ++ [poll_timer]) s).
Hypothesis P_fire : ∀ i s, P s → P (set_timers (delete i) s).
Hypothesis P_syncEntry : ∀ e s, P s → P (syncEntry generate e s).
Hypothesis P_registerDevices : ∀ data s, P s → P (registerDevices generate title data s).
Hypothesis P_assign_isOn : ∀ this value s, P s → P (assign_isOn this value s).
Hypothesis Q_profile :
  ∀ s, P s → Q (profile_request (apiKey (config s)) (profileId (config s))).
Hypothesis Q_patch : ∀ s domain active, P s → Q (patch_request (config s) domain active).
Hypothesis Q_post : ∀ s domain, P s → Q (post_request (config s) domain).

Lemma keeps_log lvl msg : keeps P Q (log_ lvl msg).
Proof. apply keeps_modify. intros s. apply P_log. Qed.

Lemma keeps_getNextDNSProfileData apiKey profileId :
  Q (profile_request apiKey profileId) →
  keeps P Q (getNextDNSProfileData apiKey profileId).
Proof.
  intros Hreq. unfold getNextDNSProfileData.
  apply keeps_try_catch;
    [|intros _; apply keeps_bind; [apply keeps_log|intros _; constructor]].
  apply keeps_bind; [by apply keeps_fetch|].
  intros [[] st b]; cbn [negb ok];
    [|apply keeps_bind; [apply keeps_log|intros _; constructor]].
  apply keeps_bind; [destruct b as [|j]; constructor|].
  intros [|d]; constructor.
Qed.

Lemma keeps_syncConfig : keeps P Q (syncConfig generate).
Proof.
  unfold syncConfig. apply keeps_bind; [apply keeps_log|]. intros _.
  apply keeps_bind; [|intros _; apply keeps_modify; intros s; apply P_setTimeout].
  apply keeps_try_catch; [|intros _; apply keeps_log].
  apply keeps_gets. intros s Hs.
  apply keeps_bind; [by apply keeps_getNextDNSProfileData, Q_profile|].
  intros [| |[[l|]]]; try constructor.
  apply keeps_forEach. intros e. apply keeps_modify. apply P_syncEntry.
Qed.

Lemma keeps_discoverDevices : keeps P Q (discoverDevices generate title).
Proof.
  unfold discoverDevices. apply keeps_gets. intros s Hs.
  apply keeps_bind; [by apply keeps_getNextDNSProfileData, Q_profile|]. intros data.
  apply keeps_bind; [apply keeps_modify, P_registerDevices|]. intros _.
  constructor; [|constructor]. constructor; [apply keeps_syncConfig|constructor].
Qed.

Lemma keeps_blockDomain domain : keeps P Q (blockDomain domain).
Proof.
  unfold blockDomain. apply keeps_try_catch; [|intros _; apply keeps_log].
  apply keeps_gets. intros s Hs.
  apply keeps_bind; [by apply keeps_fetch, Q_patch|].
  intros [[] st b]; cbn [negb ok]; [by constructor|].
  apply keeps_gets. intros s' Hs'.
  apply keeps_bind; [by apply keeps_fetch, Q_post|]. intros _. constructor.
Qed.

Lemma keeps_unblockDomain domain : keeps P Q (unblockDomain domain).
Proof.
  unfold unblockDomain. apply keeps_try_catch; [|intros _; apply keeps_log].
  apply keeps_gets. intros s Hs.
  apply keeps_bind; [by apply keeps_fetch, Q_patch|]. intros _. constructor.
Qed.

Lemma keeps_this_switch this : keeps P Q (this_switch this).
Proof.
  unfold this_switch. apply keeps_bind; [constructor; intros s _; constructor|].
  intros s. case_match; constructor.
Qed.

Lemma keeps_getOn this : keeps P Q (getOn this).
Proof.
  unfold getOn. apply keeps_bind; [apply keeps_this_switch|]. intros self. constructor.
Qed.

Lemma keeps_setOn this value : keeps P Q (setOn this value).
Proof.
  unfold setOn. apply keeps_bind; [apply keeps_log|]. intros _.
  apply keeps_bind; [apply keeps_modify, P_assign_isOn|]. intros _.
  apply keeps_bind; [apply keeps_this_switch|]. intros self.
  apply keeps_bind.
  - unfold this_domain. apply keeps_bind; [apply keeps_this_switch|]. intros self'.
    apply keeps_bind; [constructor; intros s _; constructor|].
    intros s. case_match; constructor.
  - intros domain. destruct (BlockedDomainAccessory.isOn self); constructor;
      first [apply keeps_blockDomain | apply keeps_unblockDomain | constructor].
Qed.

Lemma step_kept e w : kept P Q w → kept P Q (step generate e w).
Proof.
  intros Hw. destruct e as [i o|i|this value|this]; unfold step.
  - destruct Hw as (Hs & Hq & Hin). unfold deliver.
    destruct (inflight w !! i) as [k|] eqn:Hk; [|by repeat split].
    apply detach_keeps.
    + by apply (Forall_lookup_1 _ _ _ _ Hin Hk).
    + split; [exact Hs|]. split; [exact Hq|]. cbn. by apply Forall_delete.
  - destruct Hw as (Hs & Hq & Hin). unfold fire.
    destruct (timers (store w) !! i) as [[[] ms]|]; [|by repeat split]. cbn [callback].
    apply detach_keeps; [apply keeps_syncConfig|].
    split; [|by split]. cbn. by apply P_fire.
  - apply (exec_keeps _ _ _ (keeps_setOn this value) w Hw).
  - apply (exec_keeps _ _ _ (keeps_getOn this) w Hw).
Qed.

Lemma didFinishLaunching_kept w :
  kept P Q w → kept P Q (didFinishLaunching generate title w).
Proof.
  unfold didFinishLaunching. generalize (listeners (store w)). intros ls. revert w.
  induction ls as [|[] ls IH]; intros w Hw; cbn [foldl]; [exact Hw|].
  apply IH. apply detach_keeps; [|exact Hw].
  apply keeps_bind; [apply keeps_log|]. intros _.
  constructor; [apply keeps_discoverDevices | constructor].
Qed.

Lemma reach_kept cfg cached events :
  P (foldl (λ s a, restore a s)
       (store (exec NextDNSPlatform_constructor (idle_world cfg)).2) cached) →
  kept P Q (reach generate title cfg cached events).
Proof.
  intros HP. unfold reach.
  assert (Hboot : kept P Q (boot generate title cfg cached).2).
  { unfold boot. fold (idle_world cfg).
    assert (Hin : inflight (exec NextDNSPlatform_constructor (idle_world cfg)).2 = [] ∧
                  requests (exec NextDNSPlatform_constructor (idle_world cfg)).2 = []).
    { unfold NextDNSPlatform_constructor. cbn. by destruct (falsy _ || falsy _). }
    destruct (exec NextDNSPlatform_constructor (idle_world cfg)) as [r w].
    cbn [fst snd] in *. destruct Hin as [Hin Hq].
    apply didFinishLaunching_kept. split; [exact HP|].
    cbn. rewrite Hin, Hq. split; constructor. }
  revert Hboot. generalize (boot generate title cfg cached).2.
  induction events as [|e events IH]; intros w Hw; cbn; [apply Hw|].
  apply IH. by apply step_kept.
Qed.

End Kept.

Lemma foldl_restore_accessories cached s s' :
  accessories s = accessories s' → objects s = objects s' →
  accessories (foldl (λ s a, restore a s) s cached)
  = accessories (foldl (λ s a, restore a s) s' cached).
Proof.
  revert s s'. induction cached as [|a cached IH]; intros s s' Ha Ho; cbn; [done|].
  apply IH; unfold restore, configureAccessory; cbn;
    rewrite !lookup_app_last; cbn; by rewrite ?Ha, ?Ho.
Qed.

(** The platform's map, its configuration, its timers and its requests, in
    every world the plugin can be in. *)
Lemma reach_settled cfg cached events :
  kept (settled (accessories (foldl (λ s a, restore a s) (new_platform cfg) cached)) cfg)
    (plugin_request cfg)
    (reach generate title cfg cached events).
Proof.
  apply reach_kept.
  - by intros f s.
  - intros s (Ha & Hc & Ht). split; [done|]. split; [done|]. cbn.
    apply Forall_app. split; [done|]. by constructor.
  - intros i s (Ha & Hc & Ht). split; [done|]. split; [done|]. cbn.
    by apply Forall_delete.
  - intros e s (Ha & Hc & Ht).
    destruct (syncEntry_untouched generate e s) as (Hc' & Ha' & _ & _ & _ & Ht').
    split; [congruence|]. split; [congruence|]. by rewrite Ht'.
  - intros data s (Ha & Hc & Ht). rewrite registerDevices_unfold. cbv zeta.
    match goal with |- settled _ _ (foldl _ ?s1 (accessories ?s1)) =>
      destruct (foldl_forgetAccessory (accessories s1) s1) as (_ & Ha2 & _ & Hc2)
    end.
    cbv zeta in *. split; [|split].
    + by rewrite Ha2, foldl_discoverDomain_accessories.
    + by rewrite Hc2, foldl_discoverDomain_config.
    + pose proof (registerDevices_timers generate title data s) as Htimers.
      rewrite registerDevices_unfold in Htimers. cbv zeta in Htimers.
      by rewrite Htimers.
  - intros this value s (Ha & Hc & Ht). unfold assign_isOn. by destruct (JsMap.get _ _).
  - intros s (_ & -> & _). by left.
  - intros s domain active (_ & -> & _). right; left. eauto.
  - intros s domain (_ & -> & _). right; right. eauto.
  - split; [|split].
    + apply foldl_restore_accessories;
        unfold NextDNSPlatform_constructor; cbn; by destruct (falsy _ || falsy _).
    + match goal with |- config (foldl _ ?s0 cached) = _ =>
        destruct (foldl_restore_frame cached s0) as (-> & _)
      end.
      unfold NextDNSPlatform_constructor. cbn. by destruct (falsy _ || falsy _).
    + match goal with |- Forall _ (timers (foldl _ ?s0 cached)) =>
        destruct (foldl_restore_frame cached s0) as (_ & _ & -> & _)
      end.
      unfold NextDNSPlatform_constructor. cbn. destruct (falsy _ || falsy _); constructor.
Qed.

(** X19.  After start-up nothing writes the platform's map of accessories or
    its configuration: whatever happens, the map is the one
    [configureAccessory] built from the host's cache.  The accessories that
    discovery creates never enter it, and those it unregisters never leave
    it. *)
Theorem reach_accessories_fixed cfg cached events :
  let s := store (reach generate title cfg cached events) in
  accessories s = accessories (foldl (λ s a, restore a s) (new_platform cfg) cached) ∧
  config s = cfg.
Proof.
  cbv zeta. destruct (reach_settled cfg cached events) as ((Ha & Hc & _) & _). auto.
Qed.


End Never.

(** ** The earlier revision of platform.ts *)

Section Earlier.

Variables (generate title : string → string).

(** X21.  The tick of the earlier revision reads the body whatever the
    status of the response: when the body parses and has a denylist, it does
    to the platform exactly what the tick of the later revision does on a
    success with that denylist. *)
Theorem Legacy_syncConfig_agrees w o l st :
  legacy_denylist o = Some l →
  run (Legacy.syncConfig generate) w [o] = run (syncConfig generate) w [fetched st l].
Proof.
  intros Ho. destruct o as [e|[okr st' [|[|[| |[[l'|]]]]]]]; try discriminate.
  injection Ho as ->. unfold run. cbn [foldl].
  rewrite syncConfig_suspends. cbn [resume]. rewrite syncConfig_fetched.
  unfold Legacy.syncConfig. cbn -[forEach]. unfold mbind, Async_bind.
  rewrite exec_forEach_modify. reflexivity.
Qed.

(** X22.  In the earlier revision a read that brings no denylist (a network
    error, a body that does not parse or has no [data.denylist]) kills the
    loop: the promise of the tick is rejected before the timer is set, nobody
    handles the rejection, no timer and no request is left behind. *)
Theorem Legacy_syncConfig_dies w o :
  legacy_denylist o = None →
  let w' := detach (run (Legacy.syncConfig generate) w [o]) in
  (∃ e, unhandled w' = unhandled w ++ [e]) ∧
  timers (store w') = timers (store w) ∧
  inflight w' = inflight w ∧
  BlockedDomainAccessories (store w') = BlockedDomainAccessories (store w) ∧
  objects (store w') = objects (store w).
Proof.
  intros Ho. destruct o as [e|[okr st' [|[|[| |[[l'|]]]]]]]; try discriminate;
    cbn; eauto 10.
Qed.

(** X23.  Discovery in the earlier revision: when the body of the read parses
    and has a denylist, whatever the status, it leaves the store and the
    requests that discovery of the later revision leaves on a success with
    that denylist; when the read brings no denylist its promise is rejected
    and the plugin is left with nothing: the store is as it was (no switch,
    no call to the host), and nothing is pending, so that no tick will ever
    run. *)
Theorem Legacy_discoverDevices_outcome w o :
  let r := run (Legacy.discoverDevices generate title) w [o] in
  match legacy_denylist o with
  | Some l =>
      ∀ st,
        let r' := run (discoverDevices generate title) w [fetched st l] in
        r.1 = Fulfilled tt ∧ r'.1 = Fulfilled tt ∧
        store r.2 = store r'.2 ∧ requests r.2 = requests r'.2 ∧
        unhandled r.2 = unhandled r'.2 ∧
        length (inflight r.2) = length (inflight r'.2)
  | None =>
      (∃ e, r.1 = Rejected e) ∧ store r.2 = store w ∧ inflight r.2 = inflight w ∧
      unhandled r.2 = unhandled w
  end.
Proof.
  destruct w as [s q i u].
  destruct o as [e|[okr st' [|[|[| |[[l'|]]]]]]]; cbn; eauto 10.
  intros st. rewrite !length_app. auto 10.
Qed.

(** X24.  The mutators of the earlier revision send the requests that those
    of the later revision send, whatever the outcomes; they log nothing and
    change nothing, and their promise is rejected when a request is. *)
Theorem Legacy_mutators_requests domain w patched posted :
  let b := run (Legacy.blockDomain domain) w [patched; posted] in
  let u := run (Legacy.unblockDomain domain) w [patched] in
  requests b.2 = requests (run (blockDomain domain) w [patched; posted]).2 ∧
  requests u.2 = requests (run (unblockDomain domain) w [patched]).2 ∧
  b.1 = legacy_blocked patched posted ∧
  u.1 = (match patched with Rejects e => Rejected e | Responds _ => Fulfilled tt end) ∧
  store b.2 = store w ∧ store u.2 = store w.
Proof.
  destruct w as [s q i u].
  destruct patched as [e|[[] st b]]; cbn; [| |destruct posted as [e|[? ? ?]]; cbn];
    auto 10.
Qed.

End Earlier.

Lemma Legacy_syncConfig_agrees_witness :
  run (Legacy.syncConfig key_uuid) switch_world
    [Responds {| ok := false; statusText := "Too Many Requests";
                 payload := Parsed (JsonValue (Val {| denylist := Some [DenylistEntry.mk "reddit.com" true] |})) |}]
  = run (syncConfig key_uuid) switch_world [reddit true].
Proof.
  exact (Legacy_syncConfig_agrees key_uuid switch_world
           (Responds {| ok := false; statusText := "Too Many Requests";
                        payload := Parsed (JsonValue (Val {| denylist := Some [DenylistEntry.mk "reddit.com" true] |})) |})
           [DenylistEntry.mk "reddit.com" true] "OK" eq_refl).
Defined.

Lemma Legacy_syncConfig_dies_witness :
  timers (store (detach (run (Legacy.syncConfig key_uuid) switch_world
                           [Rejects NetworkError])))
  = timers (store switch_world).
Proof.
  exact (proj1 (proj2 (Legacy_syncConfig_dies key_uuid switch_world
                         (Rejects NetworkError) eq_refl))).
Defined.

(** ** One loop, and only one *)

Lemma sum_list_delete (l : list nat) i n :
  l !! i = Some n → (sum_list (delete i l) + n = sum_list l)%nat.
Proof.
  revert i. induction l as [|x l IH]; intros [|i]; simpl; try discriminate.
  - intros [= ->]. lia.
  - intros H. specialize (IH _ H). lia.
Qed.

Lemma sum_list_app (l k : list nat) :
  sum_list (l ++ k) = (sum_list l + sum_list k)%nat.
Proof. induction l as [|x l IH]; simpl; [done | rewrite IH; lia]. Qed.

Lemma sum_list_snoc (l : list nat) n : sum_list (l ++ [n]) = (sum_list l + n)%nat.
Proof. rewrite sum_list_app. simpl. lia. Qed.

Section One_loop.

Variables (generate title : string → string).

Lemma bootstrapAsyncUpdates_started w :
  detach (exec (bootstrapAsyncUpdates generate) w)
  = {| store := add_log Debug "syncConfig called" (store w);
       requests := requests w
                     ++ [profile_request (apiKey (config (store w)))
                           (profileId (config (store w)))];
       inflight := inflight w ++ [continuation (exec (syncConfig generate) w)];
       unhandled := unhandled w |}.
Proof. reflexivity. Qed.

(** What a task does when the outcome it waits for arrives. *)
Lemma task_resumed n k o w :
  task generate title n k →
  ∃ owed,
    Forall2 (task generate title) owed
      (drop (length (inflight w)) (inflight (detach (exec (k o) w)))) ∧
    take (length (inflight w)) (inflight (detach (exec (k o) w))) = inflight w ∧
    (length (timers (store (detach (exec (k o) w)))) + sum_list owed
     = length (timers (store w)) + n)%nat.
Proof.
  intros Hk. destruct Hk as [w0|w0|domain w0|domain w0 o0 w1|domain w0].
  - rewrite discoverDevices_resumed. cbn [detach].
    rewrite bootstrapAsyncUpdates_started. cbn [inflight store set_store timers add_log set_log].
    rewrite drop_app_length, take_app_length.
    exists [1]. split; [constructor; [apply task_tick|constructor]|]. split; [done|].
    rewrite registerDevices_timers, outcome_log_timers. cbn. lia.
  - destruct (syncConfig_resumed generate w0 o w) as (Hr & Ht & _ & Hi & _).
    destruct (exec (continuation (exec (syncConfig generate) w0) o) w) as [r w'].
    cbn [fst snd] in *. subst r. cbn [detach]. rewrite Hi, Ht, drop_all, take_ge by done.
    exists []. split; [constructor|]. split; [done|]. rewrite length_app. cbn. lia.
  - destruct o as [e|[[] st b]].
    + exists []. cbn. rewrite drop_all, take_ge by done. split; [constructor|]. split; [done|]. lia.
    + exists []. cbn. rewrite drop_all, take_ge by done. split; [constructor|]. split; [done|]. lia.
    + exists [0]. cbn [detach]. 
      change (exec (continuation (exec (blockDomain domain) w0)
                      (Responds {| ok := false; statusText := st; payload := b |})) w)
        with (Pending (continuation
                         (exec (continuation (exec (blockDomain domain) w0)
                                  (Responds {| ok := false; statusText := st; payload := b |}))
                            w)),
              send (post_request (config (store w)) domain) w).
      cbn [detach inflight store send timers].
      rewrite drop_app_length, take_app_length.
      split; [constructor; [apply task_post|constructor]|]. split; [done|]. cbn. lia.
  - exists []. destruct o0 as [e0|[[] st0 b0]]; [| |destruct o as [e|r]];
      cbn; rewrite drop_all, take_ge by done; (split; [constructor|]); (split; [done|]); lia.
  - exists []. destruct o as [e|r];
      cbn; rewrite drop_all, take_ge by done; (split; [constructor|]); (split; [done|]); lia.
Qed.

Lemma deliver_loops n i o w : loops generate title n w → loops generate title n (deliver i o w).
Proof.
  intros (owed & Hall & Hsum). unfold deliver.
  destruct (inflight w !! i) as [k|] eqn:Hk; [|by exists owed].
  destruct (Forall2_lookup_r _ _ _ _ _ Hall Hk) as (m & Hm & Htask).
  set (w2 := {| store := store w; requests := requests w;
                inflight := delete i (inflight w); unhandled := unhandled w |}).
  destruct (task_resumed m k o w2 Htask) as (owed' & Hall' & Htake & Hsum').
  exists (delete i owed ++ owed'). split.
  - rewrite <- (take_drop (length (inflight w2)) (inflight (detach (exec (k o) w2)))).
    rewrite Htake. apply Forall2_app; [|done]. by apply Forall2_delete.
  - rewrite sum_list_app. pose proof (sum_list_delete owed i m Hm). cbn in Hsum'. lia.
Qed.

Lemma fire_loops n i w : loops generate title n w → loops generate title n (fire generate i w).
Proof.
  intros (owed & Hall & Hsum). unfold fire.
  destruct (timers (store w) !! i) as [[[] ms]|] eqn:Ht; [|by exists owed].
  cbn [callback]. rewrite syncConfig_suspends. cbn [detach inflight store send set_store].
  exists (owed ++ [1]). split.
  - apply Forall2_app; [done|]. constructor; [apply task_tick|constructor].
  - rewrite sum_list_snoc.
    change (length (timers (store _)))
      with (length (delete i (timers (store w)))).
    rewrite length_delete by eauto.
    assert (i < length (timers (store w)))%nat by (apply lookup_lt_is_Some; eauto). lia.
Qed.

Lemma setOn_loops n this value w :
  loops generate title n w → loops generate title n (exec (setOn this value) w).2.
Proof.
  intros (owed & Hall & Hsum).
  unfold setOn, this_switch, this_domain, add_log. cbn.
  set (s1 := assign_isOn this value _).
  assert (Ht : timers s1 = timers (store w)).
  { unfold s1, assign_isOn. by destruct (JsMap.get _ _). }
  destruct (JsMap.get this (BlockedDomainAccessories s1)) as [self|] eqn:Hself; cbn;
    [|exists owed; cbn; by rewrite Ht].
  rewrite Hself. cbn.
  destruct (objects s1 !! BlockedDomainAccessory.accessory self) as [a|]; cbn;
    [|exists owed; cbn; by rewrite Ht].
  set (domain := show (Context.domain (PlatformAccessory.context a))).
  set (w1 := set_store s1 (set_store _ w)).
  destruct (BlockedDomainAccessory.isOn self); cbn.
  - exists (owed ++ [0]). split.
    + apply Forall2_app; [done|]. constructor; [|constructor].
      exact (task_block generate title domain w1).
    + rewrite sum_list_snoc.
      change (length (timers (store _))) with (length (timers s1)). rewrite Ht. lia.
  - exists (owed ++ [0]). split.
    + apply Forall2_app; [done|]. constructor; [|constructor].
      exact (task_unblock generate title domain w1).
    + rewrite sum_list_snoc.
      change (length (timers (store _))) with (length (timers s1)). rewrite Ht. lia.
Qed.

Lemma getOn_loops n this w :
  loops generate title n w → loops generate title n (exec (getOn this) w).2.
Proof.
  intros H. unfold getOn, this_switch. cbn.
  by destruct (JsMap.get this (BlockedDomainAccessories (store w))).
Qed.


End One_loop.

(** ** The cache *)

Lemma JsMap_get_None {V} (k : string) (m : JsMap.t V) :
  k ∉ m.*1 → JsMap.get k m = None.
Proof.
  induction m as [|[k' v'] m IH]; cbn; [done|].
  intros [Hne Hk]%not_elem_of_cons. by rewrite decide_False, IH.
Qed.

Lemma JsMap_set_fresh {V} (k : string) (v : V) (m : JsMap.t V) :
  k ∉ m.*1 → JsMap.set k v m = m ++ [(k, v)].
Proof.
  induction m as [|[k' v'] m IH]; cbn; [done|].
  intros [Hne Hk]%not_elem_of_cons. by rewrite decide_False, IH.
Qed.

Lemma foldl_restore_fresh cached s :
  NoDup ((accessories s).*1 ++ (PlatformAccessory.UUID <$> cached)) →
  accessories (foldl (λ s a, restore a s) s cached)
  = accessories s
      ++ imap (λ i a, (PlatformAccessory.UUID a, (length (objects s) + i)%nat)) cached ∧
  objects (foldl (λ s a, restore a s) s cached) = objects s ++ cached.
Proof.
  revert s. induction cached as [|a cached IH]; intros s Hnd; cbn [foldl].
  - cbn. by rewrite !app_nil_r.
  - assert (Hs : accessories (restore a s)
                 = accessories s ++ [(PlatformAccessory.UUID a, length (objects s))] ∧
                 objects (restore a s) = objects s ++ [a]).
    { unfold restore, configureAccessory. cbn. rewrite lookup_app_last. cbn.
      split; [|done]. apply JsMap_set_fresh.
      apply NoDup_app in Hnd as (_ & Hnd & _). intros Hin. apply (Hnd _ Hin). by left. }
    destruct Hs as [Ha Ho]. destruct (IH (restore a s)) as [IHa IHo].
    { rewrite Ha, fmap_app. cbn. rewrite <- app_assoc. exact Hnd. }
    rewrite IHa, IHo, Ha, Ho, <- !app_assoc. cbn. split; [|done].
    do 2 f_equal; [f_equal; lia|].
    apply imap_ext. intros i x _. cbn. rewrite length_app. cbn. f_equal. lia.
Qed.

(** X26.  What [configureAccessory] builds from the host's cache, the cached
    accessories having UUIDs of their own: the platform's map holds them under
    their UUIDs, in the order the host handed them over, and nothing else. *)
Theorem configureAccessory_cache cfg cached :
  NoDup (PlatformAccessory.UUID <$> cached) →
  let s := foldl (λ s a, restore a s) (new_platform cfg) cached in
  accessories s = imap (λ i a, (PlatformAccessory.UUID a, i)) cached ∧
  objects s = cached ∧
  ∀ i a, cached !! i = Some a →
         JsMap.get (PlatformAccessory.UUID a) (accessories s) = Some i.
Proof.
  intros Hnd. cbv zeta.
  destruct (foldl_restore_fresh cached (new_platform cfg)) as [Ha Ho]; [exact Hnd|].
  cbn in Ha, Ho. rewrite Ha, Ho. split; [done|]. split; [done|].
  clear Ha Ho. intros i a Hi.
  assert (Hgen : ∀ (l : list PlatformAccessory.t) (f : nat → nat) i a,
            NoDup (PlatformAccessory.UUID <$> l) → l !! i = Some a →
            JsMap.get (PlatformAccessory.UUID a)
              (imap (λ i a, (PlatformAccessory.UUID a, f i)) l) = Some (f i)).
  { clear. induction l as [|x l IH]; intros f [|i] a Hnd Hi; try discriminate.
    - injection Hi as ->. cbn. by rewrite decide_True.
    - cbn. apply NoDup_cons in Hnd as [Hx Hnd]. rewrite decide_False.
      + apply (IH (f ∘ S) i a Hnd Hi).
      + intros Heq. apply Hx. rewrite <- Heq. apply list_elem_of_fmap_2.
        by eapply list_elem_of_lookup_2. }
  exact (Hgen cached id i a Hnd Hi).
Qed.

Lemma configureAccessory_cache_witness :
  accessories (foldl (λ s a, restore a s) (new_platform reddit_config)
                 [reddit_cached reddit_uuid])
  = [(reddit_uuid, 0)].
Proof.
  exact (proj1 (configureAccessory_cache reddit_config [reddit_cached reddit_uuid]
                  (NoDup_singleton _))).
Defined.

(** ** A tick and an accessory of the cache *)

Section Cached.

Variable generate : string → string.
Context `{!Inj (=) (=) generate}.

(** X27.  For a domain whose accessory came from the host's cache, a tick
    that read a denylist listing the domain with one flag leaves both the
    switch and the [On] characteristic of the accessory's switch service with
    that flag. *)
Theorem syncConfig_updates_cached w st l w2 d flag r self service :
  keyed (store w2) →
  JsMap.get "adf" (accessories (store w2)) = None →
  JsMap.get (getUUID generate d) (accessories (store w2)) = Some r →
  JsMap.get (getUUID generate d) (BlockedDomainAccessories (store w2)) = Some self →
  getService_Switch r (store w2) = Some service →
  DenylistEntry.mk d flag ∈ l →
  (∀ e, e ∈ l → DenylistEntry.id e = d → DenylistEntry.active e = flag) →
  let after := (exec (continuation (exec (syncConfig generate) w) (fetched st l)) w2).2 in
  (exec (getOn (getUUID generate d)) after).1 = Fulfilled flag ∧
  On <$> getService_Switch r (store after) = Some flag.
Proof.
  intros Hk Hadf Hr Hself Hservice Hin Hall. cbv zeta. split.
  - by apply (syncConfig_sets_isOn generate w st l w2 d flag self).
  - rewrite (syncConfig_updates_restored generate w st l w2 d flag r) by done.
    by rewrite Hservice.
Qed.

End Cached.

Lemma syncConfig_updates_cached_witness :
  On <$> getService_Switch 0
           (store (exec (continuation (exec (syncConfig key_uuid) switch_world)
                           (reddit true)) switch_world).2)
  = Some true.
Proof.
  assert (Hall : ∀ e, e ∈ [DenylistEntry.mk "reddit.com" true] →
                      DenylistEntry.id e = "reddit.com" → DenylistEntry.active e = true).
  { by intros e ->%list_elem_of_singleton. }
  exact (proj2 (syncConfig_updates_cached key_uuid switch_world "OK"
                  [DenylistEntry.mk "reddit.com" true] switch_world "reddit.com" true 0
                  (BlockedDomainAccessory.mk 0 false)
                  {| On := false; Name := "Reddit Block" |}
                  switch_store_keyed eq_refl eq_refl eq_refl eq_refl
                  (proj2 (list_elem_of_singleton _ _) eq_refl) Hall)).
Defined.

(** ** Names that every object has *)

Section Inherited.

Variable generate : string → string.
Context `{!Inj (=) (=) generate}.

(** X28.  The record that discovery builds from the denylist is a plain
    object, so a configured domain named like a member every object inherits
    ("constructor", "toString", "valueOf", ...) reads as truthy when the
    denylist does not list it, and its switch starts on; a domain named
    "__proto__" starts on whatever the denylist says, an assignment to that
    member being ignored. *)
Theorem discoverDevices_inherited w o w2 d :
  keyed (store w2) →
  d ∈ default [] (blockedDomains (config (store w2))) →
  d ∈ JsRecord.inherited →
  d = "__proto__" ∨ d ∉ DenylistEntry.id <$> outcome_denylist o →
  (exec (getOn (getUUID generate d))
     (exec (continuation (exec (discoverDevices generate toTitleCase) w) o) w2).2).1
  = Fulfilled true.
Proof.
  intros Hk Hd Hname Hcase. rewrite discoverDevices_seeds by done. f_equal.
  destruct Hcase as [->|Habsent]; [reflexivity|].
  rewrite truthy_member_absent by done. by apply bool_decide_eq_true_2.
Qed.

End Inherited.

Lemma discoverDevices_inherited_witness :
  (exec (getOn (getUUID key_uuid "constructor"))
     (exec (continuation
              (exec (discoverDevices key_uuid toTitleCase) (idle_world constructor_config))
              (Rejects NetworkError))
        (idle_world constructor_config)).2).1
  = Fulfilled true.
Proof.
  apply (discoverDevices_inherited key_uuid (idle_world constructor_config)
           (Rejects NetworkError) (idle_world constructor_config) "constructor"
           (idle_world_keyed constructor_config)).
  - apply list_elem_of_singleton. reflexivity.
  - apply (bool_decide_eq_true_1 ("constructor" ∈ JsRecord.inherited)). reflexivity.
  - right. cbn. by intros ?%elem_of_nil.
Defined.
